(** * fiddle: overlap partitioning, DoF translation and transactions

    A shallow embedding of the overlap-partitioning core of fiddle
    ([source/grid/overlap_tria.cc], [source/transfer/overlap_partitioning_tools.cc],
    [include/fiddle/interaction/interaction_base.h], [fiddle.cc]) and the
    properties its design document states about it.

    Conventions of the embedding.
    - A C++ [double] is a [spec_float] of the binary64 format; comparisons are
      [SFleb], so NaN, signed zeros and infinities behave as in the program.
    - deal.II's [Assert(cond, exc)] is modelled with its checked (debug build)
      meaning: a false condition ends the call with the exception [exc].
    - Functions of deal.II and of the C++ standard library are not part of the
      repository.  What the program needs from them is either written out
      (iteration orders, inheritance of ids on refinement) or taken as a
      section variable (cell geometry, [std::sort]). *)

From Stdlib Require Import ZArith Lia Bool.
From Stdlib Require Import Floats.SpecFloat.
From stdpp Require Import base option list sorting gmap strings.

Local Open Scope nat_scope.

(** ** Doubles *)

Definition double := spec_float.

(** [a <= b] on doubles. *)
Definition dleb (x y : double) : bool := SFleb x y.

(** The double nearest to [m * 2^e], used to write concrete coordinates. *)
Definition dbl (m e : Z) : double := binary_normalize 53 1024 m e false.

(** ** Bounding boxes and the intersection predicate *)

(** [Point<spacedim>]: a coordinate for every axis [d < spacedim]. *)
Definition Point := nat -> double.

(** [BoundingBox<spacedim>]: the pair of its lower and upper corner. *)
Record BoundingBox := mkBoundingBox {
  lower_bound : Point;
  upper_bound : Point
}.

(** The condition under which the loop body of [intersects] returns false on
    axis [d]. *)
Definition axis_separated (a b : BoundingBox) (d : nat) : bool :=
  negb ((dleb (lower_bound a d) (lower_bound b d) &&
         dleb (lower_bound b d) (upper_bound a d)) ||
        (dleb (lower_bound a d) (upper_bound b d) &&
         dleb (upper_bound b d) (upper_bound a d))) &&
  negb (dleb (lower_bound b d) (lower_bound a d) &&
        dleb (lower_bound a d) (upper_bound b d)).

(** [for (d = d0; d < d0 + n; ++d) if (...) return false; return true;] *)
Fixpoint intersects_from (n d : nat) (a b : BoundingBox) : bool :=
  match n with
  | 0 => true
  | S n' => if axis_separated a b d then false else intersects_from n' (S d) a b
  end.

Definition intersects (spacedim : nat) (a b : BoundingBox) : bool :=
  intersects_from spacedim 0 a b.

(** The closed intervals of [a] and [b] on axis [d] overlap. *)
Definition axis_overlap (a b : BoundingBox) (d : nat) : Prop :=
  dleb (lower_bound a d) (upper_bound b d) = true /\
  dleb (lower_bound b d) (upper_bound a d) = true.

(** Lower corner below upper corner on every axis. *)
Definition well_formed_box (spacedim : nat) (a : BoundingBox) : Prop :=
  forall d, d < spacedim -> dleb (lower_bound a d) (upper_bound a d) = true.

(** Boxes in the plane with corners at small dyadic coordinates. *)
Definition point2 (x y : double) : Point :=
  fun d => match d with 0 => x | _ => y end.

Definition box2 (x0 y0 x1 y1 : Z) : BoundingBox :=
  mkBoundingBox (point2 (dbl x0 (-2)) (dbl y0 (-2)))
                (point2 (dbl x1 (-2)) (dbl y1 (-2))).

(** ** Exceptions and checked assertions *)

Inductive exception :=
| ExcInternalError
| ExcNotImplemented
| ExcIndexRange
| ExcMessage (msg : string).

Inductive result (A : Type) :=
| Ok (a : A)
| Throw (e : exception).
Arguments Ok {A} a.
Arguments Throw {A} e.

(** Computations that read and update a state [S] and may throw. *)
Definition M (S A : Type) : Type := S -> result (A * S).

Definition retM {S A} (a : A) : M S A := fun s => Ok (a, s).

Definition bindM {S A B} (m : M S A) (k : A -> M S B) : M S B :=
  fun s => match m s with
           | Ok (a, s') => k a s'
           | Throw e => Throw e
           end.

Definition throwM {S A} (e : exception) : M S A := fun _ => Throw e.

Definition getM {S} : M S S := fun s => Ok (s, s).

Definition putM {S} (s : S) : M S unit := fun _ => Ok (tt, s).

Notation "x <- m ;; k" := (bindM m (fun x => k))
  (at level 100, m at next level, right associativity).
Notation "m ;;; k" := (bindM m (fun _ => k))
  (at level 100, right associativity).

(** [Assert(cond, exc)]. *)
Definition Assert {S} (cond : bool) (exc : exception) : M S unit :=
  if cond then retM tt else throwM exc.

Fixpoint mapM_st {S A B} (f : A -> M S B) (l : list A) : M S (list B) :=
  match l with
  | [] => retM []
  | x :: l' => y <- f x ;; ys <- mapM_st f l' ;; retM (y :: ys)
  end.

Set Warnings "-register-all".

(** ** Meshes *)

(** deal.II's id types are unsigned 32-bit integers. *)
Definition artificial_subdomain_id : N := 4294967294.
Definition flat_manifold_id : N := 4294967295.

(** A cell iterator into the native mesh: the number of a coarse cell followed
    by child numbers. Its level is one less than its length. *)
Abbreviation cell_path := (list nat).

(** What the program reads from a line of a face and from a face of a native
    cell. *)
Record NativeLine := mkNativeLine {
  l_vertex_indices : list nat;
  l_manifold_id : N;
  l_boundary_id : N
}.

Record NativeFace := mkNativeFace {
  f_vertex_indices : list nat;
  f_manifold_id : N;
  f_boundary_id : N;
  f_lines : list NativeLine
}.

(** A cell of the native [parallel::shared::Triangulation], with the cells it
    was refined into. *)
Inductive NativeCell := mkNativeCell {
  n_vertex_indices : list nat;
  n_material_id : N;
  n_manifold_id : N;
  n_subdomain_id : N;
  n_active_cell_index : nat;
  n_isotropic : bool;
  n_faces : list NativeFace;
  n_children : list NativeCell
}.

Record NativeTriangulation := mkNativeTriangulation {
  get_vertices : nat -> Point;
  n_coarse_cells : list NativeCell
}.

(** A cell of the overlap triangulation, with the cells it was refined into. *)
Inductive OverlapCell := mkOverlapCell {
  o_vertices : list Point;
  o_material_id : N;
  o_manifold_id : N;
  o_subdomain_id : N;
  o_user_index : N;
  o_refine_flag : bool;
  o_children : list OverlapCell
}.

Definition set_children (cs : list OverlapCell) (c : OverlapCell) : OverlapCell :=
  mkOverlapCell (o_vertices c) (o_material_id c) (o_manifold_id c)
    (o_subdomain_id c) (o_user_index c) (o_refine_flag c) cs.

Definition set_subdomain_id (i : N) (c : OverlapCell) : OverlapCell :=
  mkOverlapCell (o_vertices c) (o_material_id c) (o_manifold_id c)
    i (o_user_index c) (o_refine_flag c) (o_children c).

Definition set_material_id (i : N) (c : OverlapCell) : OverlapCell :=
  mkOverlapCell (o_vertices c) i (o_manifold_id c)
    (o_subdomain_id c) (o_user_index c) (o_refine_flag c) (o_children c).

Definition set_manifold_id (i : N) (c : OverlapCell) : OverlapCell :=
  mkOverlapCell (o_vertices c) (o_material_id c) i
    (o_subdomain_id c) (o_user_index c) (o_refine_flag c) (o_children c).

Definition set_user_index (i : N) (c : OverlapCell) : OverlapCell :=
  mkOverlapCell (o_vertices c) (o_material_id c) (o_manifold_id c)
    (o_subdomain_id c) i (o_refine_flag c) (o_children c).

Definition set_refine_flag (b : bool) (c : OverlapCell) : OverlapCell :=
  mkOverlapCell (o_vertices c) (o_material_id c) (o_manifold_id c)
    (o_subdomain_id c) (o_user_index c) b (o_children c).

Definition n_has_children (c : NativeCell) : bool :=
  match n_children c with [] => false | _ => true end.

Definition n_is_active (c : NativeCell) : bool := negb (n_has_children c).

Definition o_has_children (c : OverlapCell) : bool :=
  match o_children c with [] => false | _ => true end.

Definition o_is_active (c : OverlapCell) : bool := negb (o_has_children c).

(** *** Traversal of the native mesh *)

(** The cells [l] levels below [c], in order, with their iterators. *)
Fixpoint n_cells_below (l : nat) (p : cell_path) (c : NativeCell)
  : list (cell_path * NativeCell) :=
  match l with
  | 0 => [(p, c)]
  | S l' => mjoin (imap (fun i ch => n_cells_below l' (p ++ [i]) ch) (n_children c))
  end.

(** [tria.cell_iterators_on_level(l)]: the cells of level [l], listed parent
    by parent. deal.II lists a level in the order in which it stores the
    cells: the same cells, in another order when the level was created in
    several refinement steps. [active_cell_indices_consistent] below ties the
    active cell indices to the order used here. *)
Definition n_cell_iterators_on_level (t : NativeTriangulation) (l : nat)
  : list (cell_path * NativeCell) :=
  mjoin (imap (fun i c => n_cells_below l [i] c) (n_coarse_cells t)).

(** [tria.active_cell_iterators_on_level(l)]. *)
Definition n_active_cell_iterators_on_level (t : NativeTriangulation) (l : nat)
  : list (cell_path * NativeCell) :=
  filter (fun pc => n_is_active pc.2 = true) (n_cell_iterators_on_level t l).

Fixpoint n_depth (c : NativeCell) : nat :=
  S (max_list (n_depth <$> n_children c)).

(** [tria.n_levels()]. *)
Definition n_levels (t : NativeTriangulation) : nat :=
  max_list (n_depth <$> n_coarse_cells t).

(** [tria.active_cell_iterators()]: the active cells level by level. *)
Definition n_active_cell_iterators (t : NativeTriangulation)
  : list (cell_path * NativeCell) :=
  mjoin (n_active_cell_iterators_on_level t <$> seq 0 (n_levels t)).

Fixpoint n_descend (c : NativeCell) (p : cell_path) : option NativeCell :=
  match p with
  | [] => Some c
  | i :: p' => ch ← n_children c !! i; n_descend ch p'
  end.

(** Dereferencing a cell iterator. *)
Definition n_cell_at (t : NativeTriangulation) (p : cell_path) : option NativeCell :=
  match p with
  | [] => None
  | i :: p' => c ← n_coarse_cells t !! i; n_descend c p'
  end.

(** [cell->vertex(i)] for all [i]. *)
Definition n_vertices (t : NativeTriangulation) (c : NativeCell) : list Point :=
  get_vertices t <$> n_vertex_indices c.

(** *** Traversal of the overlap mesh *)

Fixpoint o_cells_below (l : nat) (c : OverlapCell) : list OverlapCell :=
  match l with
  | 0 => [c]
  | S l' => o_children c ≫= o_cells_below l'
  end.

(** [cell_iterators_on_level(l)] of a mesh with the given coarse cells. *)
Definition o_cell_iterators_on_level (coarse : list OverlapCell) (l : nat)
  : list OverlapCell :=
  coarse ≫= o_cells_below l.

Fixpoint o_depth (c : OverlapCell) : nat :=
  S (max_list (o_depth <$> o_children c)).

Definition o_n_levels (coarse : list OverlapCell) : nat :=
  max_list (o_depth <$> coarse).

(** [active_cell_iterators()]. *)
Definition o_active_cell_iterators (coarse : list OverlapCell) : list OverlapCell :=
  mjoin ((fun l => filter (fun c => o_is_active c = true)
                     (o_cell_iterators_on_level coarse l))
           <$> seq 0 (o_n_levels coarse)).

(** Run [f] on every cell [l] levels below [c], in order. *)
Fixpoint on_level_below {S} (l : nat) (f : OverlapCell -> M S OverlapCell)
    (c : OverlapCell) : M S OverlapCell :=
  match l with
  | 0 => f c
  | S l' => cs <- mapM_st (on_level_below l' f) (o_children c) ;;
            retM (set_children cs c)
  end.

(** [for (auto &cell : cell_iterators_on_level(l)) cell = f(cell);] *)
Definition on_level {S} (l : nat) (f : OverlapCell -> M S OverlapCell)
    (coarse : list OverlapCell) : M S (list OverlapCell) :=
  mapM_st (on_level_below l f) coarse.

(** ** The overlap triangulation *)

(** [CellData<structdim>] and [SubCellData] as handed to
    [create_triangulation]. *)
Record CellData := mkCellData {
  cd_vertices : list nat;
  cd_material_id : N;
  cd_manifold_id : N;
  cd_boundary_id : N
}.

Record SubCellData := mkSubCellData {
  boundary_lines : list CellData;
  boundary_quads : list CellData
}.

Record OverlapTriangulation := mkOverlapTriangulation {
  native_tria : NativeTriangulation;
  native_cells : list cell_path;
  coarse_cells : list OverlapCell;
  cell_iterators_in_active_native_order : list OverlapCell
}.

(** The members and locals that [reinit_overlapping_tria] updates while it
    walks over cells: the table [native_cells] and the flag [refined]. *)
Record BuildState := mkBuildState {
  bs_native_cells : list cell_path;
  bs_refined : bool
}.

Definition set_refined (b : bool) : M BuildState unit :=
  fun s => Ok (tt, mkBuildState (bs_native_cells s) b).

(** Modelled from the spec: [add_native_cell] is declared in
    [fiddle/grid/overlap_tria.h], which is not among the sources. It stores
    the native cell in the next free slot of the native-cell table and
    returns the slot. *)
Definition add_native_cell (p : cell_path) : M BuildState N :=
  fun s => Ok (N.of_nat (length (bs_native_cells s)),
               mkBuildState (bs_native_cells s ++ [p]) (bs_refined s)).

(** Modelled from the spec: [get_native_cell] is declared in
    [fiddle/grid/overlap_tria.h], which is not among the sources. It follows
    the back-reference of an overlap cell: the native cell stored in the slot
    named by the cell's user index. *)
Definition get_native_cell (native : NativeTriangulation)
    (table : list cell_path) (c : OverlapCell) : option (cell_path * NativeCell) :=
  p ← table !! N.to_nat (o_user_index c);
  nc ← n_cell_at native p;
  Some (p, nc).

Definition of_option {S A} (o : option A) (e : exception) : M S A :=
  match o with Some a => retM a | None => throwM e end.

Definition get_native_cellM (native : NativeTriangulation) (c : OverlapCell)
  : M BuildState (cell_path * NativeCell) :=
  s <- getM ;; of_option (get_native_cell native (bs_native_cells s) c) ExcIndexRange.

(** [get_native_cell(cell)->active_cell_index()], the key by which [reinit]
    sorts. *)
Definition native_active_cell_index (t : OverlapTriangulation) (c : OverlapCell)
  : nat :=
  match get_native_cell (native_tria t) (native_cells t) c with
  | Some (_, nc) => n_active_cell_index nc
  | None => 0
  end.

(** deal.II numbers the active cells in the order of
    [active_cell_iterators()]. *)
Definition active_cell_indices_consistent (t : NativeTriangulation) : Prop :=
  (fun pc => n_active_cell_index pc.2) <$> n_active_cell_iterators t =
  seq 0 (length (n_active_cell_iterators t)).

(** [OverlapTriangulation::locally_owned_subdomain]. *)
Definition locally_owned_subdomain : N := 0.

(** [cell->is_locally_owned()] for a cell of the overlap triangulation. *)
Definition is_locally_owned (c : OverlapCell) : bool :=
  N.eqb (o_subdomain_id c) locally_owned_subdomain.

(** *** Boundary ids *)

(** [numbers::internal_face_boundary_id], the boundary id deal.II keeps on
    the faces inside a mesh: [face->at_boundary()] is
    [face->boundary_id() != numbers::internal_face_boundary_id]. *)
Definition internal_face_boundary_id : N := 4294967295.

(** The boundary ids of the faces of the overlap mesh are kept by deal.II;
    [boundary_id c face_n] stands for [c->face(face_n)->boundary_id()]. In a
    mesh of one cell every face is at the boundary, so that none has the
    internal boundary id. *)
Definition respects_at_boundary (coarse : list OverlapCell)
    (boundary_id : OverlapCell -> nat -> N) : Prop :=
  forall c, coarse = [c] -> o_children c = [] ->
    forall face_n, boundary_id c face_n <> internal_face_boundary_id.

(** The active cells of the overlap mesh have, face by face, the boundary
    ids of the native cells they refer to. *)
Definition same_boundary_ids (t : OverlapTriangulation)
    (boundary_id : OverlapCell -> nat -> N) : Prop :=
  forall c p nc face_n face,
    c ∈ o_active_cell_iterators (coarse_cells t) ->
    get_native_cell (native_tria t) (native_cells t) c = Some (p, nc) ->
    n_faces nc !! face_n = Some face ->
    boundary_id c face_n = f_boundary_id face.

Section Build.

(** The template parameters and what deal.II and the standard library
    compute. *)
Variable dim spacedim : nat.
(** [cell->bounding_box()], from the vertices of the cell. *)
Variable bounding_box : list Point -> BoundingBox.
(** [(a->barycenter() - b->barycenter()).norm() < 1e-12], from the vertices
    of the two cells. *)
Variable barycenters_agree : list Point -> list Point -> bool.
(** The number of children of an isotropically refined cell, and the vertices
    [execute_coarsening_and_refinement] gives to child [i] of a cell. *)
Variable n_children_isotropic : nat.
Variable child_vertices : OverlapCell -> nat -> list Point.
(** [std::sort] with a comparator [key(a) < key(b)]: some sorted permutation;
    the order of elements with equal keys is not specified. *)
Variable std_sort : forall A : Type, (A -> nat) -> list A -> list A.

Definition sorts_by_key : Prop :=
  forall (A : Type) (key : A -> nat) (l : list A),
    std_sort A key l ≡ₚ l /\
    StronglySorted (fun a b => key a <= key b) (std_sort A key l).

Variable native : NativeTriangulation.
Variable patch_bboxes : list BoundingBox.

(** The lambda [intersects_patches], on the vertices of a cell. *)
Definition intersects_patches (vertices : list Point) : bool :=
  existsb (fun patch_bbox => intersects spacedim (bounding_box vertices) patch_bbox)
          patch_bboxes.

(** The search for the coarsest level with an active cell that intersects the
    patches; [None] stands for [numbers::invalid_unsigned_int]. *)
Definition level_has_intersecting_active_cell (level_n : nat) : bool :=
  existsb (fun pc => intersects_patches (n_vertices native pc.2))
          (n_active_cell_iterators_on_level native level_n).

Fixpoint find_coarsest_level (levels : list nat) : option nat :=
  match levels with
  | [] => None
  | level_n :: rest =>
      if level_has_intersecting_active_cell level_n then Some level_n
      else find_coarsest_level rest
  end.

(** The lambda [extract_subcell]. *)
Definition extract_subcell (vertex_indices : list nat) (manifold_id boundary_id : N)
  : CellData :=
  mkCellData vertex_indices 0 manifold_id boundary_id.

Definition face_subcell_data (f : NativeFace) : SubCellData :=
  if decide (dim = 2) then
    mkSubCellData
      [extract_subcell (f_vertex_indices f) (f_manifold_id f) (f_boundary_id f)] []
  else if decide (dim = 3) then
    mkSubCellData
      ((fun l => extract_subcell (l_vertex_indices l) (l_manifold_id l) (l_boundary_id l))
         <$> f_lines f)
      [extract_subcell (f_vertex_indices f) (f_manifold_id f) (f_boundary_id f)]
  else mkSubCellData [] [].

Definition append_subcell_data (a b : SubCellData) : SubCellData :=
  mkSubCellData (boundary_lines a ++ boundary_lines b)
                (boundary_quads a ++ boundary_quads b).

(** The loop over [native_tria->cell_iterators_on_level(coarsest_level_n)]
    that fills [cells] and [subcell_data]. *)
Fixpoint collect_seed_cells (level_cells : list (cell_path * NativeCell))
  : M BuildState (list CellData * SubCellData) :=
  match level_cells with
  | [] => retM ([], mkSubCellData [] [])
  | (p, cell) :: rest =>
      if intersects_patches (n_vertices native cell) then
        slot <- add_native_cell p ;;
        let cell_data := mkCellData (n_vertex_indices cell) slot flat_manifold_id 0 in
        let faces := foldr append_subcell_data (mkSubCellData [] [])
                       (face_subcell_data <$> n_faces cell) in
        r <- collect_seed_cells rest ;;
        retM (cell_data :: r.1, append_subcell_data faces r.2)
      else collect_seed_cells rest
  end.

(** [create_triangulation]: one coarse cell per entry of [cells], on the given
    vertices, with the material and manifold id of its entry, subdomain 0 and
    a cleared user index. The boundary ids of faces are kept by deal.II and
    are not part of the cell record. *)
Definition create_triangulation (vertices : nat -> Point) (cells : list CellData)
    (subcell_data : SubCellData) : list OverlapCell :=
  (fun cd => mkOverlapCell (vertices <$> cd_vertices cd) (cd_material_id cd)
               (cd_manifold_id cd) 0 0 false []) <$> cells.

(** The loop after [create_triangulation]: move the slot from the material id
    to the user index and copy the native material id. *)
Definition resolve_seed_cell (cell : OverlapCell) : M BuildState OverlapCell :=
  let cell := set_user_index (o_material_id cell) cell in
  native_cell <- get_native_cellM native cell ;;
  retM (set_material_id (n_material_id native_cell.2) cell).

(** First loop of a level: flag the cells whose native cell is refined. *)
Definition mark_cell (cell : OverlapCell) : M BuildState OverlapCell :=
  if intersects_patches (o_vertices cell) then
    native_cell <- get_native_cellM native cell ;;
    let cell := set_subdomain_id 0 cell in
    if n_has_children native_cell.2 then
      set_refined true ;;;
      Assert (n_isotropic native_cell.2) ExcNotImplemented ;;;
      retM (set_refine_flag true cell)
    else retM cell
  else retM (set_subdomain_id artificial_subdomain_id cell).

(** [execute_coarsening_and_refinement] on a cell: a flagged cell gets its
    children, which inherit the material, manifold and subdomain id of their
    parent and start with a cleared user index; the flag is cleared.
    To keep hanging nodes one level apart deal.II may refine further cells,
    coarser neighbours of flagged ones. Such a cell is active and not locally
    owned, its children stay artificial, and no loop of
    [reinit_overlapping_tria] visits them; they are left out here, so that the
    model describes the locally owned cells and the cells above them. *)
Definition new_child (parent : OverlapCell) (child_n : nat) : OverlapCell :=
  mkOverlapCell (child_vertices parent child_n) (o_material_id parent)
    (o_manifold_id parent) (o_subdomain_id parent) 0 false [].

Definition refine_flagged (cell : OverlapCell) : OverlapCell :=
  if o_refine_flag cell then
    set_children (new_child cell <$> seq 0 n_children_isotropic)
                 (set_refine_flag false cell)
  else cell.

(** Body of the loop over the children of a refined cell. *)
Definition pair_child (native_cell : cell_path * NativeCell) (child_n : nat)
    (child : OverlapCell) : M BuildState OverlapCell :=
  native_child <- of_option (n_children native_cell.2 !! child_n) ExcIndexRange ;;
  Assert (barycenters_agree (o_vertices child) (n_vertices native native_child))
         ExcInternalError ;;;
  slot <- add_native_cell (native_cell.1 ++ [child_n]) ;;
  let child := set_subdomain_id 0 (set_user_index slot child) in
  retM (if n_is_active native_child then
          set_manifold_id (n_manifold_id native_child)
            (set_material_id (n_material_id native_child) child)
        else child).

(** [for (child_n = first; child_n < n_children; ++child_n)] over the
    children from [first] on. *)
Fixpoint pair_children_from (native_cell : cell_path * NativeCell) (child_n : nat)
    (children : list OverlapCell) : M BuildState (list OverlapCell) :=
  match children with
  | [] => retM []
  | child :: rest =>
      child <- pair_child native_cell child_n child ;;
      rest <- pair_children_from native_cell (S child_n) rest ;;
      retM (child :: rest)
  end.

(** Second loop of a level: pair the new children with the native children. *)
Definition pair_children (cell : OverlapCell) : M BuildState OverlapCell :=
  if o_has_children cell then
    native_cell <- get_native_cellM native cell ;;
    children <- pair_children_from native_cell 0 (o_children cell) ;;
    retM (set_children children cell)
  else retM cell.

(** Body of the loop over levels. Refine flags are only ever set on the
    cells of [level_n], so [execute_coarsening_and_refinement] acts there. *)
Definition level_step (level_n : nat) (coarse : list OverlapCell)
  : M BuildState (list OverlapCell) :=
  set_refined false ;;;
  coarse <- on_level level_n mark_cell coarse ;;
  s <- getM ;;
  if bs_refined s then
    coarse <- on_level level_n (fun c => retM (refine_flagged c)) coarse ;;
    on_level level_n pair_children coarse
  else retM coarse.

Fixpoint for_levels (levels : list nat) (coarse : list OverlapCell)
  : M BuildState (list OverlapCell) :=
  match levels with
  | [] => retM coarse
  | level_n :: rest => coarse <- level_step level_n coarse ;; for_levels rest coarse
  end.

(** [OverlapTriangulation::reinit_overlapping_tria]. *)
Definition reinit_overlapping_tria : M BuildState (list OverlapCell) :=
  putM (mkBuildState [] false) ;;;
  let coarsest_level_n := find_coarsest_level (seq 0 (n_levels native)) in
  Assert (bool_decide (is_Some coarsest_level_n)) ExcInternalError ;;;
  let coarsest_level_n := default 0 coarsest_level_n in
  seed <- collect_seed_cells (n_cell_iterators_on_level native coarsest_level_n) ;;
  let coarse := create_triangulation (get_vertices native) seed.1 seed.2 in
  coarse <- on_level 0 resolve_seed_cell coarse ;;
  for_levels (seq 0 (n_levels native - coarsest_level_n)) coarse.

(** The cached list built at the end of [reinit]: the active cells that are
    not artificial, sorted by the active cell index of their native cell. *)
Definition with_native_index (table : list cell_path) (cell : OverlapCell)
  : result (nat * OverlapCell) :=
  match get_native_cell native table cell with
  | Some (_, nc) => Ok (n_active_cell_index nc, cell)
  | None => Throw ExcIndexRange
  end.

Fixpoint mapM_result {A B} (f : A -> result B) (l : list A) : result (list B) :=
  match l with
  | [] => Ok []
  | x :: l' =>
      match f x with
      | Ok y => match mapM_result f l' with
                | Ok ys => Ok (y :: ys)
                | Throw e => Throw e
                end
      | Throw e => Throw e
      end
  end.

(** [OverlapTriangulation::reinit]. *)
Definition reinit : result OverlapTriangulation :=
  match reinit_overlapping_tria (mkBuildState [] false) with
  | Throw e => Throw e
  | Ok (coarse, s) =>
      let table := bs_native_cells s in
      let cells :=
        filter (fun c => o_subdomain_id c <> artificial_subdomain_id)
               (o_active_cell_iterators coarse) in
      match mapM_result (with_native_index table) cells with
      | Throw e => Throw e
      | Ok keyed =>
          Ok (mkOverlapTriangulation native table coarse
                (snd <$> std_sort _ fst keyed))
      end
  end.

(** *** What the construction maintains *)

(** The cells of a native level that intersect the patches. *)
Definition select_intersecting (level_cells : list (cell_path * NativeCell))
  : list (cell_path * NativeCell) :=
  filter (fun pc => intersects_patches (n_vertices native pc.2) = true) level_cells.

(** A cell is resident when it intersects the patches. *)
Definition resident (c : OverlapCell) : bool := intersects_patches (o_vertices c).

(** A cell of the seed level has the vertices of its native cell; a cell
    below passed the barycenter check against its native cell. *)
Definition geometry_ok (lvl : nat) (c : OverlapCell) (nc : NativeCell) : Prop :=
  match lvl with
  | 0 => o_vertices c = n_vertices native nc
  | S _ => barycenters_agree (o_vertices c) (n_vertices native nc) = true
  end.

(** The back-reference of the cell [c] on level [lvl] of the overlap mesh is
    the native cell [nc] at [p], on level [c0 + lvl] of the native mesh. *)
Definition linked (c0 : nat) (table : list cell_path) (lvl : nat)
    (c : OverlapCell) (p : cell_path) (nc : NativeCell) : Prop :=
  get_native_cell native table c = Some (p, nc) /\
  length p = S (c0 + lvl) /\
  (n_is_active nc = true -> o_material_id c = n_material_id nc) /\
  geometry_ok lvl c nc.

(** A cell the loop over levels has not visited yet. *)
Definition fresh_cell (c0 : nat) (table : list cell_path) (lvl : nat)
    (c : OverlapCell) : Prop :=
  exists p nc, linked c0 table lvl c p nc /\
    o_children c = [] /\ o_refine_flag c = false.

(** A cell the loop over levels is done with. *)
Definition final_cell (c0 : nat) (table : list cell_path) (lvl : nat)
    (c : OverlapCell) : Prop :=
  exists p nc, linked c0 table lvl c p nc /\
    o_subdomain_id c = (if resident c then 0%N else artificial_subdomain_id) /\
    o_has_children c = resident c && n_has_children nc /\
    o_refine_flag c = false.

(** What the first loop of a level makes of a cell it has not visited. *)
Definition marked (c0 : nat) (table : list cell_path) (lvl : nat)
    (c c1 : OverlapCell) : Prop :=
  exists p nc, linked c0 table lvl c p nc /\
    c1 = if resident c then
           if n_has_children nc then set_refine_flag true (set_subdomain_id 0 c)
           else set_subdomain_id 0 c
         else set_subdomain_id artificial_subdomain_id c.

(** The native iterators the cells refer to. *)
Definition level_paths (table : list cell_path) (cells : list OverlapCell)
  : list (option cell_path) :=
  (fun c => table !! N.to_nat (o_user_index c)) <$> cells.

(** The children of a cell refer to the children of its native cell. *)
Definition children_paths_ok (table : list cell_path) (c : OverlapCell) : Prop :=
  exists p, table !! N.to_nat (o_user_index c) = Some p /\
    level_paths table (o_children c) =
      (fun i => Some (p ++ [i])) <$> seq 0 (length (o_children c)).

(** The state before the loop over levels visits level [l]. *)
Definition build_inv (c0 l : nat) (table : list cell_path)
    (coarse : list OverlapCell) : Prop :=
  (forall j, j < l -> Forall (final_cell c0 table j) (o_cell_iterators_on_level coarse j)) /\
  Forall (fresh_cell c0 table l) (o_cell_iterators_on_level coarse l) /\
  (forall j, j <= l -> NoDup (level_paths table (o_cell_iterators_on_level coarse j))).

(** *** The geometry of refined cells *)

(** deal.II refined the native mesh as it refines the overlap mesh: child
    [i] of an overlap cell that has the vertices of a refined native cell
    gets the vertices of child [i] of that native cell. *)
Definition refines_as_native : Prop :=
  forall (p : cell_path) (nc : NativeCell) (c : OverlapCell) (i : nat)
         (child : NativeCell),
    n_cell_at native p = Some nc ->
    o_vertices c = n_vertices native nc ->
    n_children nc !! i = Some child ->
    child_vertices c i = n_vertices native child.

(** The children of [c] have the vertices that
    [execute_coarsening_and_refinement] gives to the children of a cell with
    the vertices of [c]. *)
Definition children_vertices_ok (c : OverlapCell) : Prop :=
  exists parent,
    o_vertices parent = o_vertices c /\
    o_vertices <$> o_children c =
      child_vertices parent <$> seq 0 (length (o_children c)).

(** The same for [c] and all cells below it. *)
Fixpoint refined_by_library (c : OverlapCell) : Prop :=
  children_vertices_ok c /\
  foldr (fun child rest => refined_by_library child /\ rest) True (o_children c).

End Build.

(** Two cells with the same data and the same number of children: what a
    step at a deeper level leaves of a cell. *)
Definition same_cell (c c' : OverlapCell) : Prop :=
  set_children [] c = set_children [] c' /\
  length (o_children c) = length (o_children c').

(** ** The translation of degrees of freedom *)

(** [types::global_dof_index] is an unsigned 32-bit integer. *)
Definition invalid_dof_index : N := 4294967295.

(** What the program reads from a [DoFHandler]: the name of its finite
    element and, for every active cell in the order of
    [active_cell_iterators()], the vector [get_dof_indices] fills. *)
Record DoFHandler := mkDoFHandler {
  fe_name : string;
  cell_dof_indices : list (list N)
}.

(** A process of a collective call: it ends with a value or an exception, or
    takes part in a [Utilities::MPI::some_to_some] with what it sends to each
    rank and goes on with what it received from each rank. The first
    exchange moves [std::vector<unsigned int>], the second
    [std::vector<types::global_dof_index>]. *)
Inductive Collective (A : Type) : Type :=
| Return (a : A)
| Raise (e : exception)
| SomeToSomeCells (sent : gmap N (list nat))
    (k : gmap N (list nat) -> Collective A)
| SomeToSomeDoFs (sent : gmap N (list N))
    (k : gmap N (list N) -> Collective A).
Arguments Return {A} a.
Arguments Raise {A} e.
Arguments SomeToSomeCells {A} sent k.
Arguments SomeToSomeDoFs {A} sent k.

Definition of_result {A B} (r : result A) (k : A -> Collective B) : Collective B :=
  match r with
  | Ok a => k a
  | Throw e => Raise e
  end.

(** What the other processes send in the two exchanges. *)
Record Peers := mkPeers {
  cells_received : gmap N (list nat) -> gmap N (list nat);
  dofs_received : gmap N (list N) -> gmap N (list N)
}.

(** Run one process against its peers: the number of exchanges it took part
    in, and how it ended. *)
Fixpoint run_collective {A} (peers : Peers) (c : Collective A) : nat * result A :=
  match c with
  | Return a => (0, Ok a)
  | Raise e => (0, Throw e)
  | SomeToSomeCells sent k =>
      let r := run_collective peers (k (cells_received peers sent)) in (S r.1, r.2)
  | SomeToSomeDoFs sent k =>
      let r := run_collective peers (k (dofs_received peers sent)) in (S r.1, r.2)
  end.

(** [std::unique]: of every run of equal neighbours one element stays. *)
Fixpoint unique {A} `{EqDecision A} (l : list A) : list A :=
  match l with
  | [] => []
  | x :: l' =>
      match l' with
      | [] => [x]
      | y :: _ => if decide (x = y) then unique l' else x :: unique l'
      end
  end.

Section Translation.

Variable std_sort : forall A : Type, (A -> nat) -> list A -> list A.

(** *** Step 1: the native cells the overlap mesh needs *)

(** The first loop: per owner, the active cell indices of the native cells of
    the locally owned overlap cells, in the order of the cells. *)
Fixpoint native_active_cell_ids_on_overlap (overlap_tria : OverlapTriangulation)
    (cells : list OverlapCell) (ids : gmap N (list nat)) : result (gmap N (list nat)) :=
  match cells with
  | [] => Ok ids
  | cell :: rest =>
      if is_locally_owned cell then
        match get_native_cell (native_tria overlap_tria) (native_cells overlap_tria) cell with
        | Some (_, native_cell) =>
            let subdomain_id := n_subdomain_id native_cell in
            native_active_cell_ids_on_overlap overlap_tria rest
              (<[subdomain_id :=
                   default [] (ids !! subdomain_id) ++ [n_active_cell_index native_cell]]>
                 ids)
        | None => Throw ExcIndexRange
        end
      else native_active_cell_ids_on_overlap overlap_tria rest ids
  end.

(** Owner and active cell index of the native cells of the locally owned
    cells among [cells]. *)
Definition owned_native_ids (overlap_tria : OverlapTriangulation)
    (cells : list OverlapCell) : list (N * nat) :=
  omap (fun cell =>
          if is_locally_owned cell then
            (fun pn : cell_path * NativeCell =>
               (n_subdomain_id pn.2, n_active_cell_index pn.2))
              <$> get_native_cell (native_tria overlap_tria)
                    (native_cells overlap_tria) cell
          else None) cells.

(** Step 1, with the second loop that sorts every list. *)
Definition required_active_cell_indices (overlap_tria : OverlapTriangulation)
  : result (gmap N (list nat)) :=
  match native_active_cell_ids_on_overlap overlap_tria
          (o_active_cell_iterators (coarse_cells overlap_tria)) ∅ with
  | Ok ids => Ok (std_sort _ id <$> ids)
  | Throw e => Throw e
  end.

(** *** Step 3: packing the requested degrees of freedom *)

(** The active cells of the native [DoFHandler]: active cell index and DoF
    indices. *)
Definition native_dh_cells (native : NativeTriangulation) (dh : DoFHandler)
  : list (nat * list N) :=
  zip ((fun pc => n_active_cell_index pc.2) <$> n_active_cell_iterators native)
      (cell_dof_indices dh).

(** The record packed for one cell. *)
Definition packed_record (active_cell_index : nat) (cell_dofs : list N) : list N :=
  [N.of_nat active_cell_index; N.of_nat (length cell_dofs)] ++ cell_dofs ++
  [invalid_dof_index].

(** The loop over the active cells for one request. It yields what was
    pushed to [dofs_on_native[requested_rank]] and the number of cells the
    loop looked at. With no requested index left the loop has ended
    ([break]); a request that is empty from the start makes the program read
    past the end of the vector, which is modelled as a failure. *)
Fixpoint pack_cells (cells : list (nat * list N)) (requested : list nat)
  : list N * nat :=
  match cells with
  | [] => ([], 0)
  | (index, cell_dofs) :: rest =>
      match requested with
      | [] => ([], 0)
      | wanted :: requested' =>
          if decide (index = wanted) then
            let r := match requested' with
                     | [] => ([], 0)
                     | _ => pack_cells rest requested'
                     end in
            (packed_record wanted cell_dofs ++ r.1, S r.2)
          else
            let r := pack_cells rest requested in (r.1, S r.2)
      end
  end.

Definition pack_request (cells : list (nat * list N)) (requested : list nat)
  : result (list N * nat) :=
  match requested with
  | [] => Throw ExcIndexRange
  | _ => Ok (pack_cells cells requested)
  end.

(** Step 3 for all requests; a rank gets an entry once something was pushed
    for it. *)
Definition pack_requests (cells : list (nat * list N))
    (requested : gmap N (list nat)) : result (gmap N (list N)) :=
  match mapM_result
          (fun '(rank, indices) =>
             match pack_request cells indices with
             | Ok r => Ok (rank, r.1)
             | Throw e => Throw e
             end)
          (map_to_list requested) with
  | Ok entries => Ok (list_to_map (filter (fun e => e.2 <> []) entries))
  | Throw e => Throw e
  end.

(** *** Step 4: pairing overlap and native degrees of freedom *)

(** The locally owned active cells of the overlap [DoFHandler] with the
    active cell index of their native cell and their DoF indices. *)
Fixpoint owned_overlap_cells (overlap_tria : OverlapTriangulation)
    (cells : list (OverlapCell * list N)) : result (list (nat * list N)) :=
  match cells with
  | [] => Ok []
  | (cell, cell_dofs) :: rest =>
      if is_locally_owned cell then
        match get_native_cell (native_tria overlap_tria) (native_cells overlap_tria) cell with
        | Some (_, native_cell) =>
            match owned_overlap_cells overlap_tria rest with
            | Ok l => Ok ((n_active_cell_index native_cell, cell_dofs) :: l)
            | Throw e => Throw e
            end
        | None => Throw ExcIndexRange
        end
      else owned_overlap_cells overlap_tria rest
  end.

(** [overlap_dh_cells], sorted by the active cell index of the native cell. *)
Definition overlap_dh_cells (overlap_tria : OverlapTriangulation)
    (overlap_dof_handler : DoFHandler) : result (list (nat * list N)) :=
  match owned_overlap_cells overlap_tria
          (zip (o_active_cell_iterators (coarse_cells overlap_tria))
               (cell_dof_indices overlap_dof_handler)) with
  | Ok l => Ok (std_sort _ fst l)
  | Throw e => Throw e
  end.

(** [std::lower_bound] by the native active cell index: on a sorted range,
    the first cell whose index is not below [value]. *)
Definition std_lower_bound (cells : list (nat * list N)) (value : nat)
  : option (nat * list N) :=
  snd <$> list_find (fun c => value <= c.1) cells.

(** One pass of the [while] loop: read the active cell index, look the cell
    up, check that it was found, and only then read the number of DoFs, the
    DoFs and the sentinel, and pair the DoFs with those of the overlap cell.
    Reads past the end of a vector are modelled as [ExcIndexRange]. *)
Definition unpack_record (cells : list (nat * list N)) (packed : list N)
  : result (list (N * N) * list N) :=
  match packed with
  | [] => Throw ExcIndexRange
  | active_cell_index :: packed =>
      match std_lower_bound cells (N.to_nat active_cell_index) with
      | Some (index, overlap_cell_dofs) =>
          if decide (index = N.to_nat active_cell_index) then
            match packed with
            | [] => Throw ExcIndexRange
            | n_dofs :: packed' =>
                let native_cell_dofs := take (N.to_nat n_dofs) packed' in
                match drop (N.to_nat n_dofs) packed' with
                | sentinel :: packed'' =>
                    if decide (length native_cell_dofs = N.to_nat n_dofs) then
                      if decide (sentinel = invalid_dof_index) then
                        if decide (N.to_nat n_dofs <= length overlap_cell_dofs) then
                          Ok (zip overlap_cell_dofs native_cell_dofs, packed'')
                        else Throw ExcIndexRange
                      else Throw ExcInternalError
                    else Throw ExcIndexRange
                | [] => Throw ExcIndexRange
                end
            end
          else Throw ExcInternalError
      | None => Throw ExcInternalError
      end
  end.

(** The [while (packed_ptr < native_dofs.cend())] loop; every pass that
    does not throw consumes at least three entries, so [fuel] above the length
    never runs out. *)
Fixpoint unpack_records (fuel : nat) (cells : list (nat * list N)) (packed : list N)
  : option (result (list (N * N))) :=
  match packed with
  | [] => Some (Ok [])
  | _ =>
      match fuel with
      | 0 => None
      | S fuel' =>
          match unpack_record cells packed with
          | Ok (pairs, packed') =>
              match unpack_records fuel' cells packed' with
              | Some (Ok more) => Some (Ok (pairs ++ more))
              | other => other
              end
          | Throw e => Some (Throw e)
          end
      end
  end.

(** The loop over the ranks of [native_dof_indices]. *)
Fixpoint unpack_all (cells : list (nat * list N)) (received : list (N * list N))
  : option (result (list (N * N))) :=
  match received with
  | [] => Some (Ok [])
  | (_, packed) :: rest =>
      match unpack_records (length packed) cells packed with
      | Some (Ok pairs) =>
          match unpack_all cells rest with
          | Some (Ok more) => Some (Ok (pairs ++ more))
          | other => other
          end
      | other => other
      end
  end.

(** The end of step 4: sort the pairs by the overlap DoF, drop repeated
    pairs, keep the native DoFs. *)
Definition collapse_overlap_to_native (overlap_to_native : list (N * N)) : list N :=
  snd <$> unique (std_sort _ (fun a => N.to_nat a.1) overlap_to_native).

(** [compute_overlap_to_native_dof_translation] on one process. The two
    leading assertions compare addresses of triangulations, which the
    arguments here satisfy by construction. *)
Definition compute_overlap_to_native_dof_translation
    (overlap_tria : OverlapTriangulation)
    (overlap_dof_handler native_dof_handler : DoFHandler)
  : Collective (list N) :=
  of_result (required_active_cell_indices overlap_tria) (fun ids_on_overlap =>
  SomeToSomeCells ids_on_overlap (fun requested_native_active_cell_indices =>
  if negb (String.eqb (fe_name native_dof_handler) (fe_name overlap_dof_handler)) then
    Raise (ExcMessage "dof handlers should use the same FiniteElement")
  else
  of_result (pack_requests
               (native_dh_cells (native_tria overlap_tria) native_dof_handler)
               requested_native_active_cell_indices) (fun dofs_on_native =>
  SomeToSomeDoFs dofs_on_native (fun native_dof_indices =>
  of_result (overlap_dh_cells overlap_tria overlap_dof_handler) (fun cells =>
  match unpack_all cells (map_to_list native_dof_indices) with
  | Some (Ok overlap_to_native) => Return (collapse_overlap_to_native overlap_to_native)
  | Some (Throw e) => Raise e
  | None => Raise ExcInternalError
  end))))).

End Translation.

(** The overlap DoF [o] and the native DoF [n] have the same local number on
    a locally owned active cell of the overlap mesh and on its native cell:
    the pairs which the translation is to record. *)
Definition same_local_dof (overlap_tria : OverlapTriangulation)
    (overlap_dof_handler native_dof_handler : DoFHandler) (o n : N) : Prop :=
  exists i c od p nc k,
    o_active_cell_iterators (coarse_cells overlap_tria) !! i = Some c /\
    is_locally_owned c = true /\
    cell_dof_indices overlap_dof_handler !! i = Some od /\
    get_native_cell (native_tria overlap_tria) (native_cells overlap_tria) c
      = Some (p, nc) /\
    od !! k = Some o /\
    (cell_dof_indices native_dof_handler !!! n_active_cell_index nc) !! k = Some n.

(** The overlap DoF [o] is a DoF of a locally owned active cell of the
    overlap mesh: a locally relevant overlap DoF. *)
Definition locally_relevant_dof (overlap_tria : OverlapTriangulation)
    (overlap_dof_handler : DoFHandler) (o : N) : Prop :=
  exists i c od,
    o_active_cell_iterators (coarse_cells overlap_tria) !! i = Some c /\
    is_locally_owned c = true /\
    cell_dof_indices overlap_dof_handler !! i = Some od /\
    o ∈ od.

(** ** Scatter *)

(** Modelled from the spec: the class [fdl::Scatter<T>] (fiddle/scatter.h and
    its source file are not part of the sources read here; only the calls in
    [main] are). A scatter is built from the array that gives the native DoF
    of every overlap DoF. The value type is [double], the one instantiation
    in the sources ([fdl::Scatter<double>], with vectors of [double]). *)
Record Scatter := mkScatter {
  overlap_dofs : list nat
}.

(** [a + b] and [a * b] on doubles, rounded to nearest. *)
Definition dadd (a b : double) : double := SFadd 53 1024 a b.
Definition dmul (a b : double) : double := SFmul 53 1024 a b.

(** Modelled from the spec: the two ways the finish step of a transfer may
    combine an arriving value with the entry it goes to, overwrite and
    accumulate. *)
Inductive VectorOperation := VectorOperation_insert | VectorOperation_add.

(** Modelled from the spec: what an arriving value makes of an entry. *)
Definition combine_entry (operation : VectorOperation) (old new : double) : double :=
  match operation with
  | VectorOperation_insert => new
  | VectorOperation_add => dadd old new
  end.

(** Modelled from the spec: the native to overlap transfer. [start] reads the
    native entries the index map names into a staging area; [finish] unpacks
    the staging area into the overlap buffer, overwriting it. An index
    outside the native vector is an error. *)
Definition global_to_overlap_start (scatter : Scatter) (native_vector : list double)
  : result (list double) :=
  mapM_result (fun n => match native_vector !! n with
                        | Some x => Ok x
                        | None => Throw ExcIndexRange
                        end)
    (overlap_dofs scatter).

(** Modelled from the spec: [finish] of the native to overlap transfer. *)
Definition global_to_overlap_finish (staging overlap_buffer : list double)
  : list double :=
  staging ++ drop (length staging) overlap_buffer.

(** Modelled from the spec: [start] and [finish] of the native to overlap
    transfer, one after the other. *)
Definition global_to_overlap (scatter : Scatter)
    (native_vector overlap_buffer : list double) : result (list double) :=
  match global_to_overlap_start scatter native_vector with
  | Ok staging => Ok (global_to_overlap_finish staging overlap_buffer)
  | Throw e => Throw e
  end.

(** Modelled from the spec: the overlap to native transfer of one process:
    every overlap entry goes to the native entry the index map names, and is
    combined with what is there. *)
Definition overlap_to_global (operation : VectorOperation) (scatter : Scatter)
    (overlap_buffer native_vector : list double) : list double :=
  foldl (fun acc '(n, x) => alter (fun old => combine_entry operation old x) n acc)
    native_vector (zip (overlap_dofs scatter) overlap_buffer).

(** Modelled from the spec: the transfer as a collective operation: the
    overlap entries of all processes arrive in the native vector. *)
Definition overlap_to_global_all (operation : VectorOperation)
    (parts : list (Scatter * list double)) (native_vector : list double)
  : list double :=
  foldl (fun acc '(scatter, overlap_buffer) =>
           overlap_to_global operation scatter overlap_buffer acc)
    native_vector parts.

(** The number of overlap entries that go to the native DoF [n]. *)
Definition contributors (n : nat) (parts : list (Scatter * list double)) : nat :=
  sum_list ((fun part : Scatter * list double =>
               length (filter (fun m => m = n) (overlap_dofs part.1))) <$> parts).

(** What the spec states of accumulation, with the sum and the product
    taken in double arithmetic: [k] contributors holding [x] leave the prior
    value plus [k] times [x]. *)
Definition accumulates_to_k_times_x : Prop :=
  forall (parts : list (Scatter * list double)) (w : list double) (n : nat)
         (x prior : double),
    Forall (fun part : Scatter * list double =>
              length part.2 = length (overlap_dofs part.1)) parts ->
    (forall part i, part ∈ parts ->
       overlap_dofs part.1 !! i = Some n -> part.2 !! i = Some x) ->
    w !! n = Some prior ->
    overlap_to_global_all VectorOperation_add parts w !! n =
    Some (dadd prior (dmul (dbl (Z.of_nat (contributors n parts)) 0) x)).

(** ** Transactions *)

(** [Transaction::State] and [Transaction::Operation]. *)
Inductive State := Start | Intermediate | Finish | Done.
Inductive Operation := Interpolation | Spreading.

#[global] Instance State_eq_dec : EqDecision State.
Proof. solve_decision. Defined.
#[global] Instance Operation_eq_dec : EqDecision Operation.
Proof. solve_decision. Defined.

(** The two members of [Transaction] that are used for consistency checking;
    the buffers and handles it also holds are left out. *)
Record Transaction := mkTransaction {
  next_state : State;
  operation : Operation
}.

(** Modelled from the spec: the check at the start of every phase after the
    first (the member functions of [InteractionBase] are declared in the
    sources read here, their definitions are not part of them): a transaction
    of another operation, or one whose next state is not the phase called, is
    a violated precondition. *)
Definition check_transaction (expected_operation : Operation) (expected_state : State)
    (transaction : Transaction) : result unit :=
  if decide (operation transaction = expected_operation) then
    if decide (next_state transaction = expected_state) then Ok tt
    else Throw (ExcMessage "Transaction state should match the phase")
  else Throw (ExcMessage "Transaction operation should match the call").

(** Modelled from the spec: a phase that passes the check moves the
    transaction to its next state; the operation stays. *)
Definition advance (expected_operation : Operation) (expected_state next : State)
    (transaction : Transaction) : result Transaction :=
  match check_transaction expected_operation expected_state transaction with
  | Ok _ => Ok (mkTransaction next (operation transaction))
  | Throw e => Throw e
  end.

(** Modelled from the spec: the three phases of interpolation, reduced to
    what they do to the state of the transaction. [start] creates the
    transaction; [finish] retires it. *)
Definition compute_projection_rhs_start : Transaction :=
  mkTransaction Intermediate Interpolation.

(** Modelled from the spec: the intermediate phase of interpolation. *)
Definition compute_projection_rhs_intermediate : Transaction -> result Transaction :=
  advance Interpolation Intermediate Finish.

(** Modelled from the spec: the finish phase of interpolation. *)
Definition compute_projection_rhs_finish : Transaction -> result Transaction :=
  advance Interpolation Finish Done.

(** Modelled from the spec: the three phases of spreading, in the same way. *)
Definition compute_spread_start : Transaction :=
  mkTransaction Intermediate Spreading.

(** Modelled from the spec: the intermediate phase of spreading. *)
Definition compute_spread_intermediate : Transaction -> result Transaction :=
  advance Spreading Intermediate Finish.

(** Modelled from the spec: the finish phase of spreading. *)
Definition compute_spread_finish : Transaction -> result Transaction :=
  advance Spreading Finish Done.

(** ** A concrete mesh *)

Module Example.

(** Vertices on a grid of spacing 1/4: vertex [x + 16 y] lies at
    [(x/4, y/4)]. *)
Definition vertex_table (i : nat) : Point :=
  point2 (dbl (Z.of_nat (i mod 16)) (-2)) (dbl (Z.of_nat (i / 16)) (-2)).

Definition quad_vertex_indices (x0 y0 x1 y1 : nat) : list nat :=
  [x0 + 16 * y0; x1 + 16 * y0; x0 + 16 * y1; x1 + 16 * y1].

Definition native_quad (x0 y0 x1 y1 : nat) (material subdomain : N)
    (active_index : nat) (children : list NativeCell) : NativeCell :=
  mkNativeCell (quad_vertex_indices x0 y0 x1 y1) material flat_manifold_id
    subdomain active_index true [] children.

Definition dmin (a b : double) : double := if dleb a b then a else b.
Definition dmax (a b : double) : double := if dleb a b then b else a.

(** The bounding box of a list of vertices. *)
Definition bounding_box (vs : list Point) : BoundingBox :=
  match vs with
  | [] => mkBoundingBox (fun _ => S754_zero false) (fun _ => S754_zero false)
  | v :: rest =>
      mkBoundingBox (fun d => foldr (fun p acc => dmin (p d) acc) (v d) rest)
                    (fun d => foldr (fun p acc => dmax (p d) acc) (v d) rest)
  end.

Definition dhalf (a b : double) : double :=
  SFmul 53 1024 (SFadd 53 1024 a b) (dbl 1 (-1)).

(** Child [i] of an axis-parallel rectangle: the quadrant with x-half
    [i mod 2] and y-half [i / 2]. *)
Definition child_vertices (parent : OverlapCell) (i : nat) : list Point :=
  let b := bounding_box (o_vertices parent) in
  let x0 := lower_bound b 0 in let x1 := upper_bound b 0 in
  let y0 := lower_bound b 1 in let y1 := upper_bound b 1 in
  let xm := dhalf x0 x1 in let ym := dhalf y0 y1 in
  let xa := if decide (i mod 2 = 0) then x0 else xm in
  let xb := if decide (i mod 2 = 0) then xm else x1 in
  let ya := if decide (i / 2 = 0) then y0 else ym in
  let yb := if decide (i / 2 = 0) then ym else y1 in
  [point2 xa ya; point2 xb ya; point2 xa yb; point2 xb yb].

(** Barycenters computed as the centre of the bounding box; they agree when
    they differ by at most [2^-40] on each axis. *)
Definition barycenters_agree (a b : list Point) : bool :=
  let ba := bounding_box a in let bb := bounding_box b in
  forallb (fun d =>
    let ca := dhalf (lower_bound ba d) (upper_bound ba d) in
    let cb := dhalf (lower_bound bb d) (upper_bound bb d) in
    dleb (SFabs (SFsub 53 1024 ca cb)) (dbl 1 (-40))) [0; 1].

Definition key_le {A : Type} (key : A -> nat) (a b : A) : Prop := key a <= key b.

#[local] Instance key_le_dec {A : Type} (key : A -> nat) (a b : A) :
  Decision (key_le key a b) := decide (key a <= key b).

Definition std_sort (A : Type) (key : A -> nat) (l : list A) : list A :=
  merge_sort (key_le key) l.

(** Two coarse cells. The left one is active. The right one is refined;
    of its children the second and the fourth are refined again. *)
Definition cell_A : NativeCell := native_quad 0 0 4 4 7 0 0 [].
Definition cell_B1 : NativeCell :=
  native_quad 6 0 8 2 8 1 0
    [native_quad 6 0 7 1 8 1 3 []; native_quad 7 0 8 1 8 1 4 [];
     native_quad 6 1 7 2 8 1 5 []; native_quad 7 1 8 2 8 1 6 []].
Definition cell_B3 : NativeCell :=
  native_quad 6 2 8 4 9 1 0
    [native_quad 6 2 7 3 9 1 7 []; native_quad 7 2 8 3 9 1 8 [];
     native_quad 6 3 7 4 9 1 9 []; native_quad 7 3 8 4 9 1 10 []].
Definition cell_B : NativeCell :=
  native_quad 4 0 8 4 8 0 0
    [native_quad 4 0 6 2 8 0 1 []; cell_B1; native_quad 4 2 6 4 8 1 2 []; cell_B3].

Definition native : NativeTriangulation :=
  mkNativeTriangulation vertex_table [cell_A; cell_B].

(** One patch inside the left coarse cell, one in the far corner of the
    right one. *)
Definition patches : list BoundingBox := [box2 1 1 2 2; box2 7 3 8 4].

Definition built : result OverlapTriangulation :=
  reinit 2 2 bounding_box barycenters_agree 4 child_vertices std_sort native patches.

(** The mesh [reinit] builds. *)
Definition built_tria : OverlapTriangulation :=
  match built with
  | Ok t => t
  | Throw _ => mkOverlapTriangulation native [] [] []
  end.

(** A mesh of one cell, the unit square, whose four faces carry the
    boundary ids 1 to 4. *)
Definition faced_cell : NativeCell :=
  mkNativeCell (quad_vertex_indices 0 0 4 4) 7 flat_manifold_id 0 0 true
    [mkNativeFace [0; 64] flat_manifold_id 1 [];
     mkNativeFace [4; 68] flat_manifold_id 2 [];
     mkNativeFace [0; 4] flat_manifold_id 3 [];
     mkNativeFace [64; 68] flat_manifold_id 4 []]
    [].

Definition faced_native : NativeTriangulation :=
  mkNativeTriangulation vertex_table [faced_cell].

(** Two unit squares side by side, with their faces: the face between them
    has the internal boundary id, the faces around them the boundary id 0. *)
Definition left_square : NativeCell :=
  mkNativeCell (quad_vertex_indices 0 0 4 4) 7 flat_manifold_id 0 0 true
    [mkNativeFace [0; 64] flat_manifold_id 0 [];
     mkNativeFace [4; 68] flat_manifold_id internal_face_boundary_id [];
     mkNativeFace [0; 4] flat_manifold_id 0 [];
     mkNativeFace [64; 68] flat_manifold_id 0 []]
    [].

Definition right_square : NativeCell :=
  mkNativeCell (quad_vertex_indices 4 0 8 4) 7 flat_manifold_id 1 1 true
    [mkNativeFace [4; 68] flat_manifold_id internal_face_boundary_id [];
     mkNativeFace [8; 72] flat_manifold_id 0 [];
     mkNativeFace [4; 8] flat_manifold_id 0 [];
     mkNativeFace [68; 72] flat_manifold_id 0 []]
    [].

Definition two_squares : NativeTriangulation :=
  mkNativeTriangulation vertex_table [left_square; right_square].

(** A patch inside the left square, and the mesh [reinit] builds for it. *)
Definition inner_patch : list BoundingBox := [box2 1 1 2 2].

Definition left_tria : OverlapTriangulation :=
  match reinit 2 2 bounding_box barycenters_agree 4 child_vertices std_sort
          two_squares inner_patch with
  | Ok t => t
  | Throw _ => mkOverlapTriangulation two_squares [] [] []
  end.

(** The native [DoFHandler] with a [Q1] element: one DoF per vertex, numbered
    as the vertices are. *)
Definition native_dof_handler : DoFHandler :=
  mkDoFHandler "FE_Q<2>(1)"
    ((fun pc : cell_path * NativeCell => N.of_nat <$> n_vertex_indices pc.2)
       <$> n_active_cell_iterators native).

(** The overlap [DoFHandler] with the same element. The mesh [built_tria]
    has eight active cells; the first and the last four are locally owned,
    and their thirteen vertices carry the DoFs. The DoFs of the other cells
    are never read. *)
Definition overlap_dof_handler : DoFHandler :=
  mkDoFHandler "FE_Q<2>(1)"
    [[0; 1; 2; 3]; []; []; [];
     [4; 5; 6; 7]; [5; 8; 7; 9]; [6; 7; 10; 11]; [7; 9; 11; 12]]%N.

(** The same DoFs with an element of another name. *)
Definition overlap_dof_handler_q2 : DoFHandler :=
  mkDoFHandler "FE_Q<2>(2)" (cell_dof_indices overlap_dof_handler).

(** Peers in the situation of this process: every rank asks it for the cells
    it asks that rank for, and answers as it does. *)
Definition mirror_peers : Peers := mkPeers id id.

End Example.


(** * Properties *)

(** ** Order on doubles *)

Ltac split_compare :=
  repeat match goal with
  | |- context [ (?a ?= ?b)%Z ] => destruct (Z.compare_spec a b); subst
  | H : context [ (?a ?= ?b)%Z ] |- _ => destruct (Z.compare_spec a b); subst
  | |- context [ Pos.compare_cont Eq ?a ?b ] =>
      change (Pos.compare_cont Eq a b) with (Pos.compare a b);
      destruct (Pos.compare_spec a b); subst
  | H : context [ Pos.compare_cont Eq ?a ?b ] |- _ =>
      change (Pos.compare_cont Eq a b) with (Pos.compare a b) in H;
      destruct (Pos.compare_spec a b); subst
  end.

Ltac dleb_cases :=
  unfold dleb, SFleb, SFcompare;
  repeat match goal with x : double |- _ => destruct x as [[]|[]| |[] ? ?] end;
  simpl; intros; try discriminate; try reflexivity; auto;
  split_compare; simpl in *; try discriminate; try reflexivity; auto; try lia.

(** Away from NaN, [<=] is a total preorder. A double is not NaN exactly when
    it compares [<=] to itself. *)
Lemma dleb_total (x y : double) :
  dleb x x = true -> dleb y y = true -> dleb x y = true \/ dleb y x = true.
Proof. dleb_cases. Qed.

Lemma dleb_trans (x y z : double) :
  dleb x y = true -> dleb y z = true -> dleb x z = true.
Proof. dleb_cases. Qed.

Lemma dleb_refl_l (x y : double) : dleb x y = true -> dleb x x = true.
Proof. dleb_cases. Qed.

Lemma dleb_refl_r (x y : double) : dleb x y = true -> dleb y y = true.
Proof. dleb_cases. Qed.

(** *** Properties of [intersects] *)

Lemma intersects_from_spec n d a b :
  intersects_from n d a b = true <->
  forall k, d <= k < d + n -> axis_separated a b k = false.
Proof.
  revert d. induction n as [|n IH]; intros d; simpl.
  - split; [intros _ k Hk; lia | reflexivity].
  - destruct (axis_separated a b d) eqn:Hd.
    + split; [discriminate|]. intros H. rewrite H in Hd by lia. discriminate.
    + rewrite IH. split; intros H k Hk.
      * destruct (decide (k = d)) as [->|]; [assumption | apply H; lia].
      * apply H. lia.
Qed.

Lemma axis_separated_false a b d :
  dleb (lower_bound a d) (upper_bound a d) = true ->
  dleb (lower_bound b d) (upper_bound b d) = true ->
  axis_separated a b d = false <-> axis_overlap a b d.
Proof.
  unfold axis_separated, axis_overlap. intros Ha Hb.
  set (al := lower_bound a d) in *. set (au := upper_bound a d) in *.
  set (bl := lower_bound b d) in *. set (bu := upper_bound b d) in *.
  split.
  - intros H.
    assert ((dleb al bl = true /\ dleb bl au = true) \/
            (dleb al bu = true /\ dleb bu au = true) \/
            (dleb bl al = true /\ dleb al bu = true)) as Hcases.
    { destruct (dleb al bl), (dleb bl au), (dleb al bu), (dleb bu au),
        (dleb bl al); simpl in H; try discriminate; auto. }
    destruct Hcases as [[H1 H2]|[[H1 H2]|[H1 H2]]]; split;
      first [assumption | eapply dleb_trans; eassumption].
  - intros [H1 H2]. rewrite H1, H2.
    destruct (dleb_total al bl) as [E|E]; eauto using dleb_refl_l.
    + rewrite E. reflexivity.
    + rewrite E. simpl. rewrite andb_false_r. reflexivity.
Qed.

Lemma intersects_iff_overlap spacedim a b :
  well_formed_box spacedim a -> well_formed_box spacedim b ->
  intersects spacedim a b = true <-> forall d, d < spacedim -> axis_overlap a b d.
Proof.
  intros Ha Hb. unfold intersects. rewrite intersects_from_spec.
  split; intros H d Hd.
  - apply axis_separated_false; [apply Ha|apply Hb|apply H]; lia.
  - apply axis_separated_false; [apply Ha|apply Hb|apply H]; lia.
Qed.

Lemma axis_overlap_sym a b d : axis_overlap a b d -> axis_overlap b a d.
Proof. unfold axis_overlap. tauto. Qed.

(** C3: on boxes whose lower corner is below the upper corner, [intersects]
    holds exactly when the closed intervals overlap on every axis,
    [a.lo(d) <= b.hi(d)] and [b.lo(d) <= a.hi(d)]; hence a box intersects
    itself, the predicate is symmetric, and two boxes that touch on one axis
    (and overlap on the others) intersect. *)
Theorem intersects_closed_interval_overlap (spacedim : nat) (a b : BoundingBox) :
  well_formed_box spacedim a ->
  well_formed_box spacedim b ->
  (intersects spacedim a b = true <->
     forall d, d < spacedim ->
       dleb (lower_bound a d) (upper_bound b d) = true /\
       dleb (lower_bound b d) (upper_bound a d) = true) /\
  intersects spacedim a a = true /\
  intersects spacedim a b = intersects spacedim b a /\
  (forall d0, d0 < spacedim ->
     upper_bound a d0 = lower_bound b d0 ->
     (forall d, d < spacedim -> d <> d0 -> axis_overlap a b d) ->
     intersects spacedim a b = true).
Proof.
  intros Ha Hb. split; [|split; [|split]].
  - apply intersects_iff_overlap; assumption.
  - apply intersects_iff_overlap; auto. intros d Hd. split; auto.
  - apply eq_true_iff_eq. rewrite !intersects_iff_overlap by assumption.
    split; intros H d Hd; apply axis_overlap_sym; auto.
  - intros d0 Hd0 Htouch Hrest. apply intersects_iff_overlap; auto.
    intros d Hd. destruct (decide (d = d0)) as [->|Hne]; [|auto].
    pose proof (Ha d0 Hd0) as Ha0. pose proof (Hb d0 Hd0) as Hb0. split.
    + rewrite Htouch in Ha0. eapply dleb_trans; eassumption.
    + rewrite <- Htouch. eapply dleb_refl_r. eassumption.
Qed.

Lemma well_formed_box2 (x0 y0 x1 y1 : Z) :
  dleb (dbl x0 (-2)) (dbl x1 (-2)) = true ->
  dleb (dbl y0 (-2)) (dbl y1 (-2)) = true ->
  well_formed_box 2 (box2 x0 y0 x1 y1).
Proof. intros Hx Hy d Hd. destruct d as [|[|d]]; [assumption|assumption|lia]. Qed.

(** The unit square and the square to its right touch along [x = 1]. *)
Lemma intersects_closed_interval_overlap_witness :
  intersects 2 (box2 0 0 4 4) (box2 4 0 8 4) = true /\
  intersects 2 (box2 0 0 4 4) (box2 4 0 8 4) =
  intersects 2 (box2 4 0 8 4) (box2 0 0 4 4).
Proof.
  pose proof (intersects_closed_interval_overlap 2 (box2 0 0 4 4) (box2 4 0 8 4)) as H.
  destruct H as (_ & _ & Hsym & Htouch).
  - apply well_formed_box2; vm_compute; reflexivity.
  - apply well_formed_box2; vm_compute; reflexivity.
  - split; [|exact Hsym].
    apply (Htouch 0); [lia|reflexivity|].
    intros d Hd Hne. destruct d as [|[|d]]; [congruence| |lia].
    split; vm_compute; reflexivity.
Defined.


(** ** The state-and-exception monad *)

Lemma bindM_Ok {S A B} (m : M S A) (k : A -> M S B) s b s' :
  bindM m k s = Ok (b, s') <-> exists a s1, m s = Ok (a, s1) /\ k a s1 = Ok (b, s').
Proof.
  unfold bindM. destruct (m s) as [[a s1]|e].
  - split; [eauto|]. intros (a' & s1' & [= <- <-] & H). exact H.
  - split; [discriminate|]. intros (a' & s1' & [=] & _).
Qed.

Lemma retM_Ok {S A} (a b : A) (s s' : S) : retM a s = Ok (b, s') <-> a = b /\ s = s'.
Proof. unfold retM. split; [intros [= -> ->]|intros [-> ->]]; auto. Qed.

Lemma Assert_Ok {S} (cond : bool) exc (s s' : S) u :
  Assert cond exc s = Ok (u, s') <-> cond = true /\ s = s'.
Proof.
  unfold Assert, retM, throwM. destruct cond, u.
  - split; [intros [= ->]|intros [_ ->]]; auto.
  - split; [discriminate|intros [[=] _]].
Qed.

Lemma of_option_Ok {S A} (o : option A) exc (s s' : S) a :
  of_option o exc s = Ok (a, s') <-> o = Some a /\ s = s'.
Proof.
  unfold of_option, retM, throwM. destruct o.
  - split; [intros [= -> ->]|intros [[= ->] ->]]; auto.
  - split; [discriminate|intros [[=] _]].
Qed.

Lemma getM_Ok {S} (s s' r : S) : getM s = Ok (r, s') <-> r = s /\ s' = s.
Proof. unfold getM. split; [intros [= -> ->]|intros [-> ->]]; auto. Qed.

Lemma set_refined_Ok b s u s' :
  set_refined b s = Ok (u, s') <-> s' = mkBuildState (bs_native_cells s) b.
Proof. unfold set_refined. destruct u. split; [intros [= <-]|intros ->]; auto. Qed.

Lemma add_native_cell_Ok p s slot s' :
  add_native_cell p s = Ok (slot, s') <->
  slot = N.of_nat (length (bs_native_cells s)) /\
  s' = mkBuildState (bs_native_cells s ++ [p]) (bs_refined s).
Proof. unfold add_native_cell. split; [intros [= <- <-]|intros [-> ->]]; auto. Qed.

Lemma get_native_cellM_Ok native c s r s' :
  get_native_cellM native c s = Ok (r, s') <->
  get_native_cell native (bs_native_cells s) c = Some r /\ s' = s.
Proof.
  unfold get_native_cellM. rewrite bindM_Ok. split.
  - intros (s0 & s1 & H0 & H). apply getM_Ok in H0 as [-> ->].
    apply of_option_Ok in H as [H ->]. auto.
  - intros [H ->]. exists s, s. split; [reflexivity|]. apply of_option_Ok. auto.
Qed.

(** Taking a successful computation apart. *)
Ltac inv_M :=
  repeat match goal with
  | H : bindM _ _ _ = Ok _ |- _ => apply bindM_Ok in H as (? & ? & ? & ?)
  | H : retM _ _ = Ok _ |- _ => apply retM_Ok in H as [? ?]
  | H : Assert _ _ _ = Ok _ |- _ => apply Assert_Ok in H as [? ?]
  | H : of_option _ _ _ = Ok _ |- _ => apply of_option_Ok in H as [? ?]
  | H : getM _ = Ok _ |- _ => apply getM_Ok in H as [? ?]
  | H : set_refined _ _ = Ok _ |- _ => apply set_refined_Ok in H
  | H : add_native_cell _ _ = Ok _ |- _ => apply add_native_cell_Ok in H as [? ?]
  | H : get_native_cellM _ _ _ = Ok _ |- _ => apply get_native_cellM_Ok in H as [? ?]
  end.

Lemma mapM_st_ret {S A B} (g : A -> B) (l : list A) (s : S) :
  mapM_st (fun x => retM (g x)) l s = Ok (g <$> l, s).
Proof.
  induction l as [|x l IH]; simpl; [reflexivity|].
  unfold bindM at 1. simpl. unfold bindM. rewrite IH. reflexivity.
Qed.

Lemma mapM_st_cons_Ok {S A B} (f : A -> M S B) x l (s : S) r s' :
  mapM_st f (x :: l) s = Ok (r, s') <->
  exists y s1 ys, f x s = Ok (y, s1) /\ mapM_st f l s1 = Ok (ys, s') /\ r = y :: ys.
Proof.
  simpl. rewrite bindM_Ok. split.
  - intros (y & s1 & Hy & H). apply bindM_Ok in H as (ys & s2 & Hys & H).
    apply retM_Ok in H as [<- <-]. eauto 10.
  - intros (y & s1 & ys & Hy & Hys & ->). exists y, s1. split; [assumption|].
    apply bindM_Ok. exists ys, s'. split; [assumption|reflexivity].
Qed.

Lemma mapM_st_nil_Ok {S A B} (f : A -> M S B) (s : S) r s' :
  mapM_st f [] s = Ok (r, s') <-> r = [] /\ s' = s.
Proof. simpl. rewrite retM_Ok. intuition congruence. Qed.

Lemma mapM_st_app_Ok {S A B} (f : A -> M S B) l1 l2 (s : S) r s' :
  mapM_st f (l1 ++ l2) s = Ok (r, s') <->
  exists r1 s1 r2,
    mapM_st f l1 s = Ok (r1, s1) /\ mapM_st f l2 s1 = Ok (r2, s') /\ r = r1 ++ r2.
Proof.
  revert s r. induction l1 as [|x l1 IH]; intros s r.
  - rewrite app_nil_l. split.
    + intros H. exists [], s, r. rewrite mapM_st_nil_Ok. auto.
    + intros (r1 & s1 & r2 & H1 & H2 & ->). apply mapM_st_nil_Ok in H1 as [-> ->].
      exact H2.
  - rewrite <- app_comm_cons, mapM_st_cons_Ok. split.
    + intros (y & s1 & ys & Hy & Hys & ->). apply IH in Hys as (r1 & s2 & r2 & H1 & H2 & ->).
      exists (y :: r1), s2, r2. rewrite mapM_st_cons_Ok. eauto 10.
    + intros (r1 & s1 & r2 & H1 & H2 & ->).
      apply mapM_st_cons_Ok in H1 as (y & s2 & ys & Hy & Hys & ->).
      exists y, s2, (ys ++ r2). split; [assumption|]. split; [|reflexivity].
      apply IH. eauto 10.
Qed.

Lemma mapM_st_length {S A B} (f : A -> M S B) l (s : S) r s' :
  mapM_st f l s = Ok (r, s') -> length r = length l.
Proof.
  revert s r. induction l as [|x l IH]; intros s r.
  - rewrite mapM_st_nil_Ok. intros [-> _]. reflexivity.
  - rewrite mapM_st_cons_Ok. intros (y & s1 & ys & _ & Hys & ->). simpl.
    f_equal. eauto.
Qed.

(** Running [g] over [xs] and then reading the lists [h'] of the results is
    running [f] over the lists [h] of the inputs. *)
Lemma mapM_st_bind {S X Y A B} (g : X -> M S Y) (f : A -> M S B)
    (h : X -> list A) (h' : Y -> list B) :
  (forall x s y s', g x s = Ok (y, s') -> mapM_st f (h x) s = Ok (h' y, s')) ->
  forall xs s ys s', mapM_st g xs s = Ok (ys, s') ->
    mapM_st f (xs ≫= h) s = Ok (ys ≫= h', s').
Proof.
  intros Hg. induction xs as [|x xs IH]; intros s ys s'.
  - rewrite mapM_st_nil_Ok. intros [-> ->]. reflexivity.
  - rewrite mapM_st_cons_Ok. intros (y & s1 & ys' & Hy & Hys & ->).
    rewrite !bind_cons. apply mapM_st_app_Ok. eauto 10.
Qed.

Lemma mapM_st_Forall2 {S X Y} (g : X -> M S Y) xs (s : S) ys s' :
  mapM_st g xs s = Ok (ys, s') ->
  Forall2 (fun x y => exists s1 s2, g x s1 = Ok (y, s2)) xs ys.
Proof.
  revert s ys. induction xs as [|x xs IH]; intros s ys.
  - rewrite mapM_st_nil_Ok. intros [-> _]. constructor.
  - rewrite mapM_st_cons_Ok. intros (y & s1 & ys' & Hy & Hys & ->).
    constructor; eauto.
Qed.

(** ** Levels of the overlap mesh *)

Lemma o_cells_below_add j k c :
  o_cells_below (j + k) c = o_cells_below j c ≫= o_cells_below k.
Proof.
  revert c. induction j as [|j IH]; intros c; simpl.
  - rewrite app_nil_r. reflexivity.
  - induction (o_children c) as [|ch chs IHc]; [reflexivity|].
    rewrite !bind_cons, bind_app, IH, IHc. reflexivity.
Qed.

Lemma o_cell_iterators_on_level_add coarse j k :
  o_cell_iterators_on_level coarse (j + k) =
  o_cell_iterators_on_level coarse j ≫= o_cells_below k.
Proof.
  unfold o_cell_iterators_on_level.
  induction coarse as [|c cs IH]; [reflexivity|].
  rewrite !bind_cons, bind_app, o_cells_below_add, IH. reflexivity.
Qed.

Lemma o_cell_iterators_on_level_S coarse l :
  o_cell_iterators_on_level coarse (S l) =
  o_cell_iterators_on_level coarse l ≫= o_children.
Proof.
  replace (S l) with (l + 1) by lia. rewrite o_cell_iterators_on_level_add.
  apply list_bind_ext; [|reflexivity]. intros c. simpl.
  induction (o_children c) as [|ch chs IHc]; [reflexivity|].
  rewrite bind_cons, IHc. reflexivity.
Qed.

(** What [on_level] does on its level: it runs [f] over the cells of the
    level, in order. *)
Lemma on_level_below_cells {S} (f : OverlapCell -> M S OverlapCell) l c s c' s' :
  on_level_below l f c s = Ok (c', s') ->
  mapM_st f (o_cells_below l c) s = Ok (o_cells_below l c', s').
Proof.
  revert c s c' s'.
  induction l as [|l IH]; intros c s c' s'; cbn [o_cells_below on_level_below].
  - intros H. apply mapM_st_cons_Ok. exists c', s', []. auto.
  - rewrite bindM_Ok. intros (cs & s1 & Hcs & H). apply retM_Ok in H as [<- <-].
    cbn [o_children set_children]. eapply mapM_st_bind; [|exact Hcs]. exact IH.
Qed.

Lemma on_level_cells {S} (f : OverlapCell -> M S OverlapCell) l coarse s coarse' s' :
  on_level l f coarse s = Ok (coarse', s') ->
  mapM_st f (o_cell_iterators_on_level coarse l) s =
  Ok (o_cell_iterators_on_level coarse' l, s').
Proof.
  unfold on_level, o_cell_iterators_on_level.
  apply mapM_st_bind. intros x s0 y s0'. apply on_level_below_cells.
Qed.

Lemma Forall2_bind_mapM {S X Y A B} (g : X -> M S Y) (R : A -> B -> Prop)
    (h : X -> list A) (h' : Y -> list B) :
  (forall x s y s', g x s = Ok (y, s') -> Forall2 R (h x) (h' y)) ->
  forall xs s ys s', mapM_st g xs s = Ok (ys, s') ->
    Forall2 R (xs ≫= h) (ys ≫= h').
Proof.
  intros Hg. induction xs as [|x xs IH]; intros s ys s'.
  - rewrite mapM_st_nil_Ok. intros [-> ->]. constructor.
  - rewrite mapM_st_cons_Ok. intros (y & s1 & ys' & Hy & Hys & ->).
    rewrite !bind_cons. apply Forall2_app; eauto.
Qed.

Lemma on_level_below_above {S} (f : OverlapCell -> M S OverlapCell) l j c s c' s' :
  j < l ->
  on_level_below l f c s = Ok (c', s') ->
  Forall2 same_cell (o_cells_below j c) (o_cells_below j c').
Proof.
  revert j c s c' s'. induction l as [|l IH]; intros j c s c' s' Hj; [lia|].
  simpl. rewrite bindM_Ok. intros (cs & s1 & Hcs & H). apply retM_Ok in H as [<- <-].
  destruct j as [|j]; simpl.
  - constructor; [|constructor]. split; [reflexivity|]. simpl.
    symmetry. eapply mapM_st_length. exact Hcs.
  - eapply Forall2_bind_mapM; [|exact Hcs]. intros x s0 y s0'. apply IH. lia.
Qed.

Lemma on_level_above {S} (f : OverlapCell -> M S OverlapCell) l j coarse s coarse' s' :
  j < l ->
  on_level l f coarse s = Ok (coarse', s') ->
  Forall2 same_cell (o_cell_iterators_on_level coarse j)
                    (o_cell_iterators_on_level coarse' j).
Proof.
  intros Hj. unfold on_level, o_cell_iterators_on_level.
  apply Forall2_bind_mapM. intros x s0 y s0'. apply on_level_below_above. exact Hj.
Qed.

Lemma Forall2_fmap_eq {A B C} (g : A -> C) (h : B -> C) (l : list A) (k : list B) :
  Forall2 (fun x y => h y = g x) l k -> h <$> k = g <$> l.
Proof.
  induction 1 as [|x y l k Hxy _ IH]; [reflexivity|].
  rewrite !fmap_cons, Hxy, IH. reflexivity.
Qed.

(** ** The native mesh *)

Lemma n_depth_unfold c : n_depth c = S (max_list (n_depth <$> n_children c)).
Proof. destruct c; reflexivity. Qed.

Lemma n_descend_depth c p nc : n_descend c p = Some nc -> length p < n_depth c.
Proof.
  revert c. induction p as [|i p IH]; intros c; rewrite n_depth_unfold; simpl.
  - intros _. lia.
  - destruct (n_children c !! i) as [ch|] eqn:Hi; simpl; [|discriminate].
    intros H. apply IH in H.
    assert (n_depth ch <= max_list (n_depth <$> n_children c)).
    { apply max_list_elem_of_le, list_elem_of_fmap_2.
      eapply list_elem_of_lookup_2. exact Hi. }
    lia.
Qed.

(** An iterator that can be dereferenced lies on one of the levels. *)
Lemma n_cell_at_level t p nc : n_cell_at t p = Some nc -> 0 < length p <= n_levels t.
Proof.
  destruct p as [|i p]; simpl; [discriminate|].
  destruct (n_coarse_cells t !! i) as [c|] eqn:Hi; simpl; [|discriminate].
  intros H. apply n_descend_depth in H.
  assert (n_depth c <= n_levels t).
  { apply max_list_elem_of_le, list_elem_of_fmap_2.
    eapply list_elem_of_lookup_2. exact Hi. }
  lia.
Qed.

Lemma n_descend_app c p q :
  n_descend c (p ++ q) = n_descend c p ≫= fun c' => n_descend c' q.
Proof.
  revert c. induction p as [|i p IH]; intros c; simpl; [reflexivity|].
  destruct (n_children c !! i) as [ch|]; simpl; [apply IH|reflexivity].
Qed.

(** [cell->child(i)]. *)
Lemma n_cell_at_child t p i nc ch :
  n_cell_at t p = Some nc -> n_children nc !! i = Some ch ->
  n_cell_at t (p ++ [i]) = Some ch.
Proof.
  destruct p as [|j p]; simpl; [discriminate|].
  destruct (n_coarse_cells t !! j) as [c|]; simpl; [|discriminate].
  intros Hp Hi. rewrite n_descend_app, Hp. simpl. rewrite Hi. reflexivity.
Qed.

Lemma elem_of_n_cells_below l p c q nc :
  (q, nc) ∈ n_cells_below l p c <->
  exists suffix, q = p ++ suffix /\ length suffix = l /\ n_descend c suffix = Some nc.
Proof.
  revert p c. induction l as [|l IH]; intros p c; cbn [n_cells_below].
  - rewrite list_elem_of_singleton. split.
    + intros [= -> ->]. exists []. rewrite app_nil_r. auto.
    + intros (suffix & -> & Hlen & H). destruct suffix; [|discriminate].
      simpl in H. injection H as ->. rewrite app_nil_r. reflexivity.
  - rewrite list_elem_of_join. split.
    + intros (piece & Hin & Hpiece). apply elem_of_lookup_imap in Hpiece
        as (i & ch & -> & Hi). apply IH in Hin as (suffix & -> & Hlen & H).
      exists (i :: suffix). rewrite <- app_assoc. simpl. rewrite Hi. simpl.
      auto with lia.
    + intros (suffix & -> & Hlen & H). destruct suffix as [|i suffix]; [discriminate|].
      simpl in H. destruct (n_children c !! i) as [ch|] eqn:Hi; [|discriminate].
      exists (n_cells_below l (p ++ [i]) ch). split.
      * apply IH. exists suffix. rewrite <- app_assoc. simpl in *. auto with lia.
      * apply (elem_of_lookup_imap_2 (fun i ch => n_cells_below l (p ++ [i]) ch)).
        exact Hi.
Qed.

Lemma elem_of_n_cell_iterators_on_level t l q nc :
  (q, nc) ∈ n_cell_iterators_on_level t l <->
  n_cell_at t q = Some nc /\ length q = S l.
Proof.
  unfold n_cell_iterators_on_level. rewrite list_elem_of_join. split.
  - intros (piece & Hin & Hpiece). apply elem_of_lookup_imap in Hpiece
      as (i & c & -> & Hi). apply elem_of_n_cells_below in Hin
      as (suffix & -> & Hlen & H). simpl. rewrite Hi. simpl. auto with lia.
  - intros [H Hlen]. destruct q as [|i suffix]; [discriminate|].
    simpl in H. destruct (n_coarse_cells t !! i) as [c|] eqn:Hi; [|discriminate].
    exists (n_cells_below l [i] c). split.
    + apply elem_of_n_cells_below. exists suffix. simpl in *. auto with lia.
    + apply (elem_of_lookup_imap_2 (fun i c => n_cells_below l [i] c)). exact Hi.
Qed.

(** Pieces whose elements tell the number of their piece do not overlap. *)
Lemma NoDup_join_imap_from {A B} (f : nat -> A -> list B) (key : B -> option nat)
    (off : nat) l :
  (forall i x, l !! i = Some x -> NoDup (f i x)) ->
  (forall i x y, l !! i = Some x -> y ∈ f i x -> key y = Some (off + i)) ->
  NoDup (mjoin (imap f l)).
Proof.
  revert f off. induction l as [|x l IH]; intros f off Hnd Hkey; [constructor|].
  rewrite imap_cons. simpl. apply NoDup_app. split; [|split].
  - apply (Hnd 0). reflexivity.
  - intros y Hy Hy'. apply list_elem_of_join in Hy' as (piece & Hin & Hpiece).
    apply elem_of_lookup_imap in Hpiece as (i & x' & -> & Hi).
    pose proof (Hkey 0 x y eq_refl Hy) as H0.
    pose proof (Hkey (S i) x' y Hi Hin) as H1.
    rewrite H0 in H1. injection H1. lia.
  - apply (IH _ (S off)).
    + intros i x' Hi. apply (Hnd (S i)). exact Hi.
    + intros i x' y Hi Hy. rewrite (Hkey (S i) x' y Hi Hy). f_equal. lia.
Qed.

Lemma NoDup_join_imap {A B} (f : nat -> A -> list B) (key : B -> option nat) l :
  (forall i x, l !! i = Some x -> NoDup (f i x)) ->
  (forall i x y, l !! i = Some x -> y ∈ f i x -> key y = Some i) ->
  NoDup (mjoin (imap f l)).
Proof. intros Hnd Hkey. apply (NoDup_join_imap_from f key 0); assumption. Qed.

Lemma NoDup_n_cells_below l p c : NoDup (n_cells_below l p c).
Proof.
  revert p c. induction l as [|l IH]; intros p c; cbn [n_cells_below].
  - apply NoDup_singleton.
  - apply (NoDup_join_imap _ (fun y => y.1 !! length p)).
    + intros i ch _. apply IH.
    + intros i ch [q nc] _ Hin. apply elem_of_n_cells_below in Hin
        as (suffix & -> & _ & _). simpl. rewrite <- app_assoc.
      apply list_lookup_middle. reflexivity.
Qed.

Lemma NoDup_n_cell_iterators_on_level t l : NoDup (n_cell_iterators_on_level t l).
Proof.
  unfold n_cell_iterators_on_level.
  apply (NoDup_join_imap _ (fun y => y.1 !! 0)).
  - intros i c _. apply NoDup_n_cells_below.
  - intros i c [q nc] _ Hin. apply elem_of_n_cells_below in Hin
      as (suffix & -> & _ & _). reflexivity.
Qed.

(** On a level, an iterator determines its cell. *)
Lemma NoDup_n_cell_iterators_on_level_fst t l :
  NoDup (n_cell_iterators_on_level t l).*1.
Proof.
  apply NoDup_fmap_2_strong; [|apply NoDup_n_cell_iterators_on_level].
  intros [p nc] [p' nc'] H H' Heq. simpl in Heq. subst p'.
  apply elem_of_n_cell_iterators_on_level in H as [H _].
  apply elem_of_n_cell_iterators_on_level in H' as [H' _]. congruence.
Qed.

(** ** The construction of the overlap mesh *)

Section BuildProperties.

Variable dim spacedim : nat.
Variable bounding_box : list Point -> BoundingBox.
Variable barycenters_agree : list Point -> list Point -> bool.
Variable n_children_isotropic : nat.
Variable child_vertices : OverlapCell -> nat -> list Point.
Variable std_sort : forall A : Type, (A -> nat) -> list A -> list A.
Variable native : NativeTriangulation.
Variable patch_bboxes : list BoundingBox.

(** Isotropic refinement creates at least one child. *)
Hypothesis n_children_isotropic_pos : 0 < n_children_isotropic.
(** [std::sort] sorts. *)
Hypothesis std_sort_sorts : sorts_by_key std_sort.

Local Abbreviation resident := (resident spacedim bounding_box patch_bboxes).
Local Abbreviation intersects_patches :=
  (intersects_patches spacedim bounding_box patch_bboxes).
Local Abbreviation linked := (linked barycenters_agree native).
Local Abbreviation fresh_cell := (fresh_cell barycenters_agree native).
Local Abbreviation final_cell :=
  (final_cell spacedim bounding_box barycenters_agree native patch_bboxes).
Local Abbreviation marked :=
  (marked spacedim bounding_box barycenters_agree native patch_bboxes).
Local Abbreviation build_inv :=
  (build_inv spacedim bounding_box barycenters_agree native patch_bboxes).
Local Abbreviation mark_cell := (mark_cell spacedim bounding_box native patch_bboxes).
Local Abbreviation refine_flagged := (refine_flagged n_children_isotropic child_vertices).
Local Abbreviation pair_child := (pair_child barycenters_agree native).
Local Abbreviation pair_children_from := (pair_children_from barycenters_agree native).
Local Abbreviation pair_children := (pair_children barycenters_agree native).
Local Abbreviation level_step :=
  (level_step spacedim bounding_box barycenters_agree n_children_isotropic
     child_vertices native patch_bboxes).
Local Abbreviation for_levels :=
  (for_levels spacedim bounding_box barycenters_agree n_children_isotropic
     child_vertices native patch_bboxes).
Local Abbreviation reinit_overlapping_tria :=
  (reinit_overlapping_tria dim spacedim bounding_box barycenters_agree
     n_children_isotropic child_vertices native patch_bboxes).
Local Abbreviation reinit :=
  (reinit dim spacedim bounding_box barycenters_agree n_children_isotropic
     child_vertices std_sort native patch_bboxes).
Local Abbreviation select_intersecting :=
  (select_intersecting spacedim bounding_box native patch_bboxes).
Local Abbreviation collect_seed_cells :=
  (collect_seed_cells dim spacedim bounding_box native patch_bboxes).
Local Abbreviation resolve_seed_cell := (resolve_seed_cell native).
Local Abbreviation find_coarsest_level :=
  (find_coarsest_level spacedim bounding_box native patch_bboxes).
Local Abbreviation level_has_intersecting_active_cell :=
  (level_has_intersecting_active_cell spacedim bounding_box native patch_bboxes).
Local Abbreviation with_native_index := (with_native_index native).
Local Abbreviation geometry_ok := (geometry_ok barycenters_agree native).
Local Abbreviation cells := o_cell_iterators_on_level.

(** *** The table only grows *)

Lemma get_native_cell_app table extra c r :
  get_native_cell native table c = Some r ->
  get_native_cell native (table ++ extra) c = Some r.
Proof.
  unfold get_native_cell.
  destruct (table !! N.to_nat (o_user_index c)) as [p|] eqn:Hp; [|discriminate].
  rewrite (lookup_app_l_Some _ _ _ _ Hp). auto.
Qed.

Lemma linked_app c0 table extra lvl c p nc :
  linked c0 table lvl c p nc -> linked c0 (table ++ extra) lvl c p nc.
Proof.
  intros (Hget & Hrest). split; [|exact Hrest].
  apply get_native_cell_app. exact Hget.
Qed.

Lemma fresh_cell_app c0 table extra lvl c :
  fresh_cell c0 table lvl c -> fresh_cell c0 (table ++ extra) lvl c.
Proof. intros (p & nc & H & Hrest). exists p, nc. eauto using linked_app. Qed.

Lemma final_cell_app c0 table extra lvl c :
  final_cell c0 table lvl c -> final_cell c0 (table ++ extra) lvl c.
Proof. intros (p & nc & H & Hrest). exists p, nc. eauto using linked_app. Qed.

Lemma linked_lookup c0 table lvl c p nc :
  linked c0 table lvl c p nc ->
  table !! N.to_nat (o_user_index c) = Some p /\ n_cell_at native p = Some nc.
Proof.
  intros (Hget & _). unfold get_native_cell in Hget.
  destruct (table !! N.to_nat (o_user_index c)) as [p'|]; [|discriminate].
  simpl in Hget. destruct (n_cell_at native p') as [nc'|] eqn:Hnc; [|discriminate].
  injection Hget as -> ->. auto.
Qed.

Lemma get_native_cell_at (table : list cell_path) c p nc :
  get_native_cell native table c = Some (p, nc) -> n_cell_at native p = Some nc.
Proof using Type.
  clear n_children_isotropic_pos std_sort_sorts.
  unfold get_native_cell.
  destruct (table !! _) as [p'|]; [|discriminate]. cbn.
  destruct (n_cell_at native p') as [nc'|] eqn:Hat; [|discriminate]. cbn.
  intros [= <- <-]. exact Hat.
Qed.

Lemma level_paths_app table extra cs :
  Forall (fun c => is_Some (table !! N.to_nat (o_user_index c))) cs ->
  level_paths (table ++ extra) cs = level_paths table cs.
Proof.
  unfold level_paths. intros H. apply Forall_fmap_ext_1.
  eapply Forall_impl; [exact H|]. intros c [p Hp]. simpl.
  rewrite (lookup_app_l_Some _ _ _ _ Hp). auto.
Qed.

Lemma fresh_cell_lookup c0 table lvl c :
  fresh_cell c0 table lvl c -> is_Some (table !! N.to_nat (o_user_index c)).
Proof. intros (p & nc & H & _). apply linked_lookup in H as [H _]. eauto. Qed.

Lemma final_cell_lookup c0 table lvl c :
  final_cell c0 table lvl c -> is_Some (table !! N.to_nat (o_user_index c)).
Proof. intros (p & nc & H & _). apply linked_lookup in H as [H _]. eauto. Qed.

Lemma linked_intro c0 table lvl c p nc :
  table !! N.to_nat (o_user_index c) = Some p ->
  n_cell_at native p = Some nc ->
  length p = S (c0 + lvl) ->
  (n_is_active nc = true -> o_material_id c = n_material_id nc) ->
  geometry_ok lvl c nc ->
  linked c0 table lvl c p nc.
Proof.
  intros Hp Hnc Hlen Hmat Hgeo. unfold linked, get_native_cell.
  rewrite Hp. simpl. rewrite Hnc. simpl. auto.
Qed.

Lemma fresh_cell_intro c0 table lvl c p nc :
  table !! N.to_nat (o_user_index c) = Some p ->
  n_cell_at native p = Some nc ->
  length p = S (c0 + lvl) ->
  (n_is_active nc = true -> o_material_id c = n_material_id nc) ->
  geometry_ok lvl c nc ->
  o_children c = [] -> o_refine_flag c = false ->
  fresh_cell c0 table lvl c.
Proof. intros. exists p, nc. eauto using linked_intro. Qed.

(** *** Cells above the level being visited *)

Lemma same_cell_fields c c' :
  same_cell c c' ->
  o_vertices c = o_vertices c' /\ o_material_id c = o_material_id c' /\
  o_manifold_id c = o_manifold_id c' /\ o_subdomain_id c = o_subdomain_id c' /\
  o_user_index c = o_user_index c' /\ o_refine_flag c = o_refine_flag c' /\
  o_has_children c = o_has_children c'.
Proof.
  intros [Heq Hlen]. destruct c, c'. simpl in *. injection Heq as -> -> -> -> -> ->.
  repeat split. unfold o_has_children. simpl.
  destruct o_children0, o_children1; simpl in Hlen; congruence.
Qed.

Lemma final_cell_same c0 table lvl c c' :
  same_cell c c' -> final_cell c0 table lvl c -> final_cell c0 table lvl c'.
Proof.
  intros Hs (p & nc & (Hget & Hlen & Hmat & Hgeo) & Hsub & Hch & Hflag).
  apply same_cell_fields in Hs as (Hv & Hm & _ & Hsd & Hu & Hf & Hc).
  exists p, nc. unfold linked, get_native_cell, geometry_ok, resident in *.
  rewrite <- Hv, <- Hm, <- Hsd, <- Hu, <- Hf, <- Hc. auto.
Qed.

Lemma level_paths_same table cs cs' :
  Forall2 same_cell cs cs' -> level_paths table cs = level_paths table cs'.
Proof.
  unfold level_paths. induction 1 as [|c c' cs cs' Hs _ IH]; [reflexivity|].
  rewrite !fmap_cons. apply same_cell_fields in Hs as (_ & _ & _ & _ & Hu & _).
  rewrite Hu. f_equal. exact IH.
Qed.

(** *** The first loop of a level *)

Lemma mark_cell_spec c0 table l c s c1 s1 :
  fresh_cell c0 table l c ->
  bs_native_cells s = table ->
  mark_cell c s = Ok (c1, s1) ->
  marked c0 table l c c1 /\
  bs_native_cells s1 = table /\
  bs_refined s1 = bs_refined s || o_refine_flag c1.
Proof.
  intros (p & nc & Hlink & Hch & Hflag) Htable H.
  pose proof Hlink as (Hget & _).
  unfold mark_cell, marked, resident in *.
  destruct (intersects_patches (o_vertices c)) eqn:Hres.
  - apply bindM_Ok in H as (r & s0 & Hr & H).
    apply get_native_cellM_Ok in Hr as [Hr ->]. rewrite Htable, Hget in Hr.
    injection Hr as <-. simpl in H.
    destruct (n_has_children nc) eqn:Hnc.
    + inv_M. subst. simpl. split; [|split].
      * exists p, nc. rewrite Hnc. auto.
      * reflexivity.
      * rewrite orb_true_r. reflexivity.
    + inv_M. subst. simpl. split; [|split].
      * exists p, nc. rewrite Hnc. auto.
      * reflexivity.
      * rewrite Hflag, orb_false_r. reflexivity.
  - inv_M. subst. simpl. split; [|split].
    + exists p, nc. auto.
    + reflexivity.
    + rewrite Hflag, orb_false_r. reflexivity.
Qed.

Lemma mark_cells_spec c0 table l cs s cs1 s1 :
  Forall (fresh_cell c0 table l) cs ->
  bs_native_cells s = table ->
  mapM_st mark_cell cs s = Ok (cs1, s1) ->
  Forall2 (marked c0 table l) cs cs1 /\
  bs_native_cells s1 = table /\
  bs_refined s1 = bs_refined s || existsb o_refine_flag cs1.
Proof.
  intros Hfresh. revert s cs1. induction Hfresh as [|c cs Hc _ IH]; intros s cs1 Htable.
  - rewrite mapM_st_nil_Ok. intros [-> ->]. simpl. rewrite orb_false_r. auto.
  - rewrite mapM_st_cons_Ok. intros (c1 & s0 & cs1' & Hc1 & Hcs1 & ->).
    destruct (mark_cell_spec _ _ _ _ _ _ _ Hc Htable Hc1) as (Hm & Ht0 & Hr0).
    destruct (IH _ _ Ht0 Hcs1) as (Hms & Ht1 & Hr1).
    split; [constructor; assumption|]. split; [assumption|].
    simpl. rewrite Hr1, Hr0, orb_assoc. reflexivity.
Qed.

(** A marked cell that was not flagged is done. *)
Lemma marked_unflagged_final c0 table l c c1 :
  fresh_cell c0 table l c ->
  marked c0 table l c c1 ->
  o_refine_flag c1 = false ->
  final_cell c0 table l c1 /\ o_children c1 = [] /\
  o_user_index c1 = o_user_index c.
Proof.
  intros (p' & nc' & Hlink' & Hch & Hflag) (p & nc & Hlink & ->) Hunflagged.
  unfold resident in *.
  destruct (intersects_patches (o_vertices c)) eqn:Hres;
    [destruct (n_has_children nc) eqn:Hnc; [discriminate|]|];
    (split; [|split; [assumption|reflexivity]]); exists p, nc;
    unfold linked, get_native_cell, geometry_ok, resident, o_has_children in *;
    simpl; rewrite Hres, Hch, ?Hnc; auto.
Qed.

(** *** The second loop of a level *)

Lemma pair_child_spec c0 l p nc k ch s ch' s' :
  n_cell_at native p = Some nc ->
  length p = S (c0 + l) ->
  o_children ch = [] -> o_refine_flag ch = false ->
  pair_child (p, nc) k ch s = Ok (ch', s') ->
  bs_native_cells s' = bs_native_cells s ++ [p ++ [k]] /\
  bs_refined s' = bs_refined s /\
  bs_native_cells s' !! N.to_nat (o_user_index ch') = Some (p ++ [k]) /\
  fresh_cell c0 (bs_native_cells s') (S l) ch'.
Proof.
  intros Hp Hlen Hch Hflag H. unfold pair_child in H. simpl in H. inv_M. subst.
  simpl.
  match goal with H : n_children nc !! k = Some ?x |- _ => rename x into nch end.
  match goal with |- context [bs_native_cells ?s ++ _] =>
    set (T := bs_native_cells s) end.
  assert ((T ++ [p ++ [k]]) !! length T = Some (p ++ [k])) as Hslot
    by (apply list_lookup_middle; reflexivity).
  assert (n_cell_at native (p ++ [k]) = Some nch) as Hnch
    by (eapply n_cell_at_child; eassumption).
  split; [reflexivity|]. split; [reflexivity|].
  assert (forall c : OverlapCell,
            o_user_index c = N.of_nat (length T) ->
            (T ++ [p ++ [k]]) !! N.to_nat (o_user_index c) = Some (p ++ [k])) as Hidx.
  { intros c ->. rewrite Nat2N.id. exact Hslot. }
  destruct (n_is_active nch) eqn:Hact;
    (split; [apply Hidx; reflexivity|]);
    apply (fresh_cell_intro _ _ _ _ (p ++ [k]) nch);
    try (apply Hidx; reflexivity); try assumption; try reflexivity;
    try (rewrite length_app; simpl; lia); try (rewrite Hact; discriminate).
Qed.

Lemma pair_children_from_spec c0 l p nc chs k s cs s' :
  n_cell_at native p = Some nc ->
  length p = S (c0 + l) ->
  Forall (fun ch => o_children ch = [] /\ o_refine_flag ch = false) chs ->
  pair_children_from (p, nc) k chs s = Ok (cs, s') ->
  bs_native_cells s' =
    bs_native_cells s ++ ((fun i => p ++ [i]) <$> seq k (length chs)) /\
  bs_refined s' = bs_refined s /\
  length cs = length chs /\
  level_paths (bs_native_cells s') cs =
    (fun i => Some (p ++ [i])) <$> seq k (length chs) /\
  Forall (fresh_cell c0 (bs_native_cells s') (S l)) cs.
Proof.
  intros Hp Hlen Hchs. revert k s cs.
  induction Hchs as [|ch chs [Hch Hflag] _ IH]; intros k s cs H; simpl in H.
  - inv_M. subst. simpl. rewrite app_nil_r. repeat split; constructor.
  - inv_M. subst. rename x into ch', x0 into s1, x1 into cs', H into Hch', H0 into Hcs'.
    destruct (pair_child_spec _ _ _ _ _ _ _ _ _ Hp Hlen Hch Hflag Hch')
      as (Ht1 & Hr1 & Hslot & Hfresh).
    destruct (IH _ _ _ Hcs') as (Ht & Hr & Hl & Hpaths & Hfr).
    rewrite Ht1, <- app_assoc in Ht. simpl in Ht.
    split; [exact Ht|]. split; [congruence|]. split; [simpl; congruence|].
    assert (bs_native_cells s' !! N.to_nat (o_user_index ch') = Some (p ++ [k])) as Hslot'.
    { rewrite Ht. rewrite Ht1 in Hslot.
      replace (bs_native_cells s ++ (p ++ [k]) :: ((fun i => p ++ [i]) <$> seq (S k) (length chs)))
        with ((bs_native_cells s ++ [p ++ [k]]) ++ ((fun i => p ++ [i]) <$> seq (S k) (length chs)))
        by (rewrite <- app_assoc; reflexivity).
      apply lookup_app_l_Some. exact Hslot. }
    split.
    + unfold level_paths in *. cbn [length seq]. rewrite !fmap_cons.
      f_equal; [exact Hslot'|exact Hpaths].
    + constructor; [|exact Hfr].
      rewrite Ht.
      replace (bs_native_cells s ++ (p ++ [k]) :: ((fun i => p ++ [i]) <$> seq (S k) (length chs)))
        with (bs_native_cells s1 ++ ((fun i => p ++ [i]) <$> seq (S k) (length chs)))
        by (rewrite Ht1, <- app_assoc; reflexivity).
      apply fresh_cell_app. exact Hfresh.
Qed.

Lemma pair_children_spec c0 table extra l c c1 s c3 s3 :
  fresh_cell c0 table l c ->
  marked c0 table l c c1 ->
  bs_native_cells s = table ++ extra ->
  pair_children (refine_flagged c1) s = Ok (c3, s3) ->
  exists p,
    table !! N.to_nat (o_user_index c) = Some p /\
    o_user_index c3 = o_user_index c /\
    bs_native_cells s3 =
      bs_native_cells s ++ ((fun i => p ++ [i]) <$> seq 0 (length (o_children c3))) /\
    bs_refined s3 = bs_refined s /\
    final_cell c0 (bs_native_cells s3) l c3 /\
    Forall (fresh_cell c0 (bs_native_cells s3) (S l)) (o_children c3) /\
    level_paths (bs_native_cells s3) (o_children c3) =
      (fun i => Some (p ++ [i])) <$> seq 0 (length (o_children c3)).
Proof.
  intros Hfresh Hmarked Htable H.
  pose proof Hfresh as (p' & nc' & Hlink' & Hch & Hflag).
  pose proof Hmarked as (p & nc & Hlink & Hc1).
  destruct (linked_lookup _ _ _ _ _ _ Hlink) as [Hp Hnc].
  exists p. split; [exact Hp|].
  destruct (o_refine_flag c1) eqn:Hflag1.
  - (* the cell was flagged and has been refined *)
    assert (resident c = true /\ n_has_children nc = true) as [Hres Hhas].
    { unfold resident in *. rewrite Hc1 in Hflag1.
      destruct (intersects_patches (o_vertices c)), (n_has_children nc);
        simpl in Hflag1; auto; congruence. }
    rewrite Hres, Hhas in Hc1.
    unfold pair_children, refine_flagged in H. rewrite Hflag1 in H.
    match type of H with context [o_has_children ?c2] =>
      assert (o_has_children c2 = true) as Hhas2 end.
    { unfold o_has_children. simpl.
      destruct (seq 0 n_children_isotropic) as [|i0 rest] eqn:Hseq; [|reflexivity].
      apply (f_equal length) in Hseq. rewrite length_seq in Hseq. simpl in Hseq. lia. }
    rewrite Hhas2 in H. inv_M. subst.
    match goal with H : get_native_cell _ _ _ = Some _ |- _ => rename H into Hget end.
    match goal with H : pair_children_from _ _ _ _ = Ok _ |- _ => rename H into Hpair end.
    destruct Hlink as (Hget' & Hlen & Hmat & Hgeo).
    unfold get_native_cell in Hget. simpl in Hget.
    rewrite Htable, (lookup_app_l_Some _ _ _ _ Hp) in Hget. simpl in Hget.
    rewrite Hnc in Hget. simpl in Hget. injection Hget as <-.
    eapply pair_children_from_spec in Hpair as (Ht & Hr & Hl & Hpaths & Hfr);
      [|exact Hnc|exact Hlen|].
    2:{ apply Forall_fmap, Forall_forall. intros i _. simpl. auto. }
    simpl in Hl, Ht, Hpaths. rewrite length_fmap, length_seq in Hl, Ht, Hpaths.
    simpl. rewrite Hl. split; [reflexivity|]. split; [exact Ht|].
    split; [exact Hr|]. split; [|split; [exact Hfr|exact Hpaths]].
    exists p, nc. split.
    + rewrite Ht, Htable, <- app_assoc.
      apply linked_intro; simpl; auto. apply lookup_app_l_Some. exact Hp.
    + unfold resident, o_has_children in *. simpl. rewrite Hres, Hhas.
      destruct x1; [simpl in Hl; lia|]. auto.
  - (* the cell was not flagged *)
    destruct (marked_unflagged_final _ _ _ _ _ Hfresh Hmarked Hflag1)
      as (Hfinal & Hch1 & Hidx).
    unfold pair_children, refine_flagged, o_has_children in H.
    rewrite Hflag1, Hch1 in H. inv_M. subst c3 s3.
    rewrite Hch1. simpl. rewrite app_nil_r.
    split; [exact Hidx|]. split; [reflexivity|]. split; [reflexivity|].
    split; [|split; [constructor|reflexivity]].
    rewrite Htable. apply final_cell_app. exact Hfinal.
Qed.

Lemma children_paths_ok_app c0 table extra l c :
  Forall (fresh_cell c0 table l) (o_children c) ->
  children_paths_ok table c -> children_paths_ok (table ++ extra) c.
Proof.
  intros Hfr (p & Hp & Hpaths). exists p. split.
  - apply lookup_app_l_Some. exact Hp.
  - rewrite level_paths_app; [exact Hpaths|].
    eapply Forall_impl; [exact Hfr|]. intros ch. apply fresh_cell_lookup.
Qed.

Lemma pair_cells_spec c0 table l cs cs1 :
  Forall2 (marked c0 table l) cs cs1 ->
  Forall (fresh_cell c0 table l) cs ->
  forall extra s cs3 s3,
    bs_native_cells s = table ++ extra ->
    mapM_st pair_children (refine_flagged <$> cs1) s = Ok (cs3, s3) ->
    exists ext,
      bs_native_cells s3 = bs_native_cells s ++ ext /\
      bs_refined s3 = bs_refined s /\
      Forall (final_cell c0 (bs_native_cells s3) l) cs3 /\
      Forall (fresh_cell c0 (bs_native_cells s3) (S l)) (cs3 ≫= o_children) /\
      level_paths (bs_native_cells s3) cs3 = level_paths table cs /\
      Forall (children_paths_ok (bs_native_cells s3)) cs3.
Proof.
  induction 1 as [|c c1 cs cs1 Hm _ IH]; intros Hfresh extra s cs3 s3 Htable.
  - rewrite fmap_nil, mapM_st_nil_Ok. intros [-> ->]. exists [].
    rewrite app_nil_r. repeat split; constructor.
  - rewrite fmap_cons, mapM_st_cons_Ok. intros (c3 & s1 & cs3' & Hc3 & Hcs3 & ->).
    apply Forall_cons in Hfresh as [Hc Hcs].
    destruct (pair_children_spec _ _ _ _ _ _ _ _ _ Hc Hm Htable Hc3)
      as (p & Hp & Hidx & Ht1 & Hr1 & Hfin & Hfr & Hpaths).
    assert (bs_native_cells s1 = table ++ (extra ++
              ((fun i => p ++ [i]) <$> seq 0 (length (o_children c3))))) as Htable1
      by (rewrite Ht1, Htable, app_assoc; reflexivity).
    destruct (IH Hcs _ _ _ _ Htable1 Hcs3)
      as (ext & Ht & Hr & Hfins & Hfrs & Hps & Hoks).
    exists (((fun i => p ++ [i]) <$> seq 0 (length (o_children c3))) ++ ext).
    split; [rewrite Ht, Ht1, app_assoc; reflexivity|].
    split; [congruence|]. rewrite Ht.
    split; [constructor; [apply final_cell_app; exact Hfin|rewrite <- Ht; exact Hfins]|].
    split.
    { rewrite bind_cons. apply Forall_app. split.
      - eapply Forall_impl; [exact Hfr|]. intros ch. apply fresh_cell_app.
      - rewrite <- Ht. exact Hfrs. }
    split.
    { unfold level_paths in *. rewrite !fmap_cons. f_equal.
      - rewrite Hidx, Ht1, Htable, <- !app_assoc.
        rewrite (lookup_app_l_Some _ _ _ _ Hp). exact (eq_sym Hp).
      - rewrite <- Ht. exact Hps. }
    constructor; [|rewrite <- Ht; exact Hoks].
    eapply children_paths_ok_app; [exact Hfr|].
    exists p. split; [|exact Hpaths].
    rewrite Hidx, Ht1, Htable, <- app_assoc. apply lookup_app_l_Some. exact Hp.
Qed.

Lemma level_paths_cons table (c : OverlapCell) cs :
  level_paths table (c :: cs) =
  table !! N.to_nat (o_user_index c) :: level_paths table cs.
Proof. reflexivity. Qed.

Lemma level_paths_bind_cons table (c : OverlapCell) cs :
  level_paths table ((c :: cs) ≫= o_children) =
  level_paths table (o_children c) ++ level_paths table (cs ≫= o_children).
Proof. unfold level_paths. rewrite bind_cons, fmap_app. reflexivity. Qed.

Lemma elem_of_children_paths table cs x :
  Forall (children_paths_ok table) cs ->
  x ∈ level_paths table (cs ≫= o_children) ->
  exists p i, x = Some (p ++ [i]) /\ Some p ∈ level_paths table cs.
Proof.
  induction 1 as [|c cs (p & Hp & Hpaths) _ IH].
  - simpl. intros Hx. apply elem_of_nil in Hx. contradiction.
  - rewrite level_paths_bind_cons, elem_of_app. intros [Hx|Hx].
    + rewrite Hpaths in Hx. apply list_elem_of_fmap in Hx as (i & -> & _).
      exists p, i. split; [reflexivity|]. rewrite level_paths_cons, Hp.
      apply elem_of_cons. auto.
    + destruct (IH Hx) as (p' & i & -> & Hin). exists p', i. split; [reflexivity|].
      rewrite level_paths_cons. apply elem_of_cons. auto.
Qed.

(** The iterators of the new children are distinct. *)
Lemma NoDup_children_paths table cs :
  Forall (children_paths_ok table) cs ->
  NoDup (level_paths table cs) ->
  NoDup (level_paths table (cs ≫= o_children)).
Proof.
  induction 1 as [|c cs Hc Hcs IH]; intros Hnd; [constructor|].
  pose proof Hc as (p & Hp & Hpaths).
  rewrite level_paths_cons, Hp in Hnd.
  apply NoDup_cons in Hnd as [Hnotin Hnd].
  rewrite level_paths_bind_cons. apply NoDup_app. split; [|split].
  - rewrite Hpaths. apply NoDup_fmap_2_strong; [|apply NoDup_seq].
    intros i j _ _ Heq. injection Heq as Heq. apply app_inv_head in Heq.
    congruence.
  - intros x Hx Hx'. rewrite Hpaths in Hx.
    apply list_elem_of_fmap in Hx as (i & -> & _).
    apply elem_of_children_paths in Hx' as (p' & j & Heq & Hin); [|exact Hcs].
    injection Heq as Heq. apply app_inj_tail in Heq as [<- _].
    apply Hnotin. exact Hin.
  - apply IH. exact Hnd.
Qed.

Lemma Forall2_Forall_transfer {A B} (R : A -> B -> Prop) (P : A -> Prop)
    (Q : B -> Prop) l l' :
  (forall x y, R x y -> P x -> Q y) -> Forall2 R l l' -> Forall P l -> Forall Q l'.
Proof.
  intros HR. induction 1 as [|x y l l' Hxy _ IH]; intros HP; [constructor|].
  apply Forall_cons in HP as [Hx Hl]. constructor; eauto.
Qed.

Lemma same_cell_trans c1 c2 c3 : same_cell c1 c2 -> same_cell c2 c3 -> same_cell c1 c3.
Proof. unfold same_cell. intros [-> ->] [-> ->]. auto. Qed.

Lemma same_cell_refl c : same_cell c c.
Proof. split; reflexivity. Qed.

Lemma Forall2_same_cell_trans l1 l2 l3 :
  Forall2 same_cell l1 l2 -> Forall2 same_cell l2 l3 -> Forall2 same_cell l1 l3.
Proof.
  intros H. revert l3. induction H as [|x y l l' Hxy _ IH]; intros l3 H3.
  - inversion H3. constructor.
  - inversion H3 as [|? z ? l3' Hyz Hl']; subst. constructor.
    + eapply same_cell_trans; eassumption.
    + apply IH. assumption.
Qed.

Lemma bind_children_nil (cs : list OverlapCell) :
  Forall (fun c => o_children c = []) cs -> cs ≫= o_children = [].
Proof.
  induction 1 as [|c cs Hc _ IH]; [reflexivity|].
  rewrite bind_cons, Hc, IH. reflexivity.
Qed.

Lemma existsb_false_Forall {A} (f : A -> bool) l :
  existsb f l = false -> Forall (fun x => f x = false) l.
Proof.
  induction l as [|x l IH]; simpl; [constructor|].
  intros H. apply orb_false_iff in H as [Hx Hl]. constructor; auto.
Qed.

Lemma unflagged_cells_spec c0 table l cs cs1 :
  Forall2 (marked c0 table l) cs cs1 ->
  Forall (fresh_cell c0 table l) cs ->
  existsb o_refine_flag cs1 = false ->
  Forall (final_cell c0 table l) cs1 /\
  Forall (fun c => o_children c = []) cs1 /\
  level_paths table cs1 = level_paths table cs.
Proof.
  induction 1 as [|c c1 cs cs1 Hm _ IH]; intros Hfresh Hflags.
  - repeat split; constructor.
  - apply Forall_cons in Hfresh as [Hc Hcs]. simpl in Hflags.
    apply orb_false_iff in Hflags as [Hflag Hflags].
    destruct (IH Hcs Hflags) as (Hfins & Hchs & Hps).
    destruct (marked_unflagged_final _ _ _ _ _ Hc Hm Hflag) as (Hfin & Hch & Hidx).
    split; [constructor; assumption|]. split; [constructor; assumption|].
    rewrite !level_paths_cons, Hidx, Hps. reflexivity.
Qed.

(** *** One pass of the loop over levels *)

Lemma level_step_spec c0 l coarse s coarse' s' :
  build_inv c0 l (bs_native_cells s) coarse ->
  level_step l coarse s = Ok (coarse', s') ->
  build_inv c0 (S l) (bs_native_cells s') coarse'.
Proof.
  intros (Hfinal & Hfresh & Hnodup) H. unfold level_step in H.
  set (table := bs_native_cells s) in *.
  apply bindM_Ok in H as (u & s0 & Hs0 & H). apply set_refined_Ok in Hs0.
  apply bindM_Ok in H as (coarse1 & s1 & Hmark & H).
  pose proof (on_level_cells _ _ _ _ _ _ Hmark) as Hmark_cells.
  assert (bs_native_cells s0 = table) as Ht0 by (subst s0; reflexivity).
  destruct (mark_cells_spec _ _ _ _ _ _ _ Hfresh Ht0 Hmark_cells)
    as (Hmarked & Ht1 & Hr1).
  assert (bs_refined s0 = false) as Hr0 by (subst s0; reflexivity).
  rewrite Hr0 in Hr1. simpl in Hr1.
  assert (forall j, j < l -> Forall2 same_cell (cells coarse j) (cells coarse1 j))
    as Hsame1 by (intros j Hj; eapply on_level_above; eassumption).
  apply bindM_Ok in H as (s1' & s1'' & Hget & H). apply getM_Ok in Hget as [-> ->].
  destruct (bs_refined s1) eqn:Hrefined.
  - (* some cell was flagged *)
    apply bindM_Ok in H as (coarse2 & s2 & Hrefine & H).
    pose proof (on_level_cells _ _ _ _ _ _ Hrefine) as Hrefine_cells.
    rewrite mapM_st_ret in Hrefine_cells. injection Hrefine_cells as Hcells2 <-.
    pose proof (on_level_cells _ _ _ _ _ _ H) as Hpair_cells.
    rewrite <- Hcells2 in Hpair_cells.
    assert (bs_native_cells s1 = table ++ []) as Ht1' by (rewrite app_nil_r; exact Ht1).
    destruct (pair_cells_spec _ _ _ _ _ Hmarked Hfresh _ _ _ _ Ht1' Hpair_cells)
      as (ext & Ht & Hr & Hfins & Hfrs & Hps & Hoks).
    rewrite Ht1 in Ht.
    assert (forall j, j < l -> Forall2 same_cell (cells coarse j) (cells coarse' j))
      as Hsame.
    { intros j Hj. eapply Forall2_same_cell_trans; [apply Hsame1; exact Hj|].
      eapply Forall2_same_cell_trans; eapply on_level_above; eassumption. }
    split; [|split].
    + intros j Hj. destruct (decide (j = l)) as [->|Hne]; [exact Hfins|].
      assert (j < l) as Hjl by lia.
      eapply Forall2_Forall_transfer; [|apply Hsame; exact Hjl|apply Hfinal; exact Hjl].
      intros x y Hxy Hx. rewrite Ht. apply final_cell_app.
      eapply final_cell_same; eassumption.
    + rewrite o_cell_iterators_on_level_S. exact Hfrs.
    + intros j Hj. destruct (decide (j = S l)) as [->|Hne].
      { rewrite o_cell_iterators_on_level_S. apply NoDup_children_paths; [exact Hoks|].
        rewrite Hps. apply Hnodup. lia. }
      destruct (decide (j = l)) as [->|Hne'].
      { rewrite Hps. apply Hnodup. lia. }
      assert (j < l) as Hjl by lia.
      rewrite <- (level_paths_same _ _ _ (Hsame j Hjl)), Ht.
      rewrite level_paths_app; [apply Hnodup; lia|].
      eapply Forall_impl; [apply Hfinal; exact Hjl|]. intros c.
      apply final_cell_lookup.
  - (* no cell was flagged *)
    apply retM_Ok in H as [<- <-]. rewrite Ht1.
    symmetry in Hr1.
    destruct (unflagged_cells_spec _ _ _ _ _ Hmarked Hfresh Hr1) as (Hfins & Hchs & Hps).
    split; [|split].
    + intros j Hj. destruct (decide (j = l)) as [->|Hne]; [exact Hfins|].
      assert (j < l) as Hjl by lia.
      eapply Forall2_Forall_transfer; [|apply Hsame1; exact Hjl|apply Hfinal; exact Hjl].
      intros x y Hxy Hx. eapply final_cell_same; eassumption.
    + rewrite o_cell_iterators_on_level_S, (bind_children_nil _ Hchs). constructor.
    + intros j Hj. destruct (decide (j = S l)) as [->|Hne].
      { rewrite o_cell_iterators_on_level_S, (bind_children_nil _ Hchs). constructor. }
      destruct (decide (j = l)) as [->|Hne'].
      { rewrite Hps. apply Hnodup. lia. }
      assert (j < l) as Hjl by lia.
      rewrite <- (level_paths_same _ _ _ (Hsame1 j Hjl)). apply Hnodup. lia.
Qed.

Lemma for_levels_spec c0 n l coarse s coarse' s' :
  build_inv c0 l (bs_native_cells s) coarse ->
  for_levels (seq l n) coarse s = Ok (coarse', s') ->
  build_inv c0 (l + n) (bs_native_cells s') coarse'.
Proof.
  revert l coarse s. induction n as [|n IH]; intros l coarse s Hinv H; simpl in H.
  - apply retM_Ok in H as [<- <-]. rewrite Nat.add_0_r. exact Hinv.
  - apply bindM_Ok in H as (coarse1 & s1 & Hstep & H).
    apply (level_step_spec _ _ _ _ _ _ Hinv) in Hstep.
    replace (l + S n) with (S l + n) by lia. eapply IH; eassumption.
Qed.

(** *** The seed level *)

Lemma collect_seed_cells_spec lc s r s' :
  collect_seed_cells lc s = Ok (r, s') ->
  bs_native_cells s' = bs_native_cells s ++ (select_intersecting lc).*1 /\
  bs_refined s' = bs_refined s /\
  r.1 = imap (fun k pc => mkCellData (n_vertex_indices pc.2)
                            (N.of_nat (length (bs_native_cells s) + k))
                            flat_manifold_id 0)
             (select_intersecting lc).
Proof.
  unfold select_intersecting.
  revert s r. induction lc as [|[p cell] lc IH]; intros s r H; simpl in H.
  - apply retM_Ok in H as [<- <-]. simpl. rewrite app_nil_r. auto.
  - destruct (intersects_patches (n_vertices native cell)) eqn:Hres.
    + rewrite filter_cons_True by exact Hres.
      inv_M. subst. simpl.
      match goal with H : collect_seed_cells _ _ = Ok _ |- _ =>
        apply IH in H as (Ht & Hr & Hcds) end.
      simpl in *. rewrite Ht, <- app_assoc. split; [reflexivity|].
      split; [exact Hr|]. rewrite Nat.add_0_r. f_equal. rewrite Hcds.
      apply imap_ext. intros k pc _. simpl. rewrite length_app. simpl.
      do 2 f_equal. lia.
    + rewrite filter_cons_False by (simpl; rewrite Hres; discriminate).
      apply IH. exact H.
Qed.

Lemma o_cell_iterators_on_level_0 coarse : cells coarse 0 = coarse.
Proof.
  unfold o_cell_iterators_on_level. induction coarse as [|c cs IH]; [reflexivity|].
  rewrite bind_cons, IH. reflexivity.
Qed.

Lemma mapM_st_pure_Forall2 {S X Y} (f : X -> M S Y) xs (s : S) ys s' :
  (forall x s y s', f x s = Ok (y, s') -> s' = s) ->
  mapM_st f xs s = Ok (ys, s') ->
  s' = s /\ Forall2 (fun x y => f x s = Ok (y, s)) xs ys.
Proof.
  intros Hpure. revert ys. induction xs as [|x xs IH]; intros ys.
  - rewrite mapM_st_nil_Ok. intros [-> ->]. split; [reflexivity|constructor].
  - rewrite mapM_st_cons_Ok. intros (y & s1 & ys' & Hy & Hys & ->).
    pose proof (Hpure _ _ _ _ Hy) as ->. destruct (IH _ Hys) as [-> HF].
    split; [reflexivity|]. constructor; assumption.
Qed.

Lemma resolve_seed_cell_pure x s y s' :
  resolve_seed_cell x s = Ok (y, s') -> s' = s.
Proof. unfold resolve_seed_cell. intros H. inv_M. congruence. Qed.

Lemma seed_level_inv c0 sel vertices sub s coarse s' :
  (forall p nc, (p, nc) ∈ sel -> n_cell_at native p = Some nc /\ length p = S c0) ->
  NoDup sel.*1 ->
  vertices = get_vertices native ->
  bs_native_cells s = sel.*1 ->
  on_level 0 resolve_seed_cell
    (create_triangulation vertices
       (imap (fun k pc => mkCellData (n_vertex_indices pc.2) (N.of_nat k)
                            flat_manifold_id 0) sel) sub) s = Ok (coarse, s') ->
  s' = s /\ build_inv c0 0 (bs_native_cells s) coarse.
Proof.
  intros Hsel Hnd -> Htable H. apply on_level_cells in H.
  rewrite !o_cell_iterators_on_level_0 in H.
  apply mapM_st_pure_Forall2 in H as [-> HF]; [|apply resolve_seed_cell_pure].
  split; [reflexivity|].
  assert (forall k c, coarse !! k = Some c ->
            exists p nc, sel !! k = Some (p, nc) /\
              c = mkOverlapCell (n_vertices native nc) (n_material_id nc)
                    flat_manifold_id 0 (N.of_nat k) false []) as Hcells.
  { intros k c Hk. eapply Forall2_lookup_r in HF as (x & Hx & Hres); [|exact Hk].
    unfold create_triangulation in Hx. rewrite list_lookup_fmap, list_lookup_imap in Hx.
    destruct (sel !! k) as [[p nc]|] eqn:Hsk; [|discriminate]. simpl in Hx.
    injection Hx as <-. exists p, nc. split; [reflexivity|].
    unfold resolve_seed_cell in Hres. inv_M. subst.
    match goal with H : get_native_cell _ _ _ = Some _ |- _ => rename H into Hget end.
    unfold get_native_cell in Hget. simpl in Hget.
    rewrite Nat2N.id, Htable, list_lookup_fmap, Hsk in Hget. simpl in Hget.
    destruct (Hsel p nc) as [Hnc _]; [eapply list_elem_of_lookup_2; exact Hsk|].
    rewrite Hnc in Hget. simpl in Hget. injection Hget as <-. reflexivity. }
  assert (length coarse = length sel) as Hlen.
  { apply Forall2_length in HF. unfold create_triangulation in HF.
    rewrite length_fmap, length_imap in HF. congruence. }
  assert (level_paths (bs_native_cells s) coarse = Some <$> sel.*1) as Hpaths.
  { apply list_eq. intros k. unfold level_paths. rewrite !list_lookup_fmap.
    destruct (coarse !! k) as [c|] eqn:Hk.
    - destruct (Hcells _ _ Hk) as (p & nc & Hsk & ->). simpl.
      rewrite Nat2N.id, Htable, list_lookup_fmap, Hsk. reflexivity.
    - apply lookup_ge_None in Hk. rewrite Hlen in Hk.
      apply lookup_ge_None in Hk. rewrite Hk. reflexivity. }
  split; [|split].
  - intros j Hj. lia.
  - rewrite o_cell_iterators_on_level_0. apply Forall_lookup. intros k c Hk.
    destruct (Hcells _ _ Hk) as (p & nc & Hsk & ->).
    destruct (Hsel p nc) as [Hnc Hlenp]; [eapply list_elem_of_lookup_2; exact Hsk|].
    apply (fresh_cell_intro _ _ _ _ p nc); simpl; auto.
    + rewrite Nat2N.id, Htable, list_lookup_fmap, Hsk. reflexivity.
    + lia.
  - intros j Hj. assert (j = 0) as -> by lia.
    rewrite o_cell_iterators_on_level_0, Hpaths.
    apply NoDup_fmap_2; [|exact Hnd]. intros x y [= ->]. reflexivity.
Qed.

(** *** The whole construction *)

Lemma find_coarsest_level_Some levels l :
  find_coarsest_level levels = Some l ->
  l ∈ levels /\ level_has_intersecting_active_cell l = true.
Proof.
  induction levels as [|l' levels IH]; simpl; [discriminate|].
  destruct (level_has_intersecting_active_cell l') eqn:Hl'.
  - intros [= ->]. split; [apply elem_of_cons; auto|exact Hl'].
  - intros H. destruct (IH H) as [Hin Hl]. split; [apply elem_of_cons; auto|exact Hl].
Qed.

Lemma find_coarsest_level_None levels :
  find_coarsest_level levels = None <->
  forall l, l ∈ levels -> level_has_intersecting_active_cell l = false.
Proof.
  induction levels as [|l' levels IH]; simpl.
  - split; [|reflexivity]. intros _ l Hl. apply elem_of_nil in Hl. contradiction.
  - destruct (level_has_intersecting_active_cell l') eqn:Hl'.
    + split; [discriminate|]. intros H. rewrite H in Hl'; [discriminate|].
      apply elem_of_cons. auto.
    + rewrite IH. split; intros H l Hl.
      * apply elem_of_cons in Hl as [->|Hl]; auto.
      * apply H. apply elem_of_cons. auto.
Qed.

Lemma Forall_False_nil {A} (P : A -> Prop) l :
  (forall x, P x -> False) -> Forall P l -> l = [].
Proof. intros HP [|x l' Hx _]; [reflexivity|]. destruct (HP x Hx). Qed.

(** After the loop over levels every cell of every level is done, and no two
    cells of a level refer to the same native cell. *)
Lemma reinit_overlapping_tria_spec s coarse s' :
  reinit_overlapping_tria s = Ok (coarse, s') ->
  exists c0,
    find_coarsest_level (seq 0 (n_levels native)) = Some c0 /\
    forall j,
      Forall (final_cell c0 (bs_native_cells s') j) (cells coarse j) /\
      NoDup (level_paths (bs_native_cells s') (cells coarse j)).
Proof.
  unfold reinit_overlapping_tria. intros H.
  apply bindM_Ok in H as (u & s0 & Hput & H). injection Hput as <- <-.
  apply bindM_Ok in H as (u' & s0' & Hassert & H).
  apply Assert_Ok in Hassert as [Hsome <-]. apply bool_decide_eq_true in Hsome.
  destruct Hsome as [c0 Hc0]. rewrite Hc0 in H. simpl in H. exists c0.
  split; [exact Hc0|].
  apply find_coarsest_level_Some in Hc0 as [Hin _]. apply elem_of_seq in Hin.
  apply bindM_Ok in H as (seed & s1 & Hseed & H).
  apply collect_seed_cells_spec in Hseed as (Ht1 & _ & Hcds). simpl in Ht1, Hcds.
  apply bindM_Ok in H as (coarse0 & s2 & Hresolve & H).
  rewrite Hcds in Hresolve.
  eapply (seed_level_inv c0) in Hresolve as [-> Hinv]; [| | |reflexivity|exact Ht1].
  2:{ intros p nc Hpnc. apply list_elem_of_filter in Hpnc as [_ Hpnc].
      apply elem_of_n_cell_iterators_on_level in Hpnc. exact Hpnc. }
  2:{ apply NoDup_fmap_2_strong.
      - intros [p nc] [p' nc'] Hx Hy Heq. simpl in Heq. subst p'.
        apply list_elem_of_filter in Hx as [_ Hx].
        apply list_elem_of_filter in Hy as [_ Hy].
        apply elem_of_n_cell_iterators_on_level in Hx as [Hx _].
        apply elem_of_n_cell_iterators_on_level in Hy as [Hy _]. congruence.
      - apply NoDup_filter, NoDup_n_cell_iterators_on_level. }
  apply (for_levels_spec c0 _ 0) in H; [|exact Hinv]. simpl in H.
  destruct H as (Hfinal & Hfresh & Hnodup).
  set (L := n_levels native - c0) in *.
  assert (cells coarse L = []) as Hempty.
  { eapply Forall_False_nil; [|exact Hfresh].
    intros c (p & nc & Hlink & _). pose proof Hlink as (_ & Hlen & _).
    apply linked_lookup in Hlink as [_ Hnc]. apply n_cell_at_level in Hnc. lia. }
  intros j. destruct (decide (j < L)) as [Hj|Hj].
  - split; [apply Hfinal; exact Hj|apply Hnodup; lia].
  - replace j with (L + (j - L)) by lia.
    rewrite o_cell_iterators_on_level_add, Hempty. split; constructor.
Qed.

Lemma level_has_intersecting_active_cell_false level_n :
  level_has_intersecting_active_cell level_n = false <->
  forall pc patch_bbox,
    pc ∈ n_active_cell_iterators_on_level native level_n ->
    patch_bbox ∈ patch_bboxes ->
    intersects spacedim (bounding_box (n_vertices native pc.2)) patch_bbox = false.
Proof.
  unfold level_has_intersecting_active_cell, intersects_patches. split.
  - intros H pc patch_bbox Hpc Hpatch.
    apply existsb_false_Forall in H. rewrite Forall_forall in H.
    specialize (H pc Hpc). simpl in H.
    apply existsb_false_Forall in H. rewrite Forall_forall in H. auto.
  - intros H. apply not_true_is_false. intros Hex.
    apply existsb_exists in Hex as (pc & Hpc & Hex).
    apply existsb_exists in Hex as (patch_bbox & Hpatch & Hex).
    apply list_elem_of_In in Hpc, Hpatch. rewrite (H pc patch_bbox Hpc Hpatch) in Hex.
    discriminate.
Qed.

(** C9: when on no level of the native mesh an active cell has a bounding box
    that intersects one of the patch boxes, [reinit_overlapping_tria] and
    [reinit] end with [ExcInternalError] and produce no mesh. *)
Theorem reinit_fails_without_intersecting_cell :
  (forall level_n pc patch_bbox,
     level_n < n_levels native ->
     pc ∈ n_active_cell_iterators_on_level native level_n ->
     patch_bbox ∈ patch_bboxes ->
     intersects spacedim (bounding_box (n_vertices native pc.2)) patch_bbox = false) ->
  (forall s, reinit_overlapping_tria s = Throw ExcInternalError) /\
  reinit = Throw ExcInternalError.
Proof using Type.
  intros Hnone.
  assert (find_coarsest_level (seq 0 (n_levels native)) = None) as Hfind.
  { apply find_coarsest_level_None. intros l Hl. apply elem_of_seq in Hl.
    apply level_has_intersecting_active_cell_false. intros pc patch_bbox.
    apply Hnone. exact (proj2 Hl). }
  assert (forall s, reinit_overlapping_tria s = Throw ExcInternalError) as Hthrow.
  { intros s. unfold reinit_overlapping_tria. rewrite Hfind. reflexivity. }
  split; [exact Hthrow|]. unfold reinit. rewrite Hthrow. reflexivity.
Qed.

(** The hypothesis of the theorem above can be checked by running the search
    for the coarsest level. *)
Lemma no_intersecting_cell_by_search :
  find_coarsest_level (seq 0 (n_levels native)) = None ->
  forall level_n pc patch_bbox,
    level_n < n_levels native ->
    pc ∈ n_active_cell_iterators_on_level native level_n ->
    patch_bbox ∈ patch_bboxes ->
    intersects spacedim (bounding_box (n_vertices native pc.2)) patch_bbox = false.
Proof using Type.
  intros Hfind level_n pc patch_bbox Hl.
  apply level_has_intersecting_active_cell_false.
  apply (proj1 (find_coarsest_level_None _) Hfind). apply elem_of_seq.
  split; [apply Nat.le_0_l|exact Hl].
Qed.

(** *** The finished mesh *)

Lemma o_depth_unfold c : o_depth c = S (max_list (o_depth <$> o_children c)).
Proof. destruct c; reflexivity. Qed.

Lemma o_cells_below_depth j c c' : c ∈ o_cells_below j c' -> j < o_depth c'.
Proof.
  revert c'. induction j as [|j IH]; intros c'; rewrite o_depth_unfold; [lia|].
  simpl. intros Hc. apply list_elem_of_bind in Hc as (ch & Hc & Hch).
  apply IH in Hc.
  assert (o_depth ch <= max_list (o_depth <$> o_children c'))
    by (apply max_list_elem_of_le, list_elem_of_fmap_2; exact Hch).
  lia.
Qed.

Lemma o_cell_iterators_on_level_depth coarse j c :
  c ∈ cells coarse j -> j < o_n_levels coarse.
Proof.
  unfold o_cell_iterators_on_level, o_n_levels. intros Hc.
  apply list_elem_of_bind in Hc as (c' & Hc & Hc'). apply o_cells_below_depth in Hc.
  assert (o_depth c' <= max_list (o_depth <$> coarse))
    by (apply max_list_elem_of_le, list_elem_of_fmap_2; exact Hc').
  lia.
Qed.

(** [active_cell_iterators()] visits the active cells of all levels. *)
Lemma elem_of_o_active_cell_iterators coarse c :
  c ∈ o_active_cell_iterators coarse <->
  o_is_active c = true /\ exists j, c ∈ cells coarse j.
Proof.
  unfold o_active_cell_iterators. rewrite list_elem_of_join. split.
  - intros (piece & Hc & Hpiece). apply list_elem_of_fmap in Hpiece as (j & -> & _).
    apply list_elem_of_filter in Hc as [Hact Hc]. eauto.
  - intros (Hact & j & Hc). exists (filter (fun c => o_is_active c = true) (cells coarse j)).
    split; [apply list_elem_of_filter; auto|].
    apply list_elem_of_fmap. exists j. split; [reflexivity|].
    apply elem_of_seq. apply o_cell_iterators_on_level_depth in Hc. lia.
Qed.

Lemma mapM_result_Forall2 {A B} (f : A -> result B) l r :
  mapM_result f l = Ok r -> Forall2 (fun x y => f x = Ok y) l r.
Proof.
  revert r. induction l as [|x l IH]; intros r; simpl.
  - intros [= <-]. constructor.
  - destruct (f x) as [y|e] eqn:Hy; [|discriminate].
    destruct (mapM_result f l) as [ys|e]; [|discriminate].
    intros [= <-]. constructor; auto.
Qed.

Lemma StronglySorted_fmap_elem {A B} (f : A -> B) (R1 : relation A)
    (R2 : relation B) l :
  (forall x y, x ∈ l -> y ∈ l -> R1 x y -> R2 (f x) (f y)) ->
  StronglySorted R1 l -> StronglySorted R2 (f <$> l).
Proof.
  intros HR Hs. induction Hs as [|x l Hs IH Hx]; [constructor|].
  rewrite fmap_cons. constructor.
  - apply IH. intros a b Ha Hb. apply HR; apply elem_of_cons; auto.
  - apply Forall_fmap, Forall_forall. intros y Hy.
    rewrite Forall_forall in Hx. apply HR; try (apply elem_of_cons; auto).
    apply Hx. exact Hy.
Qed.

Lemma list_filter_iff_elem {A} (P1 P2 : A -> Prop)
    `{!forall x, Decision (P1 x), !forall x, Decision (P2 x)} (l : list A) :
  (forall x, x ∈ l -> P1 x <-> P2 x) -> filter P1 l = filter P2 l.
Proof.
  induction l as [|a l IH]; intros HP; [reflexivity|].
  assert (filter P1 l = filter P2 l) as Hl
    by (apply IH; intros x Hx; apply HP, elem_of_cons; auto).
  destruct (decide (P1 a)) as [Ha|Ha].
  - rewrite !filter_cons_True; [rewrite Hl; reflexivity| |exact Ha].
    apply HP; [apply elem_of_cons; auto|exact Ha].
  - rewrite !filter_cons_False; [exact Hl| |exact Ha].
    intros Ha'. apply Ha, HP; [apply elem_of_cons; auto|exact Ha'].
Qed.

Lemma reinit_Ok_inv t :
  reinit = Ok t ->
  exists coarse s keyed,
    reinit_overlapping_tria (mkBuildState [] false) = Ok (coarse, s) /\
    mapM_result (with_native_index (bs_native_cells s))
      (filter (fun c => o_subdomain_id c <> artificial_subdomain_id)
              (o_active_cell_iterators coarse)) = Ok keyed /\
    t = mkOverlapTriangulation native (bs_native_cells s) coarse
          (snd <$> std_sort _ fst keyed).
Proof.
  unfold reinit.
  destruct (reinit_overlapping_tria _) as [[coarse s]|e] eqn:Hbuild; [|discriminate].
  destruct (mapM_result _ _) as [keyed|e] eqn:Hkeyed; [|discriminate].
  intros [= <-]. eauto 10.
Qed.

(** Every cell of the mesh that [reinit] leaves is done, and no two cells of
    a level refer to the same native cell. *)
Lemma reinit_cells_final t :
  reinit = Ok t ->
  native_tria t = native /\
  exists c0,
    find_coarsest_level (seq 0 (n_levels native)) = Some c0 /\
    forall j,
      Forall (final_cell c0 (native_cells t) j) (cells (coarse_cells t) j) /\
      NoDup (level_paths (native_cells t) (cells (coarse_cells t) j)).
Proof.
  intros H. apply reinit_Ok_inv in H as (coarse & s & keyed & Hbuild & _ & ->).
  split; [reflexivity|]. simpl. eapply reinit_overlapping_tria_spec. exact Hbuild.
Qed.

Lemma final_cell_subdomain c0 table j c :
  final_cell c0 table j c ->
  (o_subdomain_id c = 0%N \/ o_subdomain_id c = artificial_subdomain_id) /\
  is_locally_owned c = resident c /\
  (o_subdomain_id c <> artificial_subdomain_id <-> resident c = true).
Proof.
  intros (p & nc & _ & Hsub & _). unfold is_locally_owned, locally_owned_subdomain.
  rewrite Hsub. destruct (resident c); simpl.
  - split; [auto|]. split; [reflexivity|]. split; [reflexivity|discriminate].
  - split; [auto|]. split; [reflexivity|]. split; [congruence|discriminate].
Qed.

(** *** Distinct cells refer to distinct native cells *)

Lemma NoDup_join_fmap_seq {B} (f : nat -> list B) (key : B -> option nat) a n :
  (forall j, NoDup (f j)) ->
  (forall j y, y ∈ f j -> key y = Some j) ->
  NoDup (mjoin (f <$> seq a n)).
Proof using Type.
  intros Hnd Hkey. revert a. induction n as [|n IH]; intros a; [constructor|].
  cbn [seq]. rewrite fmap_cons. simpl. apply NoDup_app. split; [apply Hnd|].
  split; [|apply IH]. intros y Hy Hy'.
  apply list_elem_of_join in Hy' as (piece & Hin & Hpiece).
  apply list_elem_of_fmap in Hpiece as (j & -> & Hj). apply elem_of_seq in Hj.
  pose proof (Hkey _ _ Hy) as H1. pose proof (Hkey _ _ Hin) as H2.
  rewrite H1 in H2. injection H2 as H2. subst j.
  destruct Hj as [Hj _]. exact (Nat.nle_succ_diag_l _ Hj).
Qed.

Lemma fmap_join {A B} (f : A -> B) (ls : list (list A)) :
  f <$> mjoin ls = mjoin (fmap f <$> ls).
Proof using Type.
  induction ls as [|l ls IH]; [reflexivity|].
  simpl. rewrite fmap_app, IH. reflexivity.
Qed.

Lemma NoDup_fmap_transfer {A B C} (g : A -> B) (h : A -> C) l :
  (forall x y, x ∈ l -> y ∈ l -> h x = h y -> g x = g y) ->
  NoDup (g <$> l) -> NoDup (h <$> l).
Proof using Type.
  induction l as [|x l IH]; intros Hgh Hnd; [constructor|].
  rewrite fmap_cons in *. apply NoDup_cons in Hnd as [Hx Hnd]. apply NoDup_cons. split.
  - intros Hin. apply list_elem_of_fmap in Hin as (y & Heq & Hy). apply Hx.
    rewrite (Hgh x y); [apply list_elem_of_fmap_2; exact Hy| | |exact Heq];
      apply elem_of_cons; auto.
  - apply IH; [|exact Hnd]. intros a b Ha Hb. apply Hgh; apply elem_of_cons; auto.
Qed.

Lemma NoDup_level_paths_filter table (P : OverlapCell -> Prop)
    `{!forall c, Decision (P c)} cs :
  NoDup (level_paths table cs) -> NoDup (level_paths table (filter P cs)).
Proof using Type.
  unfold level_paths. intros Hnd. eapply sublist_NoDup; [exact Hnd|].
  apply fmap_sublist. apply sublist_filter.
Qed.

(** An active native cell is among [active_cell_iterators()]. *)
Lemma elem_of_n_active_cell_iterators p nc :
  n_cell_at native p = Some nc -> n_is_active nc = true ->
  (p, nc) ∈ n_active_cell_iterators native.
Proof using Type.
  intros Hnc Hact. unfold n_active_cell_iterators, n_active_cell_iterators_on_level.
  pose proof (n_cell_at_level _ _ _ Hnc) as [Hpos Hle].
  apply list_elem_of_join.
  exists (filter (fun pc => n_is_active pc.2 = true)
            (n_cell_iterators_on_level native (length p - 1))).
  split.
  - apply list_elem_of_filter. split; [exact Hact|].
    apply elem_of_n_cell_iterators_on_level. split; [exact Hnc|].
    destruct (length p); [inversion Hpos|]. simpl. rewrite Nat.sub_0_r. reflexivity.
  - apply list_elem_of_fmap. exists (length p - 1). split; [reflexivity|].
    apply elem_of_seq. split; [apply Nat.le_0_l|].
    destruct (length p); [inversion Hpos|]. simpl. rewrite Nat.sub_0_r. exact Hle.
Qed.

Lemma NoDup_fmap_inj_elem {A B} (f : A -> B) l x y :
  NoDup (f <$> l) -> x ∈ l -> y ∈ l -> f x = f y -> x = y.
Proof using Type.
  induction l as [|a l IH]; intros Hnd Hx Hy Heq.
  - apply elem_of_nil in Hx. contradiction.
  - rewrite fmap_cons in Hnd. apply NoDup_cons in Hnd as [Ha Hnd].
    apply elem_of_cons in Hx as [->|Hx]; apply elem_of_cons in Hy as [->|Hy].
    + reflexivity.
    + destruct Ha. rewrite Heq. apply list_elem_of_fmap_2. exact Hy.
    + destruct Ha. rewrite <- Heq. apply list_elem_of_fmap_2. exact Hx.
    + apply IH; assumption.
Qed.

(** The locally owned active cells of the mesh [reinit] leaves refer to
    active native cells, each to one of its own. *)
Lemma reinit_owned_cells_distinct t :
  reinit = Ok t ->
  active_cell_indices_consistent native ->
  let owned := filter (fun c => is_locally_owned c = true)
                      (o_active_cell_iterators (coarse_cells t)) in
  Forall (fun c => exists p nc,
            get_native_cell (native_tria t) (native_cells t) c = Some (p, nc) /\
            n_is_active nc = true) owned /\
  NoDup (native_active_cell_index t <$> owned).
Proof.
  intros H Hcons owned.
  destruct (reinit_cells_final _ H) as (Hnative & c0 & _ & Hfinal).
  assert (forall c, c ∈ owned -> exists j p nc,
            c ∈ cells (coarse_cells t) j /\
            linked c0 (native_cells t) j c p nc /\ n_is_active nc = true) as Hcell.
  { intros c Hc. apply list_elem_of_filter in Hc as [Hown Hc].
    apply elem_of_o_active_cell_iterators in Hc as (Hact & j & Hc).
    destruct (Hfinal j) as [HF _]. rewrite Forall_forall in HF.
    pose proof (HF c Hc) as Hfin.
    destruct (final_cell_subdomain _ _ _ _ Hfin) as (_ & Hres & _).
    destruct Hfin as (p & nc & Hlink & _ & Hch & _). exists j, p, nc.
    split; [exact Hc|]. split; [exact Hlink|]. unfold o_is_active in Hact.
    rewrite Hch, <- Hres, Hown in Hact. exact Hact. }
  split.
  - apply Forall_forall. intros c Hc.
    destruct (Hcell c Hc) as (j & p & nc & _ & (Hget & _) & Hact).
    exists p, nc. rewrite Hnative. auto.
  - assert (NoDup (level_paths (native_cells t) owned)) as Hpaths.
    { apply NoDup_level_paths_filter. unfold o_active_cell_iterators, level_paths.
      rewrite fmap_join, <- list_fmap_compose.
      apply (NoDup_join_fmap_seq _
               (fun y => match y with
                         | Some p => Some (length p - S c0)
                         | None => None
                         end)).
      - intros j. simpl. apply NoDup_level_paths_filter. apply Hfinal.
      - intros j y Hy. simpl in Hy. apply list_elem_of_fmap in Hy as (c & -> & Hc).
        apply list_elem_of_filter in Hc as [_ Hc].
        destruct (Hfinal j) as [HF _]. rewrite Forall_forall in HF.
        destruct (HF c Hc) as (p & nc & Hlink & _).
        pose proof Hlink as (_ & Hlen & _).
        apply linked_lookup in Hlink as [Hp _]. rewrite Hp, Hlen. f_equal.
        rewrite Nat.sub_succ, Nat.add_comm. apply Nat.add_sub. }
    eapply NoDup_fmap_transfer; [|exact Hpaths].
    intros c1 c2 Hc1 Hc2 Heq.
    destruct (Hcell c1 Hc1) as (j1 & p1 & nc1 & _ & Hlink1 & Hact1).
    destruct (Hcell c2 Hc2) as (j2 & p2 & nc2 & _ & Hlink2 & Hact2).
    pose proof Hlink1 as (Hget1 & _). pose proof Hlink2 as (Hget2 & _).
    apply linked_lookup in Hlink1 as [Hp1 Hnc1].
    apply linked_lookup in Hlink2 as [Hp2 Hnc2].
    unfold native_active_cell_index in Heq. rewrite Hnative, Hget1, Hget2 in Heq.
    rewrite Hp1, Hp2. f_equal.
    assert ((p1, nc1) = (p2, nc2)) as Hsame; [|congruence].
    eapply (NoDup_fmap_inj_elem (fun pc => n_active_cell_index pc.2)).
    + rewrite Hcons. apply NoDup_seq.
    + apply elem_of_n_active_cell_iterators; assumption.
    + apply elem_of_n_active_cell_iterators; assumption.
    + exact Heq.
Qed.

(** C10: after [reinit] every cell of the overlap mesh has subdomain id 0 or
    the artificial subdomain id; [locally_owned_subdomain()] is 0, so a cell
    is locally owned exactly when it is resident (it intersects the patches);
    and [cell_iterators_in_active_native_order] holds exactly the resident
    active cells, sorted by the active cell index of their native cell. *)
Theorem reinit_subdomain_ids_and_cached_order (t : OverlapTriangulation) :
  reinit = Ok t ->
  locally_owned_subdomain = 0%N /\
  (forall j c, c ∈ cells (coarse_cells t) j ->
     (o_subdomain_id c = 0%N \/ o_subdomain_id c = artificial_subdomain_id) /\
     is_locally_owned c = resident c) /\
  cell_iterators_in_active_native_order t ≡ₚ
    filter (fun c => resident c = true) (o_active_cell_iterators (coarse_cells t)) /\
  (forall c, c ∈ cell_iterators_in_active_native_order t <->
     resident c = true /\ o_is_active c = true /\
     exists j, c ∈ cells (coarse_cells t) j) /\
  StronglySorted
    (fun a b => native_active_cell_index t a <= native_active_cell_index t b)
    (cell_iterators_in_active_native_order t).
Proof.
  intros H. destruct (reinit_cells_final _ H) as (_ & c0 & _ & Hfinal).
  apply reinit_Ok_inv in H as (coarse & s & keyed & Hbuild & Hkeyed & ->).
  simpl in *. set (table := bs_native_cells s) in *.
  assert (forall j c, c ∈ cells coarse j -> final_cell c0 table j c) as Hcell.
  { intros j c Hc. destruct (Hfinal j) as [HF _]. rewrite Forall_forall in HF. auto. }
  apply mapM_result_Forall2 in Hkeyed.
  assert (keyed.*2 = filter (fun c => resident c = true) (o_active_cell_iterators coarse))
    as Hsnd.
  { assert (filter (fun c => o_subdomain_id c <> artificial_subdomain_id)
                   (o_active_cell_iterators coarse) =
            filter (fun c => resident c = true) (o_active_cell_iterators coarse))
      as <-.
    { apply list_filter_iff_elem. intros c Hc.
      apply elem_of_o_active_cell_iterators in Hc as (_ & j & Hc).
      apply Hcell, final_cell_subdomain in Hc. tauto. }
    induction Hkeyed as [|c kc cs kcs Hc _ IH]; [reflexivity|].
    rewrite fmap_cons, IH. f_equal. unfold with_native_index in Hc.
    destruct (get_native_cell native table c) as [[p nc]|]; [|discriminate].
    injection Hc as <-. reflexivity. }
  destruct (std_sort_sorts _ fst keyed) as [Hperm Hsorted].
  assert (cell_perm : snd <$> std_sort _ fst keyed ≡ₚ
            filter (fun c => resident c = true) (o_active_cell_iterators coarse))
    by (rewrite Hperm, Hsnd; reflexivity).
  split; [reflexivity|]. split; [|split; [exact cell_perm|split]].
  - intros j c Hc. apply Hcell, final_cell_subdomain in Hc. tauto.
  - intros c. rewrite cell_perm, list_elem_of_filter, elem_of_o_active_cell_iterators.
    tauto.
  - eapply StronglySorted_fmap_elem; [|exact Hsorted].
    intros [k c] [k' c'] Hx Hy Hle. simpl in *.
    assert (forall k c, (k, c) ∈ keyed ->
              k = native_active_cell_index
                    (mkOverlapTriangulation native table coarse
                       (snd <$> std_sort _ fst keyed)) c) as Hkey.
    { intros k1 c1 Hin. apply list_elem_of_lookup in Hin as [i Hi].
      eapply Forall2_lookup_r in Hkeyed as (x & _ & Hx'); [|exact Hi].
      unfold with_native_index, native_active_cell_index in *. simpl.
      destruct (get_native_cell native table x) as [[p nc]|] eqn:Hget; [|discriminate].
      injection Hx' as <- <-. rewrite Hget. reflexivity. }
    rewrite Hperm in Hx, Hy. rewrite <- (Hkey _ _ Hx), <- (Hkey _ _ Hy). exact Hle.
Qed.

(** *** The seed level and the levels below *)

(** The search goes through the levels in increasing order and stops at the
    first hit. *)
Lemma find_coarsest_level_first a n l :
  find_coarsest_level (seq a n) = Some l ->
  a <= l < a + n /\
  level_has_intersecting_active_cell l = true /\
  forall l', a <= l' < l -> level_has_intersecting_active_cell l' = false.
Proof using Type.
  clear n_children_isotropic_pos std_sort_sorts.
  revert a. induction n as [|n IH]; intros a; cbn [seq]; [discriminate|].
  unfold find_coarsest_level; fold find_coarsest_level.
  destruct (level_has_intersecting_active_cell a) eqn:Ha.
  - intros [= <-]. split; [lia|]. split; [exact Ha|]. intros l' Hl'. lia.
  - intros H. apply IH in H as (Hl & Hhit & Hbefore).
    split; [lia|]. split; [exact Hhit|]. intros l' Hl'.
    destruct (decide (l' = a)) as [->|Hne]; [exact Ha|]. apply Hbefore. lia.
Qed.

(** *** Children *)

Lemma children_paths_ok_same table table' cs cs' :
  Forall2 same_cell cs cs' ->
  (forall c p, c ∈ cs -> table !! N.to_nat (o_user_index c) = Some p ->
               table' !! N.to_nat (o_user_index c) = Some p) ->
  level_paths table' (cs' ≫= o_children) = level_paths table (cs ≫= o_children) ->
  Forall (children_paths_ok table) cs ->
  Forall (children_paths_ok table') cs'.
Proof using Type.
  clear n_children_isotropic_pos std_sort_sorts.
  induction 1 as [|c c' cs cs' Hs _ IH]; intros Hstable Hpaths Hok; [constructor|].
  apply Forall_cons in Hok as [(p & Hp & Hc) Hok].
  rewrite !level_paths_bind_cons in Hpaths.
  pose proof Hs as [_ Hlen].
  apply app_inj_1 in Hpaths as [Hhead Htail];
    [|unfold level_paths; rewrite !length_fmap; symmetry; exact Hlen].
  constructor.
  - exists p. apply same_cell_fields in Hs as (_ & _ & _ & _ & Hu & _).
    split.
    + rewrite <- Hu. apply Hstable; [apply elem_of_cons; auto|exact Hp].
    + rewrite Hhead, Hc, Hlen. reflexivity.
  - apply IH; [|exact Htail|exact Hok].
    intros c1 p1 Hc1. apply Hstable. apply elem_of_cons. auto.
Qed.

Lemma children_paths_ok_leaf c0 table l c :
  final_cell c0 table l c -> o_children c = [] -> children_paths_ok table c.
Proof using Type.
  intros Hfin Hch. destruct (final_cell_lookup _ _ _ _ Hfin) as [p Hp].
  exists p. split; [exact Hp|]. rewrite Hch. reflexivity.
Qed.

(** One pass of the loop keeps, and sets up for the level it visits, the
    link between the children of a cell and the children of its native
    cell. *)
Lemma level_step_children c0 l coarse s coarse' s' :
  build_inv c0 l (bs_native_cells s) coarse ->
  (forall j, j < l -> Forall (children_paths_ok (bs_native_cells s)) (cells coarse j)) ->
  level_step l coarse s = Ok (coarse', s') ->
  forall j, j < S l -> Forall (children_paths_ok (bs_native_cells s')) (cells coarse' j).
Proof.
  intros (Hfinal & Hfresh & Hnodup) Hchildren H. unfold level_step in H.
  set (table := bs_native_cells s) in *.
  apply bindM_Ok in H as (u & s0 & Hs0 & H). apply set_refined_Ok in Hs0.
  apply bindM_Ok in H as (coarse1 & s1 & Hmark & H).
  pose proof (on_level_cells _ _ _ _ _ _ Hmark) as Hmark_cells.
  assert (bs_native_cells s0 = table) as Ht0 by (subst s0; reflexivity).
  destruct (mark_cells_spec _ _ _ _ _ _ _ Hfresh Ht0 Hmark_cells)
    as (Hmarked & Ht1 & Hr1).
  assert (bs_refined s0 = false) as Hr0 by (subst s0; reflexivity).
  rewrite Hr0 in Hr1. simpl in Hr1.
  assert (forall j, j < l -> Forall2 same_cell (cells coarse j) (cells coarse1 j))
    as Hsame1 by (intros j Hj; eapply on_level_above; eassumption).
  apply bindM_Ok in H as (s1' & s1'' & Hget & H). apply getM_Ok in Hget as [-> ->].
  destruct (bs_refined s1) eqn:Hrefined.
  - (* some cell was flagged *)
    apply bindM_Ok in H as (coarse2 & s2 & Hrefine & H).
    pose proof (on_level_cells _ _ _ _ _ _ Hrefine) as Hrefine_cells.
    rewrite mapM_st_ret in Hrefine_cells. injection Hrefine_cells as Hcells2 <-.
    pose proof (on_level_cells _ _ _ _ _ _ H) as Hpair_cells.
    rewrite <- Hcells2 in Hpair_cells.
    assert (bs_native_cells s1 = table ++ []) as Ht1' by (rewrite app_nil_r; exact Ht1).
    destruct (pair_cells_spec _ _ _ _ _ Hmarked Hfresh _ _ _ _ Ht1' Hpair_cells)
      as (ext & Ht & Hr & Hfins & Hfrs & Hps & Hoks).
    rewrite Ht1 in Ht.
    assert (forall j, j < l -> Forall2 same_cell (cells coarse j) (cells coarse' j))
      as Hsame.
    { intros j Hj. eapply Forall2_same_cell_trans; [apply Hsame1; exact Hj|].
      eapply Forall2_same_cell_trans; eapply on_level_above; eassumption. }
    intros j Hj. destruct (decide (j = l)) as [->|Hne]; [exact Hoks|].
    assert (j < l) as Hjl by lia.
    eapply children_paths_ok_same; [apply Hsame; exact Hjl| | |apply Hchildren; exact Hjl].
    + intros c p _ Hp. rewrite Ht. apply lookup_app_l_Some. exact Hp.
    + assert (level_paths (bs_native_cells s') (cells coarse' (S j)) =
              level_paths table (cells coarse (S j))) as Hlevel.
      { destruct (decide (S j = l)) as [<-|Hne']; [exact Hps|].
        assert (S j < l) as Hjl' by lia.
        rewrite <- (level_paths_same _ _ _ (Hsame (S j) Hjl')), Ht.
        apply level_paths_app.
        eapply Forall_impl; [apply Hfinal; exact Hjl'|]. intros c.
        apply final_cell_lookup. }
      rewrite !o_cell_iterators_on_level_S in Hlevel. exact Hlevel.
  - (* no cell was flagged *)
    apply retM_Ok in H as [<- <-]. rewrite Ht1.
    symmetry in Hr1.
    destruct (unflagged_cells_spec _ _ _ _ _ Hmarked Hfresh Hr1) as (Hfins & Hchs & Hps).
    intros j Hj. destruct (decide (j = l)) as [->|Hne].
    { apply Forall_forall. intros c Hc. rewrite Forall_forall in Hfins, Hchs.
      eapply children_paths_ok_leaf; [apply Hfins; exact Hc|apply Hchs; exact Hc]. }
    assert (j < l) as Hjl by lia.
    eapply children_paths_ok_same;
      [apply Hsame1; exact Hjl|intros c p _ Hp; exact Hp| |apply Hchildren; exact Hjl].
    assert (level_paths table (cells coarse1 (S j)) =
            level_paths table (cells coarse (S j))) as Hlevel.
    { destruct (decide (S j = l)) as [<-|Hne']; [exact Hps|].
      assert (S j < l) as Hjl' by lia.
      symmetry. apply level_paths_same, Hsame1. exact Hjl'. }
    rewrite !o_cell_iterators_on_level_S in Hlevel. exact Hlevel.
Qed.

Lemma for_levels_children c0 n l coarse s coarse' s' :
  build_inv c0 l (bs_native_cells s) coarse ->
  (forall j, j < l -> Forall (children_paths_ok (bs_native_cells s)) (cells coarse j)) ->
  for_levels (seq l n) coarse s = Ok (coarse', s') ->
  forall j, j < l + n ->
    Forall (children_paths_ok (bs_native_cells s')) (cells coarse' j).
Proof.
  revert l coarse s. induction n as [|n IH]; intros l coarse s Hinv Hch H; simpl in H.
  - apply retM_Ok in H as [<- <-]. rewrite Nat.add_0_r. exact Hch.
  - apply bindM_Ok in H as (coarse1 & s1 & Hstep & H).
    pose proof (level_step_children _ _ _ _ _ _ Hinv Hch Hstep) as Hch1.
    apply (level_step_spec _ _ _ _ _ _ Hinv) in Hstep.
    replace (l + S n) with (S l + n) by lia. eapply IH; eassumption.
Qed.

Lemma reinit_overlapping_tria_children s coarse s' :
  reinit_overlapping_tria s = Ok (coarse, s') ->
  forall j, Forall (children_paths_ok (bs_native_cells s')) (cells coarse j).
Proof.
  unfold reinit_overlapping_tria. intros H.
  apply bindM_Ok in H as (u & s0 & Hput & H). injection Hput as <- <-.
  apply bindM_Ok in H as (u' & s0' & Hassert & H).
  apply Assert_Ok in Hassert as [Hsome <-]. apply bool_decide_eq_true in Hsome.
  destruct Hsome as [c0 Hc0]. rewrite Hc0 in H. simpl in H.
  apply find_coarsest_level_Some in Hc0 as [Hin _]. apply elem_of_seq in Hin.
  apply bindM_Ok in H as (seed & s1 & Hseed & H).
  apply collect_seed_cells_spec in Hseed as (Ht1 & _ & Hcds). simpl in Ht1, Hcds.
  apply bindM_Ok in H as (coarse0 & s2 & Hresolve & H).
  rewrite Hcds in Hresolve.
  eapply (seed_level_inv c0) in Hresolve as [-> Hinv]; [| | |reflexivity|exact Ht1].
  2:{ intros p nc Hpnc. apply list_elem_of_filter in Hpnc as [_ Hpnc].
      apply elem_of_n_cell_iterators_on_level in Hpnc. exact Hpnc. }
  2:{ apply NoDup_fmap_2_strong.
      - intros [p nc] [p' nc'] Hx Hy Heq. simpl in Heq. subst p'.
        apply list_elem_of_filter in Hx as [_ Hx].
        apply list_elem_of_filter in Hy as [_ Hy].
        apply elem_of_n_cell_iterators_on_level in Hx as [Hx _].
        apply elem_of_n_cell_iterators_on_level in Hy as [Hy _]. congruence.
      - apply NoDup_filter, NoDup_n_cell_iterators_on_level. }
  pose proof (for_levels_children c0 _ 0 _ _ _ _ Hinv
                ltac:(intros j Hj; exfalso; exact (Nat.nlt_0_r _ Hj)) H) as Hch.
  apply (for_levels_spec c0 _ 0) in H; [|exact Hinv]. simpl in H, Hch.
  destruct H as (_ & Hfresh & _).
  set (L := n_levels native - c0) in *.
  assert (cells coarse L = []) as Hempty.
  { eapply Forall_False_nil; [|exact Hfresh].
    intros c (p & nc & Hlink & _). pose proof Hlink as (_ & Hlen & _).
    apply linked_lookup in Hlink as [_ Hnc]. apply n_cell_at_level in Hnc. lia. }
  intros j. destruct (decide (j < L)) as [Hj|Hj].
  - apply Hch. exact Hj.
  - replace j with (L + (j - L)) by lia.
    rewrite o_cell_iterators_on_level_add, Hempty. constructor.
Qed.

(** Child [k] of a cell refers to child [k] of the native cell of its
    parent. *)
Lemma child_refers_to_native_child (t : OverlapTriangulation) :
  reinit = Ok t ->
  forall j c k child,
    c ∈ cells (coarse_cells t) j ->
    o_children c !! k = Some child ->
    exists p nc native_child,
      get_native_cell (native_tria t) (native_cells t) c = Some (p, nc) /\
      n_children nc !! k = Some native_child /\
      get_native_cell (native_tria t) (native_cells t) child
        = Some (p ++ [k], native_child).
Proof.
  intros H j c k child Hc Hk.
  destruct (reinit_cells_final _ H) as (Hnative & c0 & _ & Hfinal).
  apply reinit_Ok_inv in H as (coarse & s & keyed & Hbuild & _ & ->).
  cbn [coarse_cells native_cells native_tria] in *.
  pose proof (reinit_overlapping_tria_children _ _ _ Hbuild j) as Hch.
  rewrite Forall_forall in Hch. destruct (Hch c Hc) as (p & Hp & Hpaths).
  destruct (Hfinal j) as [HF _]. rewrite Forall_forall in HF.
  destruct (HF c Hc) as (p' & nc & Hlink & _).
  pose proof Hlink as (Hget & _). apply linked_lookup in Hlink as [Hp' Hnc].
  assert (p' = p) as -> by congruence.
  assert (child ∈ cells coarse (S j)) as Hchild.
  { rewrite o_cell_iterators_on_level_S. apply list_elem_of_bind. exists c.
    split; [eapply list_elem_of_lookup_2; exact Hk|exact Hc]. }
  destruct (Hfinal (S j)) as [HF' _]. rewrite Forall_forall in HF'.
  destruct (HF' child Hchild) as (q & native_child & Hlink' & _).
  pose proof Hlink' as (Hget' & _). apply linked_lookup in Hlink' as [Hq Hnchild].
  assert (q = p ++ [k]) as ->.
  { assert (level_paths (bs_native_cells s) (o_children c) !! k = Some (Some q)) as Hlk
      by (unfold level_paths; rewrite list_lookup_fmap, Hk; cbn; rewrite Hq; reflexivity).
    rewrite Hpaths, list_lookup_fmap in Hlk.
    destruct (seq 0 (length (o_children c)) !! k) as [i|] eqn:Hi; [|discriminate].
    apply lookup_seq in Hi as [-> _]. cbn in Hlk. congruence. }
  exists p, nc, native_child. split; [exact Hget|]. split; [|exact Hget'].
  destruct p as [|i p]; [discriminate|]. cbn [n_cell_at app] in Hnc, Hnchild.
  destruct (n_coarse_cells native !! i) as [cc|]; [|discriminate].
  cbn in Hnc, Hnchild. rewrite n_descend_app, Hnc in Hnchild. cbn in Hnchild.
  destruct (n_children nc !! k) as [ch|]; [|discriminate]. exact Hnchild.
Qed.

(** X11: the children of a locally owned cell of the overlap mesh refer to
    the children of its native cell, child by child: child [k] of a locally
    owned cell whose native cell is at [p] refers to child [k] of that native
    cell, at [p ++ [k]], and lies one level below its parent. *)
Theorem children_refer_to_native_children (t : OverlapTriangulation) :
  reinit = Ok t ->
  forall j c k child,
    c ∈ cells (coarse_cells t) j ->
    is_locally_owned c = true ->
    o_children c !! k = Some child ->
    child ∈ cells (coarse_cells t) (S j) /\
    exists p nc native_child,
      get_native_cell (native_tria t) (native_cells t) c = Some (p, nc) /\
      n_children nc !! k = Some native_child /\
      get_native_cell (native_tria t) (native_cells t) child
        = Some (p ++ [k], native_child).
Proof.
  intros H j c k child Hc _ Hk. split.
  - rewrite o_cell_iterators_on_level_S. apply list_elem_of_bind. exists c.
    split; [eapply list_elem_of_lookup_2; exact Hk|exact Hc].
  - eapply child_refers_to_native_child; eassumption.
Qed.

(** *** The coarse cells *)

Lemma seed_level_paths c0 sel vertices sub s coarse s' :
  (forall p nc, (p, nc) ∈ sel -> n_cell_at native p = Some nc /\ length p = S c0) ->
  vertices = get_vertices native ->
  bs_native_cells s = sel.*1 ->
  on_level 0 resolve_seed_cell
    (create_triangulation vertices
       (imap (fun k pc => mkCellData (n_vertex_indices pc.2) (N.of_nat k)
                            flat_manifold_id 0) sel) sub) s = Ok (coarse, s') ->
  level_paths (bs_native_cells s) coarse = Some <$> sel.*1.
Proof using Type.
  intros Hsel -> Htable H. apply on_level_cells in H.
  rewrite !o_cell_iterators_on_level_0 in H.
  apply mapM_st_pure_Forall2 in H as [-> HF]; [|apply resolve_seed_cell_pure].
  assert (length coarse = length sel) as Hlen.
  { apply Forall2_length in HF. unfold create_triangulation in HF.
    rewrite length_fmap, length_imap in HF. congruence. }
  apply list_eq. intros k. unfold level_paths. rewrite !list_lookup_fmap.
  destruct (coarse !! k) as [c|] eqn:Hk.
  - eapply Forall2_lookup_r in HF as (x & Hx & Hres); [|exact Hk].
    unfold create_triangulation in Hx. rewrite list_lookup_fmap, list_lookup_imap in Hx.
    destruct (sel !! k) as [[p nc]|] eqn:Hsk; [|discriminate]. simpl in Hx.
    injection Hx as <-. unfold resolve_seed_cell in Hres. inv_M. subst.
    simpl. rewrite Nat2N.id, Htable, list_lookup_fmap, Hsk. reflexivity.
  - apply lookup_ge_None in Hk. rewrite Hlen in Hk.
    apply lookup_ge_None in Hk. rewrite Hk. reflexivity.
Qed.

(** One pass of the loop leaves the back-references of the levels it has
    reached as they are. *)
Lemma level_step_paths c0 l coarse s coarse' s' :
  build_inv c0 l (bs_native_cells s) coarse ->
  level_step l coarse s = Ok (coarse', s') ->
  forall j, j <= l ->
    level_paths (bs_native_cells s') (cells coarse' j) =
    level_paths (bs_native_cells s) (cells coarse j).
Proof.
  intros (Hfinal & Hfresh & Hnodup) H. unfold level_step in H.
  set (table := bs_native_cells s) in *.
  apply bindM_Ok in H as (u & s0 & Hs0 & H). apply set_refined_Ok in Hs0.
  apply bindM_Ok in H as (coarse1 & s1 & Hmark & H).
  pose proof (on_level_cells _ _ _ _ _ _ Hmark) as Hmark_cells.
  assert (bs_native_cells s0 = table) as Ht0 by (subst s0; reflexivity).
  destruct (mark_cells_spec _ _ _ _ _ _ _ Hfresh Ht0 Hmark_cells)
    as (Hmarked & Ht1 & Hr1).
  assert (bs_refined s0 = false) as Hr0 by (subst s0; reflexivity).
  rewrite Hr0 in Hr1. simpl in Hr1.
  assert (forall j, j < l -> Forall2 same_cell (cells coarse j) (cells coarse1 j))
    as Hsame1 by (intros j Hj; eapply on_level_above; eassumption).
  apply bindM_Ok in H as (s1' & s1'' & Hget & H). apply getM_Ok in Hget as [-> ->].
  destruct (bs_refined s1) eqn:Hrefined.
  - apply bindM_Ok in H as (coarse2 & s2 & Hrefine & H).
    pose proof (on_level_cells _ _ _ _ _ _ Hrefine) as Hrefine_cells.
    rewrite mapM_st_ret in Hrefine_cells. injection Hrefine_cells as Hcells2 <-.
    pose proof (on_level_cells _ _ _ _ _ _ H) as Hpair_cells.
    rewrite <- Hcells2 in Hpair_cells.
    assert (bs_native_cells s1 = table ++ []) as Ht1' by (rewrite app_nil_r; exact Ht1).
    destruct (pair_cells_spec _ _ _ _ _ Hmarked Hfresh _ _ _ _ Ht1' Hpair_cells)
      as (ext & Ht & Hr & Hfins & Hfrs & Hps & Hoks).
    rewrite Ht1 in Ht.
    assert (forall j, j < l -> Forall2 same_cell (cells coarse j) (cells coarse' j))
      as Hsame.
    { intros j Hj. eapply Forall2_same_cell_trans; [apply Hsame1; exact Hj|].
      eapply Forall2_same_cell_trans; eapply on_level_above; eassumption. }
    intros j Hj. destruct (decide (j = l)) as [->|Hne]; [exact Hps|].
    assert (j < l) as Hjl by lia.
    rewrite <- (level_paths_same _ _ _ (Hsame j Hjl)), Ht.
    apply level_paths_app.
    eapply Forall_impl; [apply Hfinal; exact Hjl|]. intros c.
    apply final_cell_lookup.
  - apply retM_Ok in H as [<- <-]. rewrite Ht1.
    symmetry in Hr1.
    destruct (unflagged_cells_spec _ _ _ _ _ Hmarked Hfresh Hr1) as (Hfins & Hchs & Hps).
    intros j Hj. destruct (decide (j = l)) as [->|Hne]; [exact Hps|].
    assert (j < l) as Hjl by lia.
    symmetry. apply level_paths_same, Hsame1. exact Hjl.
Qed.

Lemma for_levels_paths c0 n l coarse s coarse' s' :
  build_inv c0 l (bs_native_cells s) coarse ->
  for_levels (seq l n) coarse s = Ok (coarse', s') ->
  forall j, j <= l ->
    level_paths (bs_native_cells s') (cells coarse' j) =
    level_paths (bs_native_cells s) (cells coarse j).
Proof.
  revert l coarse s. induction n as [|n IH]; intros l coarse s Hinv H j Hj; simpl in H.
  - apply retM_Ok in H as [<- <-]. reflexivity.
  - apply bindM_Ok in H as (coarse1 & s1 & Hstep & H).
    rewrite <- (level_step_paths _ _ _ _ _ _ Hinv Hstep j Hj).
    apply (level_step_spec _ _ _ _ _ _ Hinv) in Hstep.
    eapply IH; [exact Hstep|exact H|lia].
Qed.

Lemma reinit_overlapping_tria_seed s coarse s' :
  reinit_overlapping_tria s = Ok (coarse, s') ->
  exists c0,
    find_coarsest_level (seq 0 (n_levels native)) = Some c0 /\
    level_paths (bs_native_cells s') coarse =
    Some <$> (select_intersecting (n_cell_iterators_on_level native c0)).*1.
Proof.
  unfold reinit_overlapping_tria. intros H.
  apply bindM_Ok in H as (u & s0 & Hput & H). injection Hput as <- <-.
  apply bindM_Ok in H as (u' & s0' & Hassert & H).
  apply Assert_Ok in Hassert as [Hsome <-]. apply bool_decide_eq_true in Hsome.
  destruct Hsome as [c0 Hc0]. rewrite Hc0 in H. simpl in H. exists c0.
  split; [exact Hc0|].
  apply bindM_Ok in H as (seed & s1 & Hseed & H).
  apply collect_seed_cells_spec in Hseed as (Ht1 & _ & Hcds). simpl in Ht1, Hcds.
  apply bindM_Ok in H as (coarse0 & s2 & Hresolve & H).
  rewrite Hcds in Hresolve.
  assert (forall p nc,
            (p, nc) ∈ select_intersecting (n_cell_iterators_on_level native c0) ->
            n_cell_at native p = Some nc /\ length p = S c0) as Hsel.
  { intros p nc Hpnc. apply list_elem_of_filter in Hpnc as [_ Hpnc].
    apply elem_of_n_cell_iterators_on_level in Hpnc. exact Hpnc. }
  pose proof (seed_level_paths c0 _ _ _ _ _ _ Hsel eq_refl Ht1 Hresolve) as Hpaths.
  eapply (seed_level_inv c0) in Hresolve as [-> Hinv];
    [|exact Hsel| |reflexivity|exact Ht1].
  2:{ apply NoDup_fmap_2_strong.
      - intros [p nc] [p' nc'] Hx Hy Heq. simpl in Heq. subst p'.
        apply Hsel in Hx as [Hx _]. apply Hsel in Hy as [Hy _]. congruence.
      - apply NoDup_filter, NoDup_n_cell_iterators_on_level. }
  pose proof (for_levels_paths c0 _ 0 _ _ _ _ Hinv H 0 (Nat.le_refl 0)) as Hkeep.
  rewrite !o_cell_iterators_on_level_0 in Hkeep. rewrite Hkeep. exact Hpaths.
Qed.

(** The coarse cells refer, one by one, to the cells of the seed level that
    intersect the patches, in the order in which the level is listed. *)
Lemma coarse_cells_refer_to_selected (t : OverlapTriangulation) :
  reinit = Ok t ->
  exists c0,
    find_coarsest_level (seq 0 (n_levels native)) = Some c0 /\
    Forall2 (fun c pc =>
               get_native_cell (native_tria t) (native_cells t) c = Some pc)
      (coarse_cells t)
      (select_intersecting (n_cell_iterators_on_level native c0)).
Proof.
  intros H. apply reinit_Ok_inv in H as (coarse & s & keyed & Hbuild & _ & ->).
  cbn [coarse_cells native_cells native_tria].
  destruct (reinit_overlapping_tria_seed _ _ _ Hbuild) as (c0 & Hfind & Hpaths).
  exists c0. split; [exact Hfind|].
  set (sel := select_intersecting (n_cell_iterators_on_level native c0)) in *.
  assert (forall p nc, (p, nc) ∈ sel -> n_cell_at native p = Some nc) as Hsel.
  { intros p nc Hpnc. apply list_elem_of_filter in Hpnc as [_ Hpnc].
    apply elem_of_n_cell_iterators_on_level in Hpnc as [Hpnc _]. exact Hpnc. }
  apply Forall2_same_length_lookup. split.
  - apply (f_equal length) in Hpaths. unfold level_paths in Hpaths.
    rewrite !length_fmap in Hpaths. exact Hpaths.
  - intros k c [p nc] Hc Hpc.
    apply (f_equal (fun l => l !! k)) in Hpaths. unfold level_paths in Hpaths.
    rewrite !list_lookup_fmap, Hc, Hpc in Hpaths. cbn in Hpaths.
    injection Hpaths as Hp. unfold get_native_cell. rewrite Hp. cbn.
    rewrite (Hsel p nc) by (eapply list_elem_of_lookup_2; exact Hpc). reflexivity.
Qed.

(** X12: the coarse cells of the overlap mesh are copies of the cells of the
    native level [c0], active or not, that intersect the patches, where [c0]
    is the coarsest level with an active cell that intersects the patches:
    every coarse cell refers to such a cell and has its vertices, every such
    cell has a coarse cell that refers to it, no two coarse cells refer to
    the same cell, and there are as many coarse cells as such cells. *)
Theorem coarse_cells_are_intersecting_cells (t : OverlapTriangulation) :
  reinit = Ok t ->
  exists c0,
    level_has_intersecting_active_cell c0 = true /\
    (forall l, l < c0 -> level_has_intersecting_active_cell l = false) /\
    (forall c, c ∈ coarse_cells t ->
       exists p nc,
         get_native_cell (native_tria t) (native_cells t) c = Some (p, nc) /\
         (p, nc) ∈ n_cell_iterators_on_level native c0 /\
         intersects_patches (n_vertices native nc) = true /\
         o_vertices c = n_vertices native nc) /\
    (forall p nc,
       (p, nc) ∈ n_cell_iterators_on_level native c0 ->
       intersects_patches (n_vertices native nc) = true ->
       exists c, c ∈ coarse_cells t /\
         get_native_cell (native_tria t) (native_cells t) c = Some (p, nc)) /\
    NoDup (get_native_cell (native_tria t) (native_cells t) <$> coarse_cells t) /\
    length (coarse_cells t) =
      length (filter (fun pc => intersects_patches (n_vertices native pc.2) = true)
                (n_cell_iterators_on_level native c0)).
Proof.
  intros H.
  destruct (reinit_cells_final _ H) as (Hnative & c0' & Hfind' & Hfinal).
  destruct (coarse_cells_refer_to_selected t H) as (c0 & Hfind & Hcells).
  assert (c0' = c0) as -> by congruence.
  exists c0. apply find_coarsest_level_first in Hfind as (_ & Hhit & Hbefore).
  split; [exact Hhit|]. split; [intros l Hl; apply Hbefore; lia|].
  fold (select_intersecting (n_cell_iterators_on_level native c0)).
  set (sel := select_intersecting (n_cell_iterators_on_level native c0)) in *.
  split; [|split; [|split]].
  - intros c Hc. apply list_elem_of_lookup in Hc as [k Hk].
    destruct (Forall2_lookup_l _ _ _ _ _ Hcells Hk) as ([p nc] & Hpc & Hget).
    exists p, nc. split; [exact Hget|].
    apply list_elem_of_lookup_2 in Hpc. pose proof Hpc as Hin.
    apply list_elem_of_filter in Hin as [Hhits Hin]. cbn [snd] in Hhits.
    split; [exact Hin|]. split; [exact Hhits|].
    destruct (Hfinal 0) as [HF _]. rewrite o_cell_iterators_on_level_0 in HF.
    rewrite Forall_forall in HF.
    destruct (HF c (list_elem_of_lookup_2 _ _ _ Hk)) as (p' & nc' & Hlink & _).
    destruct Hlink as (Hget' & _ & _ & Hgeo). cbn in Hgeo.
    rewrite Hnative in Hget. congruence.
  - intros p nc Hin Hhits.
    assert ((p, nc) ∈ sel) as Hpc
      by (apply list_elem_of_filter; split; [exact Hhits|exact Hin]).
    apply list_elem_of_lookup in Hpc as [k Hk].
    destruct (Forall2_lookup_r _ _ _ _ _ Hcells Hk) as (c & Hc & Hget).
    exists c. split; [eapply list_elem_of_lookup_2; exact Hc|exact Hget].
  - assert (get_native_cell (native_tria t) (native_cells t) <$> coarse_cells t =
            Some <$> sel) as ->.
    { apply Forall2_fmap_eq. apply Forall2_flip. exact Hcells. }
    apply (NoDup_fmap_2 Some), NoDup_filter, NoDup_n_cell_iterators_on_level.
  - exact (Forall2_length _ _ _ Hcells).
Qed.

(** *** All cells, and the faces of the coarse cells *)

(** The subcell data collected for the cells of a native level, in closed
    form. *)
Lemma collect_seed_cells_subcell_data lc s r s' :
  collect_seed_cells lc s = Ok (r, s') ->
  r.2 =
  if decide (dim = 2)
  then mkSubCellData
         (select_intersecting lc ≫=
            (fun pc => (fun f : NativeFace =>
                          mkCellData (f_vertex_indices f) 0 (f_manifold_id f)
                            (f_boundary_id f)) <$> n_faces pc.2)) []
  else if decide (dim = 3)
       then mkSubCellData
              (select_intersecting lc ≫=
                 (fun pc => n_faces pc.2 ≫=
                    (fun f => (fun l : NativeLine =>
                                 mkCellData (l_vertex_indices l) 0 (l_manifold_id l)
                                   (l_boundary_id l)) <$> f_lines f)))
              (select_intersecting lc ≫=
                 (fun pc => (fun f : NativeFace =>
                               mkCellData (f_vertex_indices f) 0 (f_manifold_id f)
                                 (f_boundary_id f)) <$> n_faces pc.2))
       else mkSubCellData [] [].
Proof using Type.
  clear n_children_isotropic_pos std_sort_sorts.
  set (line_of := fun l : NativeLine =>
         mkCellData (l_vertex_indices l) 0 (l_manifold_id l) (l_boundary_id l)).
  set (face_of := fun f : NativeFace =>
         mkCellData (f_vertex_indices f) 0 (f_manifold_id f) (f_boundary_id f)).
  set (lines_of := fun faces : list NativeFace =>
                     faces ≫= (fun f => line_of <$> f_lines f)).
  assert (forall faces : list NativeFace,
            foldr append_subcell_data (mkSubCellData [] [])
              (face_subcell_data dim <$> faces) =
            if decide (dim = 2) then mkSubCellData (face_of <$> faces) []
            else if decide (dim = 3)
                 then mkSubCellData (lines_of faces) (face_of <$> faces)
                 else mkSubCellData [] []) as Hfaces.
  { induction faces as [|f faces IH].
    - cbn. repeat destruct (decide _); reflexivity.
    - rewrite fmap_cons. cbn [foldr]. rewrite IH. unfold face_subcell_data, lines_of.
      rewrite bind_cons.
      repeat destruct (decide _); reflexivity. }
  revert s r s'. induction lc as [|[p cell] lc IH]; intros s r s' H.
  - cbn in H. apply retM_Ok in H as [<- <-]. cbn.
    repeat destruct (decide _); reflexivity.
  - unfold select_intersecting. cbn [collect_seed_cells] in H.
    destruct (intersects_patches (n_vertices native cell)) eqn:Hcell.
    + rewrite filter_cons_True by exact Hcell.
      apply bindM_Ok in H as (slot & s0 & _ & H).
      apply bindM_Ok in H as (r0 & s1 & Hrest & H).
      apply retM_Ok in H as [<- <-]. cbn [snd fst].
      rewrite (IH _ _ _ Hrest), Hfaces, !bind_cons.
      unfold select_intersecting.
      repeat destruct (decide _); reflexivity.
    + rewrite filter_cons_False by (cbn; rewrite Hcell; discriminate).
      exact (IH _ _ _ H).
Qed.

(** X14: what [create_triangulation] is given besides the cells. In two
    dimensions one boundary line for every face of every coarse cell, with
    the vertex indices, the manifold id and the boundary id of the face, and
    no quads; in three dimensions one boundary quad for every face, and one
    boundary line for every line of every face. *)
Theorem seed_subcell_data_lists_faces lc s r s' :
  collect_seed_cells lc s = Ok (r, s') ->
  let line_of := fun l : NativeLine =>
    mkCellData (l_vertex_indices l) 0 (l_manifold_id l) (l_boundary_id l) in
  let face_of := fun f : NativeFace =>
    mkCellData (f_vertex_indices f) 0 (f_manifold_id f) (f_boundary_id f) in
  (dim = 2 ->
     boundary_lines r.2 =
       select_intersecting lc ≫= (fun pc => face_of <$> n_faces pc.2) /\
     boundary_quads r.2 = []) /\
  (dim = 3 ->
     boundary_quads r.2 =
       select_intersecting lc ≫= (fun pc => face_of <$> n_faces pc.2) /\
     boundary_lines r.2 =
       select_intersecting lc ≫=
         (fun pc => n_faces pc.2 ≫= (fun f => line_of <$> f_lines f))).
Proof using Type.
  clear n_children_isotropic_pos std_sort_sorts.
  intros H line_of face_of.
  rewrite (collect_seed_cells_subcell_data _ _ _ _ H). split; intros Hdim.
  - destruct (decide (dim = 2)); [|contradiction]. split; reflexivity.
  - destruct (decide (dim = 2)); [congruence|].
    destruct (decide (dim = 3)); [|contradiction]. split; reflexivity.
Qed.

(** *** The vertices of refined cells *)

Local Abbreviation refines_as_native := (refines_as_native child_vertices native).
Local Abbreviation children_vertices_ok := (children_vertices_ok child_vertices).
Local Abbreviation refined_by_library := (refined_by_library child_vertices).

Lemma foldr_and_Forall {A} (Q : A -> Prop) (l : list A) :
  foldr (fun x rest => Q x /\ rest) True l <-> Forall Q l.
Proof using Type.
  clear n_children_isotropic_pos std_sort_sorts.
  induction l as [|x l IH]; cbn [foldr].
  - split; [constructor|trivial].
  - rewrite IH. split; [intros [Hx Hl]; constructor; assumption|].
    intros H. apply Forall_cons in H. exact H.
Qed.

Lemma refined_by_library_unfold c :
  refined_by_library c <->
  children_vertices_ok c /\ Forall refined_by_library (o_children c).
Proof using Type.
  clear n_children_isotropic_pos std_sort_sorts.
  rewrite <- foldr_and_Forall. destruct c; reflexivity.
Qed.

Lemma refined_by_library_ext c c' :
  o_vertices c' = o_vertices c -> o_children c' = o_children c ->
  refined_by_library c -> refined_by_library c'.
Proof using Type.
  clear n_children_isotropic_pos std_sort_sorts.
  rewrite !refined_by_library_unfold. unfold children_vertices_ok.
  intros -> ->. trivial.
Qed.

Lemma refined_by_library_leaf c : o_children c = [] -> refined_by_library c.
Proof using Type.
  clear n_children_isotropic_pos std_sort_sorts.
  intros H. apply refined_by_library_unfold. unfold children_vertices_ok.
  rewrite H. split; [|constructor]. exists c. split; reflexivity.
Qed.

(** A cell with the vertices of [c] whose children have the vertices and the
    children of the children of [c]. *)
Lemma refined_by_library_children c c' :
  o_vertices c' = o_vertices c ->
  Forall2 (fun x y => o_vertices y = o_vertices x /\
                      (refined_by_library x -> refined_by_library y))
    (o_children c) (o_children c') ->
  refined_by_library c -> refined_by_library c'.
Proof using Type.
  clear n_children_isotropic_pos std_sort_sorts.
  rewrite !refined_by_library_unfold. intros Hv Hch [(parent & Hp & Hvs) Hall].
  split.
  - exists parent. split; [congruence|].
    rewrite <- (Forall2_length _ _ _ Hch), <- Hvs.
    apply Forall2_fmap_eq. eapply Forall2_impl; [exact Hch|].
    intros x y [Hxy _]. exact Hxy.
  - clear Hvs. induction Hch as [|x y l k [_ Hxy] _ IH]; [constructor|].
    apply Forall_cons in Hall as [Hx Hall]. constructor; auto.
Qed.

Lemma on_level_below_geometry {S} (f : OverlapCell -> M S OverlapCell) l :
  (forall c s c' s', f c s = Ok (c', s') ->
     o_vertices c' = o_vertices c /\ (refined_by_library c -> refined_by_library c')) ->
  forall c s c' s', on_level_below l f c s = Ok (c', s') ->
    o_vertices c' = o_vertices c /\ (refined_by_library c -> refined_by_library c').
Proof using Type.
  clear n_children_isotropic_pos std_sort_sorts.
  intros Hf. induction l as [|l IH]; intros c s c' s'; cbn [on_level_below].
  - apply Hf.
  - rewrite bindM_Ok. intros (cs & s1 & Hcs & H). apply retM_Ok in H as [<- <-].
    apply mapM_st_Forall2 in Hcs. split; [reflexivity|].
    apply refined_by_library_children; [reflexivity|]. cbn [o_children set_children].
    eapply Forall2_impl; [exact Hcs|]. intros x y (s2 & s3 & Hxy). cbn beta in Hxy.
    eapply IH. exact Hxy.
Qed.

Lemma on_level_geometry {S} (f : OverlapCell -> M S OverlapCell) l coarse s coarse' s' :
  (forall c s c' s', f c s = Ok (c', s') ->
     o_vertices c' = o_vertices c /\ (refined_by_library c -> refined_by_library c')) ->
  on_level l f coarse s = Ok (coarse', s') ->
  Forall refined_by_library coarse -> Forall refined_by_library coarse'.
Proof using Type.
  clear n_children_isotropic_pos std_sort_sorts.
  intros Hf H. unfold on_level in H. apply mapM_st_Forall2 in H.
  induction H as [|x y l1 l2 (s2 & s3 & Hxy) _ IH]; intros Hall; [constructor|].
  apply Forall_cons in Hall as [Hx Hall]. constructor; [|auto].
  eapply on_level_below_geometry in Hxy as [_ Hxy]; [auto|exact Hf].
Qed.

(** No loop of the construction moves a vertex, and all children come from
    [execute_coarsening_and_refinement]. *)
Lemma keeps_vertices_and_children c c' :
  o_vertices c' = o_vertices c -> o_children c' = o_children c ->
  o_vertices c' = o_vertices c /\ (refined_by_library c -> refined_by_library c').
Proof using Type.
  clear n_children_isotropic_pos std_sort_sorts.
  intros Hv Hch. split; [exact Hv|]. apply refined_by_library_ext; assumption.
Qed.

Lemma mark_cell_geometry c s c' s' :
  mark_cell c s = Ok (c', s') ->
  o_vertices c' = o_vertices c /\ (refined_by_library c -> refined_by_library c').
Proof using Type.
  clear n_children_isotropic_pos std_sort_sorts.
  unfold mark_cell. intros H.
  destruct (intersects_patches (o_vertices c)).
  - apply bindM_Ok in H as (r & s0 & _ & H). cbn beta in H.
    destruct (n_has_children r.2); inv_M; subst;
      apply keeps_vertices_and_children; reflexivity.
  - inv_M. subst. apply keeps_vertices_and_children; reflexivity.
Qed.

Lemma refine_flagged_geometry c :
  o_vertices (refine_flagged c) = o_vertices c /\
  (refined_by_library c -> refined_by_library (refine_flagged c)).
Proof using Type.
  clear n_children_isotropic_pos std_sort_sorts.
  unfold refine_flagged. destruct (o_refine_flag c); [|split; trivial].
  split; [reflexivity|]. intros _. apply refined_by_library_unfold.
  unfold children_vertices_ok. cbn [o_children set_children set_refine_flag]. split.
  - exists c. split; [reflexivity|].
    rewrite length_fmap, length_seq, <- list_fmap_compose. reflexivity.
  - apply Forall_fmap, Forall_forall. intros k _.
    apply refined_by_library_leaf. reflexivity.
Qed.

Lemma pair_child_geometry native_cell k child s child' s' :
  pair_child native_cell k child s = Ok (child', s') ->
  o_vertices child' = o_vertices child /\ o_children child' = o_children child.
Proof using Type.
  clear n_children_isotropic_pos std_sort_sorts.
  unfold pair_child. intros H. inv_M. subst.
  match goal with |- context [n_is_active ?x] => destruct (n_is_active x) end;
    split; reflexivity.
Qed.

Lemma pair_children_from_geometry native_cell k children s children' s' :
  pair_children_from native_cell k children s = Ok (children', s') ->
  Forall2 (fun x y => o_vertices y = o_vertices x /\
                      (refined_by_library x -> refined_by_library y))
    children children'.
Proof using Type.
  clear n_children_isotropic_pos std_sort_sorts.
  revert k s children' s'.
  induction children as [|child children IH]; intros k s children' s' H;
    cbn [pair_children_from] in H.
  - apply retM_Ok in H as [<- _]. constructor.
  - apply bindM_Ok in H as (child' & s1 & Hchild & H).
    apply bindM_Ok in H as (rest & s2 & Hrest & H). apply retM_Ok in H as [<- _].
    constructor; [|eapply IH; exact Hrest].
    apply pair_child_geometry in Hchild as [Hv Hch].
    apply keeps_vertices_and_children; assumption.
Qed.

Lemma pair_children_geometry c s c' s' :
  pair_children c s = Ok (c', s') ->
  o_vertices c' = o_vertices c /\ (refined_by_library c -> refined_by_library c').
Proof using Type.
  clear n_children_isotropic_pos std_sort_sorts.
  unfold pair_children. intros H. destruct (o_has_children c).
  - apply bindM_Ok in H as (r & s0 & _ & H).
    apply bindM_Ok in H as (children & s1 & Hchildren & H).
    apply retM_Ok in H as [<- _]. split; [reflexivity|].
    apply refined_by_library_children; [reflexivity|].
    cbn [o_children set_children].
    eapply pair_children_from_geometry. exact Hchildren.
  - apply retM_Ok in H as [<- _]. split; trivial.
Qed.

Lemma resolve_seed_cell_geometry c s c' s' :
  resolve_seed_cell c s = Ok (c', s') ->
  o_vertices c' = o_vertices c /\ (refined_by_library c -> refined_by_library c').
Proof using Type.
  clear n_children_isotropic_pos std_sort_sorts.
  unfold resolve_seed_cell. intros H. inv_M. subst.
  apply keeps_vertices_and_children; reflexivity.
Qed.

Lemma level_step_geometry l coarse s coarse' s' :
  level_step l coarse s = Ok (coarse', s') ->
  Forall refined_by_library coarse -> Forall refined_by_library coarse'.
Proof using Type.
  clear n_children_isotropic_pos std_sort_sorts.
  unfold level_step. intros H Hall.
  apply bindM_Ok in H as (u & s0 & _ & H).
  apply bindM_Ok in H as (coarse1 & s1 & Hmark & H).
  eapply on_level_geometry in Hmark; [|apply mark_cell_geometry|exact Hall].
  apply bindM_Ok in H as (s1' & s1'' & _ & H).
  destruct (bs_refined s1').
  - apply bindM_Ok in H as (coarse2 & s2 & Hrefine & H).
    eapply on_level_geometry in Hrefine; [| |exact Hmark].
    2:{ intros c sa c' sb Hc. apply retM_Ok in Hc as [<- _].
        apply refine_flagged_geometry. }
    eapply on_level_geometry in H; [exact H|apply pair_children_geometry|exact Hrefine].
  - apply retM_Ok in H as [<- _]. exact Hmark.
Qed.

Lemma for_levels_geometry levels coarse s coarse' s' :
  for_levels levels coarse s = Ok (coarse', s') ->
  Forall refined_by_library coarse -> Forall refined_by_library coarse'.
Proof using Type.
  clear n_children_isotropic_pos std_sort_sorts.
  revert coarse s. induction levels as [|l levels IH]; intros coarse s H Hall;
    cbn [for_levels] in H.
  - apply retM_Ok in H as [<- _]. exact Hall.
  - apply bindM_Ok in H as (coarse1 & s1 & Hstep & H).
    eapply IH; [exact H|]. eapply level_step_geometry; eassumption.
Qed.

Lemma refined_by_library_below j c c' :
  refined_by_library c -> c' ∈ o_cells_below j c -> refined_by_library c'.
Proof using Type.
  clear n_children_isotropic_pos std_sort_sorts.
  revert c. induction j as [|j IH]; intros c Hc Hin; cbn [o_cells_below] in Hin.
  - apply list_elem_of_singleton in Hin as ->. exact Hc.
  - apply list_elem_of_bind in Hin as (child & Hin & Hchild).
    apply refined_by_library_unfold in Hc as [_ Hall].
    rewrite Forall_forall in Hall. eapply IH; [apply Hall; exact Hchild|exact Hin].
Qed.

(** In the mesh that [reinit_overlapping_tria] leaves, the children of every
    cell have the vertices that refinement gives them. *)
Lemma reinit_overlapping_tria_geometry s coarse s' :
  reinit_overlapping_tria s = Ok (coarse, s') ->
  forall j c, c ∈ cells coarse j -> children_vertices_ok c.
Proof using Type.
  clear n_children_isotropic_pos std_sort_sorts.
  unfold reinit_overlapping_tria. intros H.
  apply bindM_Ok in H as (u & s0 & _ & H).
  apply bindM_Ok in H as (u' & s0' & _ & H).
  apply bindM_Ok in H as (seed & s1 & _ & H).
  apply bindM_Ok in H as (coarse0 & s2 & Hresolve & H).
  eapply on_level_geometry in Hresolve; [|apply resolve_seed_cell_geometry|].
  2:{ unfold create_triangulation. apply Forall_fmap, Forall_forall. intros cd _.
      apply refined_by_library_leaf. reflexivity. }
  eapply for_levels_geometry in H; [|exact Hresolve].
  intros j c Hc. unfold o_cell_iterators_on_level in Hc.
  apply list_elem_of_bind in Hc as (c1 & Hc & Hc1).
  rewrite Forall_forall in H.
  apply (refined_by_library_below j c1 c (H c1 Hc1)) in Hc.
  apply refined_by_library_unfold in Hc as [Hc _]. exact Hc.
Qed.

(** When deal.II refines as it refined the native mesh, every cell has the
    vertices of the native cell it refers to. *)
Lemma cells_have_native_vertices (t : OverlapTriangulation) :
  refines_as_native ->
  reinit = Ok t ->
  forall j c, c ∈ cells (coarse_cells t) j ->
    exists p nc,
      get_native_cell (native_tria t) (native_cells t) c = Some (p, nc) /\
      o_vertices c = n_vertices native nc.
Proof.
  intros Hrefines H.
  pose proof (child_refers_to_native_child t H) as Hchild.
  destruct (reinit_cells_final _ H) as (Hnative & c0 & _ & Hfinal).
  assert (forall j c, c ∈ cells (coarse_cells t) j -> children_vertices_ok c) as Hgeo.
  { apply reinit_Ok_inv in H as (coarse & s & keyed & Hbuild & _ & ->).
    cbn [coarse_cells]. eapply reinit_overlapping_tria_geometry. exact Hbuild. }
  induction j as [|j IH]; intros c Hc.
  - destruct (Hfinal 0) as [HF _]. rewrite Forall_forall in HF.
    destruct (HF c Hc) as (p & nc & (Hget & _ & _ & Hv) & _).
    exists p, nc. rewrite Hnative. split; [exact Hget|exact Hv].
  - rewrite o_cell_iterators_on_level_S in Hc.
    apply list_elem_of_bind in Hc as (parent & Hc & Hparent).
    apply list_elem_of_lookup in Hc as [k Hk].
    destruct (IH parent Hparent) as (p & nc & Hget & Hv).
    destruct (Hchild j parent k c Hparent Hk)
      as (p' & nc' & native_child & Hget' & Hnk & Hgetc).
    assert (p' = p /\ nc' = nc) as [-> ->] by (split; congruence).
    exists (p ++ [k]), native_child. split; [exact Hgetc|].
    destruct (Hgeo j parent Hparent) as (parent' & Hsame & Hvs).
    apply (f_equal (fun l => l !! k)) in Hvs.
    rewrite !list_lookup_fmap, Hk in Hvs.
    rewrite (lookup_seq_lt 0 (length (o_children parent)) k) in Hvs
      by (eapply lookup_lt_Some; exact Hk).
    cbn in Hvs. injection Hvs as ->.
    apply (Hrefines p nc parent' k native_child).
    + rewrite Hnative in Hget. eapply get_native_cell_at. exact Hget.
    + congruence.
    + exact Hnk.
Qed.

(** The run of the first loop inside a successful [reinit]. *)
Lemma reinit_seed_run (t : OverlapTriangulation) :
  reinit = Ok t ->
  exists c0 seed s1,
    find_coarsest_level (seq 0 (n_levels native)) = Some c0 /\
    collect_seed_cells (n_cell_iterators_on_level native c0) (mkBuildState [] false)
      = Ok (seed, s1).
Proof using Type.
  clear n_children_isotropic_pos std_sort_sorts.
  intros H. apply reinit_Ok_inv in H as (coarse & s & keyed & Hbuild & _ & _).
  unfold reinit_overlapping_tria in Hbuild.
  apply bindM_Ok in Hbuild as (u & s0 & Hput & H). injection Hput as <- <-.
  apply bindM_Ok in H as (u' & s0' & Hassert & H).
  apply Assert_Ok in Hassert as [Hsome <-]. apply bool_decide_eq_true in Hsome.
  destruct Hsome as [c0 Hc0]. rewrite Hc0 in H. cbn [default] in H.
  apply bindM_Ok in H as (seed & s1 & Hseed & _).
  exists c0, seed, s1. split; [exact Hc0|exact Hseed].
Qed.


End BuildProperties.

(** ** The construction on a concrete mesh *)

Section ExampleProperties.

Import Example.

Lemma key_le_total {A} (key : A -> nat) : Total (key_le key).
Proof. intros a b. unfold key_le. lia. Qed.

Lemma key_le_trans {A} (key : A -> nat) : Transitive (key_le key).
Proof. intros a b c. unfold key_le. lia. Qed.

Lemma example_std_sort_sorts : sorts_by_key std_sort.
Proof.
  intros A key l. unfold std_sort. split.
  - apply merge_sort_Permutation.
  - apply (@StronglySorted_merge_sort _ (key_le key) _ (key_le_trans key)
             (key_le_total key)).
Qed.

(** With a patch away from the mesh the construction ends with
    [ExcInternalError]. *)
Lemma reinit_fails_without_intersecting_cell_witness :
  reinit 2 2 bounding_box barycenters_agree 4 child_vertices std_sort native
    [box2 40 40 44 44] = Throw ExcInternalError.
Proof.
  apply (reinit_fails_without_intersecting_cell 2 2 bounding_box barycenters_agree
           4 child_vertices std_sort native [box2 40 40 44 44]).
  apply no_intersecting_cell_by_search. vm_compute. reflexivity.
Defined.

Lemma built_Ok :
  reinit 2 2 bounding_box barycenters_agree 4 child_vertices std_sort native patches
  = Ok built_tria.
Proof. vm_compute. reflexivity. Qed.

(** The mesh [built_tria] (two patches, three native levels) is as the
    theorem says. *)
Lemma reinit_subdomain_ids_and_cached_order_witness :
  (forall j c, c ∈ o_cell_iterators_on_level (coarse_cells built_tria) j ->
     (o_subdomain_id c = 0%N \/ o_subdomain_id c = artificial_subdomain_id) /\
     is_locally_owned c = resident 2 bounding_box patches c) /\
  StronglySorted
    (fun a b => native_active_cell_index built_tria a <=
                native_active_cell_index built_tria b)
    (cell_iterators_in_active_native_order built_tria).
Proof.
  pose proof (reinit_subdomain_ids_and_cached_order 2 2 bounding_box
                barycenters_agree 4 child_vertices std_sort native patches
                ltac:(lia) example_std_sort_sorts built_tria built_Ok)
    as (_ & H1 & _ & _ & H2).
  split; [exact H1|exact H2].
Defined.

(** The native cells of the concrete mesh are the quadrants that
    [child_vertices] computes. *)
Lemma example_refines_as_native : refines_as_native child_vertices native.
Proof.
  intros p nc c i child Hat Hv Hchild.
  assert (forall vs, o_vertices c = vs ->
            child_vertices c i =
            child_vertices (mkOverlapCell vs 0 0 0 0 false []) i) as Hc
    by (intros vs <-; reflexivity).
  rewrite (Hc _ Hv). clear Hc Hv c.
  destruct p as [|a p]; [discriminate|].
  destruct a as [|[|a]]; [| |discriminate].
  - (* below the left coarse cell: no cell has children *)
    destruct p as [|b p]; [|destruct b; discriminate].
    injection Hat as <-. destruct i; discriminate.
  - (* the right coarse cell and the cells below *)
    destruct p as [|b p].
    { injection Hat as <-.
      do 4 (destruct i as [|i]; [injection Hchild as <-; vm_compute; reflexivity|]).
      discriminate. }
    destruct b as [|[|[|[|b]]]]; [| | | |discriminate].
    + destruct p as [|d p]; [|destruct d; discriminate].
      injection Hat as <-. destruct i; discriminate.
    + destruct p as [|d p].
      { injection Hat as <-.
        do 4 (destruct i as [|i]; [injection Hchild as <-; vm_compute; reflexivity|]).
        discriminate. }
      destruct d as [|[|[|[|d]]]]; [| | | |discriminate];
        (destruct p as [|e p]; [|destruct e; discriminate]);
        injection Hat as <-; destruct i; discriminate.
    + destruct p as [|d p]; [|destruct d; discriminate].
      injection Hat as <-. destruct i; discriminate.
    + destruct p as [|d p].
      { injection Hat as <-.
        do 4 (destruct i as [|i]; [injection Hchild as <-; vm_compute; reflexivity|]).
        discriminate. }
      destruct d as [|[|[|[|d]]]]; [| | | |discriminate];
        (destruct p as [|e p]; [|destruct e; discriminate]);
        injection Hat as <-; destruct i; discriminate.
Qed.

Lemma two_squares_refine_as_native : refines_as_native child_vertices two_squares.
Proof.
  intros p nc c i child Hat _ Hchild.
  destruct p as [|a p]; [discriminate|].
  destruct a as [|[|a]]; [| |discriminate];
    (destruct p as [|b p]; [|destruct b; discriminate]);
    injection Hat as <-; destruct i; discriminate.
Qed.

Lemma left_tria_Ok :
  reinit 2 2 bounding_box barycenters_agree 4 child_vertices std_sort two_squares
    inner_patch = Ok left_tria.
Proof. vm_compute. reflexivity. Qed.



End ExampleProperties.

(** ** The translation of degrees of freedom *)

Section TranslationProperties.

Variable dim spacedim : nat.
Variable bounding_box : list Point -> BoundingBox.
Variable barycenters_agree : list Point -> list Point -> bool.
Variable n_children_isotropic : nat.
Variable child_vertices : OverlapCell -> nat -> list Point.
Variable std_sort : forall A : Type, (A -> nat) -> list A -> list A.
Variable native : NativeTriangulation.
Variable patch_bboxes : list BoundingBox.

Hypothesis n_children_isotropic_pos : 0 < n_children_isotropic.
Hypothesis std_sort_sorts : sorts_by_key std_sort.

Local Abbreviation reinit :=
  (reinit dim spacedim bounding_box barycenters_agree n_children_isotropic
     child_vertices std_sort native patch_bboxes).
Local Abbreviation required_active_cell_indices :=
  (required_active_cell_indices std_sort).
Local Abbreviation collapse_overlap_to_native := (collapse_overlap_to_native std_sort).
Local Abbreviation compute_overlap_to_native_dof_translation :=
  (compute_overlap_to_native_dof_translation std_sort).

(** *** Step 1 *)

Lemma owned_native_ids_cons_owned t c cells p nc :
  is_locally_owned c = true ->
  get_native_cell (native_tria t) (native_cells t) c = Some (p, nc) ->
  owned_native_ids t (c :: cells) =
  (n_subdomain_id nc, n_active_cell_index nc) :: owned_native_ids t cells.
Proof using Type.
  intros Hown Hget. unfold owned_native_ids. simpl. rewrite Hown, Hget. reflexivity.
Qed.

Lemma owned_native_ids_cons_other t c cells :
  is_locally_owned c = false ->
  owned_native_ids t (c :: cells) = owned_native_ids t cells.
Proof using Type.
  intros Hown. unfold owned_native_ids. simpl. rewrite Hown. reflexivity.
Qed.

Lemma native_active_cell_ids_on_overlap_spec t cells ids0 ids :
  native_active_cell_ids_on_overlap t cells ids0 = Ok ids ->
  forall owner,
    default [] (ids !! owner) =
    default [] (ids0 !! owner) ++
    (filter (fun x => x.1 = owner) (owned_native_ids t cells)).*2.
Proof using Type.
  revert ids0.
  induction cells as [|c cells IH]; intros ids0; cbn [native_active_cell_ids_on_overlap].
  - intros [= <-] owner. simpl. rewrite app_nil_r. reflexivity.
  - destruct (is_locally_owned c) eqn:Hown.
    2:{ rewrite owned_native_ids_cons_other by exact Hown. apply IH. }
    destruct (get_native_cell (native_tria t) (native_cells t) c) as [[p nc]|] eqn:Hget;
      [|discriminate].
    rewrite (owned_native_ids_cons_owned _ _ _ _ _ Hown Hget).
    simpl. intros H owner. rewrite (IH _ H owner).
    destruct (decide (n_subdomain_id nc = owner)) as [<-|Hne].
    + rewrite lookup_insert_eq. simpl. rewrite filter_cons_True by reflexivity.
      rewrite fmap_cons, <- app_assoc. reflexivity.
    + rewrite lookup_insert_ne by exact Hne.
      rewrite filter_cons_False by (simpl; congruence). reflexivity.
Qed.

Lemma native_active_cell_ids_on_overlap_nonempty t cells ids0 ids :
  native_active_cell_ids_on_overlap t cells ids0 = Ok ids ->
  (forall owner l, ids0 !! owner = Some l -> l <> []) ->
  forall owner l, ids !! owner = Some l -> l <> [].
Proof using Type.
  revert ids0. induction cells as [|c cells IH]; intros ids0; simpl.
  - intros [= <-]. auto.
  - destruct (is_locally_owned c); [|apply IH].
    destruct (get_native_cell (native_tria t) (native_cells t) c) as [[p nc]|];
      [|discriminate].
    simpl. intros H H0. eapply IH; [exact H|]. intros owner l.
    destruct (decide (n_subdomain_id nc = owner)) as [<-|Hne].
    + rewrite lookup_insert_eq. intros [= <-] Hnil.
      apply app_eq_nil in Hnil as [_ Hnil]. discriminate.
    + rewrite lookup_insert_ne by exact Hne. apply H0.
Qed.

Lemma native_active_cell_ids_on_overlap_Ok t cells ids0 :
  Forall (fun c => exists p nc,
            get_native_cell (native_tria t) (native_cells t) c = Some (p, nc) /\
            n_is_active nc = true)
         (filter (fun c => is_locally_owned c = true) cells) ->
  exists ids, native_active_cell_ids_on_overlap t cells ids0 = Ok ids.
Proof using Type.
  revert ids0. induction cells as [|c cells IH]; intros ids0 Hcells; simpl.
  - eauto.
  - destruct (is_locally_owned c) eqn:Hown.
    + rewrite filter_cons_True in Hcells by exact Hown.
      apply Forall_cons in Hcells as [(p & nc & -> & _) Hcells]. apply IH. exact Hcells.
    + rewrite filter_cons_False in Hcells by (rewrite Hown; discriminate).
      apply IH. exact Hcells.
Qed.

Lemma owned_native_ids_indices t cells :
  Forall (fun c => exists p nc,
            get_native_cell (native_tria t) (native_cells t) c = Some (p, nc) /\
            n_is_active nc = true)
         (filter (fun c => is_locally_owned c = true) cells) ->
  (owned_native_ids t cells).*2 =
  native_active_cell_index t <$> filter (fun c => is_locally_owned c = true) cells.
Proof using Type.
  induction cells as [|c cells IH]; intros Hcells; [reflexivity|].
  destruct (is_locally_owned c) eqn:Hown.
  - rewrite filter_cons_True in Hcells |- * by exact Hown.
    apply Forall_cons in Hcells as [(p & nc & Hget & _) Hcells].
    rewrite (owned_native_ids_cons_owned _ _ _ _ _ Hown Hget), !fmap_cons.
    rewrite IH by exact Hcells.
    unfold native_active_cell_index. rewrite Hget. reflexivity.
  - rewrite filter_cons_False in Hcells |- * by (rewrite Hown; discriminate).
    rewrite owned_native_ids_cons_other by exact Hown. apply IH. exact Hcells.
Qed.


End TranslationProperties.

(** *** Step 3 *)

Lemma bind_ext_Forall {A B} (f g : A -> list B) l :
  Forall (fun x => f x = g x) l -> l ≫= f = l ≫= g.
Proof.
  induction 1 as [|x l Hx _ IH]; [reflexivity|].
  rewrite !bind_cons, Hx, IH. reflexivity.
Qed.

Lemma last_cons_cons {A} (x y : A) l : last (x :: y :: l) = last (y :: l).
Proof. reflexivity. Qed.

Lemma last_bound (P : nat -> Prop) l :
  l <> [] -> Forall P l -> P (default 0 (last l)).
Proof.
  intros Hne HP. destruct (last l) as [x|] eqn:Hlast.
  - simpl. rewrite Forall_forall in HP. apply HP.
    apply last_Some in Hlast as [l' ->]. apply elem_of_app. right.
    apply elem_of_cons. auto.
  - apply last_None in Hlast. contradiction.
Qed.

(** The pass over the cells numbered [a], [a + 1], ... for a request that is
    strictly increasing and within their range. *)
Lemma pack_cells_seq ds a requested :
  requested <> [] ->
  StronglySorted lt requested ->
  Forall (fun r => a <= r < a + length ds) requested ->
  pack_cells (zip (seq a (length ds)) ds) requested =
  (requested ≫= (fun r => packed_record r (ds !!! (r - a))),
   S (default 0 (last requested)) - a).
Proof.
  revert a requested. induction ds as [|d ds IH]; intros a requested Hne Hsorted Hrange.
  - destruct requested as [|r rs]; [contradiction|].
    apply Forall_cons in Hrange as [Hr _]. simpl in Hr. lia.
  - destruct requested as [|r rs]; [contradiction|].
    pose proof Hrange as Hrange'.
    apply Forall_cons in Hrange as [Hr Hrs]. simpl in Hr.
    apply StronglySorted_inv in Hsorted as [Hsorted Hlt].
    cbn [length seq zip zip_with pack_cells].
    destruct (decide (a = r)) as [->|Hneq].
    + destruct rs as [|r' rs].
      * change (default 0 (last [r])) with r.
        replace (S r - r) with 1 by lia.
        rewrite (bind_cons _ r []), Nat.sub_diag. reflexivity.
      * assert (Forall (fun x => S r <= x < S r + length ds) (r' :: rs)) as Hrange1.
        { apply Forall_forall. intros x Hx. rewrite Forall_forall in Hlt, Hrs.
          specialize (Hlt x Hx). specialize (Hrs x Hx). simpl in Hrs. lia. }
        rewrite (IH (S r) (r' :: rs)) by (try discriminate; assumption).
        cbn [fst snd]. rewrite last_cons_cons. f_equal.
        -- rewrite (bind_cons _ r). rewrite Nat.sub_diag. f_equal.
           apply bind_ext_Forall. eapply Forall_impl; [exact Hrange1|].
           intros x Hx. simpl in Hx |- *. replace (x - r) with (S (x - S r)) by lia. reflexivity.
        -- pose proof (last_bound _ (r' :: rs) ltac:(discriminate) Hrange1). simpl in *.
           lia.
    + assert (Forall (fun x => S a <= x < S a + length ds) (r :: rs)) as Hrange1.
      { apply Forall_forall. intros x Hx. rewrite Forall_forall in Hrange'.
        specialize (Hrange' x Hx). simpl in Hrange'.
        apply elem_of_cons in Hx as [->|Hx]; [lia|].
        rewrite Forall_forall in Hlt. specialize (Hlt x Hx). lia. }
      rewrite (IH (S a) (r :: rs)) by (try discriminate; try assumption;
                                      constructor; assumption).
      cbn [fst snd]. f_equal.
      * apply bind_ext_Forall. eapply Forall_impl; [exact Hrange1|].
        intros x Hx. simpl in Hx |- *. replace (x - a) with (S (x - S a)) by lia. reflexivity.
      * pose proof (last_bound _ (r :: rs) ltac:(discriminate) Hrange1). simpl in *.
        lia.
Qed.

(** C6: the answering process walks its active cells once, in the order of
    their active cell index, up to the last requested cell; for a request
    that is strictly increasing, its reply holds for every requested index,
    in order, one record: the index, the number of DoFs of the cell, its DoF
    indices in the order of [get_dof_indices], and [invalid_dof_index]. *)
Theorem pack_request_one_record_per_requested_cell
    (native : NativeTriangulation) (native_dof_handler : DoFHandler)
    (requested : list nat) :
  active_cell_indices_consistent native ->
  length (cell_dof_indices native_dof_handler) =
    length (n_active_cell_iterators native) ->
  requested <> [] ->
  StronglySorted lt requested ->
  Forall (fun r => r < length (n_active_cell_iterators native)) requested ->
  pack_request (native_dh_cells native native_dof_handler) requested =
  Ok (requested ≫= (fun r =>
        [N.of_nat r; N.of_nat (length (cell_dof_indices native_dof_handler !!! r))]
        ++ cell_dof_indices native_dof_handler !!! r ++ [invalid_dof_index]),
      S (default 0 (last requested))) /\
  S (default 0 (last requested)) <= length (n_active_cell_iterators native).
Proof.
  intros Hcons Hlen Hne Hsorted Hrange. split.
  - unfold pack_request, native_dh_cells. destruct requested as [|r rs]; [contradiction|].
    rewrite Hcons, <- Hlen.
    rewrite (pack_cells_seq _ 0 (r :: rs)); [| discriminate | assumption |].
    + rewrite Nat.sub_0_r. do 2 f_equal. apply bind_ext_Forall, Forall_forall.
      intros x _. rewrite Nat.sub_0_r. reflexivity.
    + rewrite Hlen. eapply Forall_impl; [exact Hrange|]. intros x Hx. cbn beta in *. lia.
  - pose proof (last_bound _ requested Hne Hrange) as Hlast. cbn beta in Hlast. lia.
Qed.

(** *** The check of the finite elements *)

(** C8, as amended: with finite elements of different names the call is
    rejected with [ExcMessage] right after the first exchange, the one of the
    requested active cell indices: the process has taken part in exactly one
    [some_to_some], and nothing was packed or sent in a second one. *)
Theorem mismatched_fe_rejected_after_first_exchange
    (std_sort : forall A : Type, (A -> nat) -> list A -> list A)
    (overlap_tria : OverlapTriangulation)
    (overlap_dof_handler native_dof_handler : DoFHandler)
    (ids : gmap N (list nat)) (peers : Peers) :
  fe_name native_dof_handler <> fe_name overlap_dof_handler ->
  required_active_cell_indices std_sort overlap_tria = Ok ids ->
  run_collective peers
    (compute_overlap_to_native_dof_translation std_sort overlap_tria
       overlap_dof_handler native_dof_handler) =
  (1, Throw (ExcMessage "dof handlers should use the same FiniteElement")).
Proof.
  intros Hname Hids. unfold compute_overlap_to_native_dof_translation.
  rewrite Hids. cbn [of_result run_collective].
  apply String.eqb_neq in Hname. rewrite Hname. reflexivity.
Qed.

(** *** The final array *)

(** After [std::unique] a list that is sorted by a key which determines its
    elements is strictly sorted and holds what it held. *)
Lemma unique_sorted_by_key {A} `{EqDecision A} (key : A -> nat) (l : list A) :
  StronglySorted (fun a b => key a <= key b) l ->
  (forall a b, a ∈ l -> b ∈ l -> key a = key b -> a = b) ->
  StronglySorted (fun a b => key a < key b) (unique l) /\
  (forall a, a ∈ unique l <-> a ∈ l).
Proof.
  induction l as [|x l IH]; intros Hsorted Hkey.
  - split; [constructor | reflexivity].
  - apply StronglySorted_inv in Hsorted as [Hsorted Hx].
    destruct IH as [IHs IHe]; [exact Hsorted | |].
    { intros a b Ha Hb. apply Hkey; apply elem_of_cons; auto. }
    destruct l as [|y l].
    + split; [repeat constructor | reflexivity].
    + cbn [unique]. change (match l with [] => [y] | z :: _ =>
                              if decide (y = z) then unique l else y :: unique l end)
        with (unique (y :: l)) in *.
      destruct (decide (x = y)) as [->|Hxy].
      * split; [exact IHs|]. intros a. split; intros Ha.
        -- apply IHe in Ha. apply elem_of_cons. auto.
        -- apply IHe. apply elem_of_cons in Ha as [->|Ha]; [|exact Ha].
           apply elem_of_cons. auto.
      * split.
        -- constructor; [exact IHs|]. apply Forall_forall. intros z Hz.
           apply IHe in Hz. rewrite Forall_forall in Hx.
           pose proof (Hx z Hz) as Hle.
           destruct (decide (key x = key z)) as [Heq|]; [|lia].
           exfalso. apply Hxy.
           assert (x = z) as <-.
           { apply Hkey; [apply elem_of_cons; auto | apply elem_of_cons; auto | exact Heq]. }
           apply Hkey; [apply elem_of_cons; auto
                       | apply elem_of_cons; right; apply elem_of_cons; auto |].
           apply StronglySorted_inv in Hsorted as [_ Hy]. rewrite Forall_forall in Hy.
           apply elem_of_cons in Hz as [Hz|Hz]; [congruence|].
           specialize (Hy x Hz). pose proof (Hx y ltac:(apply elem_of_cons; auto)). lia.
        -- intros a. split; intros Ha.
           ++ apply elem_of_cons in Ha as [->|Ha]; apply elem_of_cons; [auto|].
              right. apply IHe. exact Ha.
           ++ apply elem_of_cons in Ha as [->|Ha]; apply elem_of_cons; [auto|].
              right. apply IHe. exact Ha.
Qed.

(** A strictly increasing list of the numbers below [n] is [0, ..., n - 1]. *)
Lemma increasing_below_seq (ks : list nat) (n : nat) :
  StronglySorted lt ks -> (forall k, k ∈ ks <-> k < n) -> ks = seq 0 n.
Proof.
  intros Hsorted Helem.
  assert (AntiSymm (=) lt) by (intros a b ? ?; lia).
  apply (StronglySorted_unique lt); [exact Hsorted | |].
  - clear. generalize 0. induction n as [|n IH]; intros a; [constructor|].
    cbn [seq]. constructor; [apply IH|]. apply Forall_forall. intros k Hk.
    apply elem_of_seq in Hk. lia.
  - apply NoDup_Permutation; [| apply NoDup_seq |].
    + clear Helem. induction Hsorted as [|k ks _ IH Hk]; constructor; [|exact IH].
      intros Hin. rewrite Forall_forall in Hk. specialize (Hk k Hin). lia.
    + intros k. rewrite Helem, elem_of_seq. lia.
Qed.

(** *** The loops of step 4 end *)

Lemma unpack_record_consumes cells packed pairs packed' :
  unpack_record cells packed = Ok (pairs, packed') ->
  length packed' < length packed.
Proof.
  unfold unpack_record. intros H.
  destruct packed as [|active_cell_index packed]; [discriminate|].
  destruct (std_lower_bound _ _) as [[index overlap_cell_dofs]|]; [|discriminate].
  destruct (decide _); [|discriminate].
  destruct packed as [|n_dofs rest]; [discriminate|].
  destruct (drop _ rest) as [|sentinel rest'] eqn:Hdrop; [discriminate|].
  repeat (destruct (decide _); [|discriminate]).
  injection H as _ <-.
  assert (length (drop (N.to_nat n_dofs) rest) = S (length rest')) as Hlen
    by (rewrite Hdrop; reflexivity).
  rewrite length_drop in Hlen. cbn [length]. lia.
Qed.

Lemma unpack_records_total fuel cells packed :
  length packed <= fuel -> is_Some (unpack_records fuel cells packed).
Proof.
  revert packed. induction fuel as [|fuel IH]; intros packed Hlen.
  - destruct packed; [eexists; reflexivity | cbn [length] in Hlen; lia].
  - destruct packed as [|x packed]; [eexists; reflexivity|].
    cbn [unpack_records].
    destruct (unpack_record cells (x :: packed)) as [[pairs packed']|e] eqn:Hrec;
      [|eexists; reflexivity].
    apply unpack_record_consumes in Hrec.
    destruct (IH packed') as [[more|e] ->]; [lia | eexists; reflexivity ..].
Qed.

Lemma unpack_all_total cells received : is_Some (unpack_all cells received).
Proof.
  induction received as [|[rank packed] rest IH]; [eexists; reflexivity|].
  cbn [unpack_all].
  destruct (unpack_records_total (length packed) cells packed) as [[pairs|e] ->];
    [reflexivity | | eexists; reflexivity].
  destruct IH as [[more|e] ->]; eexists; reflexivity.
Qed.

(** ** The translation on the concrete mesh *)

Section TranslationExample.

Import Example.

Lemma example_active_cell_indices_consistent : active_cell_indices_consistent native.
Proof. vm_compute. reflexivity. Qed.


(** The reply to a request for the cells 1, 2 and 9: three records, after
    ten of the eleven active cells were looked at. *)
Lemma pack_request_one_record_per_requested_cell_witness :
  pack_request (native_dh_cells native native_dof_handler) [1; 2; 9] =
  Ok ([1; 4; 4; 6; 36; 38; 4294967295;
       2; 4; 36; 38; 68; 70; 4294967295;
       9; 4; 54; 55; 70; 71; 4294967295]%N, 10) /\
  10 <= 11.
Proof.
  apply (pack_request_one_record_per_requested_cell native native_dof_handler
           [1; 2; 9]).
  - exact example_active_cell_indices_consistent.
  - reflexivity.
  - discriminate.
  - repeat constructor.
  - repeat constructor.
Defined.

(** With the element names [FE_Q<2>(1)] and [FE_Q<2>(2)] the call ends after
    one exchange. *)
Lemma mismatched_fe_rejected_after_first_exchange_witness :
  run_collective mirror_peers
    (compute_overlap_to_native_dof_translation std_sort built_tria
       overlap_dof_handler_q2 native_dof_handler) =
  (1, Throw (ExcMessage "dof handlers should use the same FiniteElement")).
Proof.
  destruct (required_active_cell_indices std_sort built_tria) as [ids|e] eqn:Hids;
    [|vm_compute in Hids; discriminate].
  apply (mismatched_fe_rejected_after_first_exchange std_sort built_tria
           overlap_dof_handler_q2 native_dof_handler ids mirror_peers).
  - apply String.eqb_neq. reflexivity.
  - exact Hids.
Defined.

(** C8 fails as stated: when the call with the two different elements is
    rejected, the process has sent its lists of cells and received those of
    its peers, so the number of exchanges it took part in is not zero. *)
Lemma fe_mismatch_found_after_an_exchange :
  fe_name native_dof_handler <> fe_name overlap_dof_handler_q2 /\
  exists n e,
    run_collective mirror_peers
      (compute_overlap_to_native_dof_translation std_sort built_tria
         overlap_dof_handler_q2 native_dof_handler) = (n, Throw e) /\
    n <> 0.
Proof.
  split; [apply String.eqb_neq; reflexivity|].
  exists 1, (ExcMessage "dof handlers should use the same FiniteElement").
  split; [vm_compute; reflexivity | discriminate].
Qed.

(** The whole call on the concrete mesh: two exchanges, and the array of the
    thirteen overlap DoFs. *)
Lemma translation_on_example :
  run_collective mirror_peers
    (compute_overlap_to_native_dof_translation std_sort built_tria
       overlap_dof_handler native_dof_handler) =
  (2, Ok [0; 4; 64; 68; 38; 39; 54; 55; 40; 56; 70; 71; 72]%N).
Proof. vm_compute. reflexivity. Qed.

End TranslationExample.
(** ** Scatter *)

Section ScatterProperties.

(** The effect on entry [n] of a list of arriving values, all [x] where they
    go to [n]: [g k] is what [k] of them make of the entry. *)
Lemma contributions_spec (op : VectorOperation) (x : double)
    (g : nat -> double -> double) (n : nat) :
  (forall old, g 0 old = old) ->
  (forall k old, g k (combine_entry op old x) = g (S k) old) ->
  forall (l : list (nat * double)) (native_vector : list double),
    (forall p, p ∈ l -> p.1 = n -> p.2 = x) ->
    foldl (fun acc '(m, y) => alter (fun old => combine_entry op old y) m acc)
      native_vector l !! n
    = g (length (filter (fun p => p.1 = n) l)) <$> native_vector !! n.
Proof.
  intros Hg0 Hg. induction l as [|[m y] l IH]; intros native_vector Hx.
  - cbn. destruct (native_vector !! n); cbn; [rewrite Hg0|]; reflexivity.
  - cbn [foldl]. rewrite IH by (intros p Hp; apply Hx; apply elem_of_cons; auto).
    rewrite filter_cons. cbn [fst]. destruct (decide (m = n)) as [->|Hne].
    + rewrite list_lookup_alter_eq.
      assert (y = x) as ->
        by (apply (Hx (n, y)); [apply elem_of_cons; auto | reflexivity]).
      cbn [length].
      destruct (native_vector !! n); cbn; [rewrite Hg|]; reflexivity.
    + rewrite list_lookup_alter_ne by exact Hne. reflexivity.
Qed.

Lemma overlap_to_global_all_flat op parts native_vector :
  overlap_to_global_all op parts native_vector =
  foldl (fun acc '(m, y) => alter (fun old => combine_entry op old y) m acc)
    native_vector (parts ≫= (fun part => zip (overlap_dofs part.1) part.2)).
Proof.
  unfold overlap_to_global_all. revert native_vector.
  induction parts as [|[scatter b] parts IH]; intros native_vector; [reflexivity|].
  rewrite bind_cons, foldl_app. cbn [foldl]. rewrite IH. reflexivity.
Qed.

Lemma filter_fst_length {B} (n : nat) (l : list (nat * B)) :
  length (filter (fun p => p.1 = n) l) = length (filter (fun m => m = n) l.*1).
Proof.
  induction l as [|[m y] l IH]; [reflexivity|].
  rewrite fmap_cons, !filter_cons. cbn [fst].
  destruct (decide (m = n)); cbn [length]; rewrite IH; reflexivity.
Qed.

Lemma contributors_flat n parts :
  Forall (fun part : Scatter * list double => length part.2 = length (overlap_dofs part.1))
    parts ->
  length (filter (fun p => p.1 = n)
            (parts ≫= (fun part => zip (overlap_dofs part.1) part.2)))
  = contributors n parts.
Proof.
  unfold contributors. induction 1 as [|[scatter b] parts Hlen _ IH]; [reflexivity|].
  rewrite bind_cons, filter_app, length_app, IH, fmap_cons. cbn [sum_list fst snd].
  f_equal. rewrite filter_fst_length, fst_zip; [reflexivity|].
  cbn [fst snd] in Hlen. rewrite Hlen. reflexivity.
Qed.

Lemma Forall2_zip_elem {A B} (R : A -> B -> Prop) l k :
  Forall2 R l k -> forall p, p ∈ zip l k -> R p.1 p.2.
Proof.
  induction 1 as [|a b l k Hab _ IH]; intros p Hp; cbn in Hp.
  - apply elem_of_nil in Hp as [].
  - apply elem_of_cons in Hp as [->|Hp]; [exact Hab | exact (IH p Hp)].
Qed.

Lemma global_to_overlap_values scatter native_vector overlap_buffer b :
  length overlap_buffer = length (overlap_dofs scatter) ->
  global_to_overlap scatter native_vector overlap_buffer = Ok b ->
  Forall2 (fun m y => native_vector !! m = Some y) (overlap_dofs scatter) b.
Proof.
  unfold global_to_overlap, global_to_overlap_start, global_to_overlap_finish.
  intros Hlen H.
  destruct (mapM_result _ _) as [staging|e] eqn:Hstaging; [|discriminate].
  injection H as <-. apply mapM_result_Forall2 in Hstaging.
  pose proof (Forall2_length _ _ _ Hstaging) as Hl.
  rewrite drop_ge, app_nil_r by (apply Nat.eq_le_incl; congruence).
  eapply Forall2_impl; [exact Hstaging|]. intros m y Hy. cbn beta in Hy.
  destruct (native_vector !! m); [injection Hy as ->; reflexivity | discriminate].
Qed.


End ScatterProperties.



(** ** Transactions *)

(** C5: on the model of the phase functions. An accepted phase finds the
    transaction in its own state, moves it to the next of [Intermediate],
    [Finish], [Done], and keeps the operation; the transaction [start]
    returns passes [intermediate] and [finish] in this order. The
    intermediate phase on a transaction that was not started, a second
    [finish], and a transaction of an interpolation in a call for spreading
    all end with an exception. *)
Theorem transaction_phases_checked (t : Transaction) :
  (forall t', compute_projection_rhs_intermediate t = Ok t' ->
     operation t = Interpolation /\ next_state t = Intermediate /\
     t' = mkTransaction Finish Interpolation) /\
  (forall t', compute_projection_rhs_finish t = Ok t' ->
     operation t = Interpolation /\ next_state t = Finish /\
     t' = mkTransaction Done Interpolation) /\
  (forall t', compute_spread_intermediate t = Ok t' ->
     operation t = Spreading /\ next_state t = Intermediate /\
     t' = mkTransaction Finish Spreading) /\
  (forall t', compute_spread_finish t = Ok t' ->
     operation t = Spreading /\ next_state t = Finish /\
     t' = mkTransaction Done Spreading) /\
  (exists t1 t2,
     compute_projection_rhs_intermediate compute_projection_rhs_start = Ok t1 /\
     compute_projection_rhs_finish t1 = Ok t2 /\ next_state t2 = Done) /\
  (exists t1 t2,
     compute_spread_intermediate compute_spread_start = Ok t1 /\
     compute_spread_finish t1 = Ok t2 /\ next_state t2 = Done) /\
  (next_state t = Start ->
     (exists e, compute_projection_rhs_intermediate t = Throw e) /\
     (exists e, compute_spread_intermediate t = Throw e)) /\
  (forall t', compute_projection_rhs_finish t = Ok t' ->
     exists e, compute_projection_rhs_finish t' = Throw e) /\
  (forall t', compute_spread_finish t = Ok t' ->
     exists e, compute_spread_finish t' = Throw e) /\
  (operation t = Interpolation ->
     (exists e, compute_spread_intermediate t = Throw e) /\
     (exists e, compute_spread_finish t = Throw e)).
Proof.
  destruct t as [[] []];
    unfold compute_projection_rhs_intermediate, compute_projection_rhs_finish,
      compute_spread_intermediate, compute_spread_finish,
      compute_projection_rhs_start, compute_spread_start, advance,
      check_transaction;
    cbn;
    repeat match goal with |- _ /\ _ => split end;
    try (intros H; discriminate H);
    try (intros t' H; first [discriminate H | injection H as <-]; cbn;
         first [eexists; reflexivity | repeat split; reflexivity]);
    try (intros _; split; eexists; reflexivity);
    try (do 2 eexists; repeat split; reflexivity).
Qed.

(** * Further properties *)

(** ** The intersection predicate *)

(** X1: enlarging the first box keeps an intersection: if [a] lies in [a']
    and intersects [b], then [a'] intersects [b]. The bounding box of a cell
    that contains a cell the patches reach is reached as well. *)
Theorem intersects_enlarged_box (spacedim : nat) (a a' b : BoundingBox) :
  well_formed_box spacedim a ->
  well_formed_box spacedim b ->
  (forall d, d < spacedim ->
     dleb (lower_bound a' d) (lower_bound a d) = true /\
     dleb (upper_bound a d) (upper_bound a' d) = true) ->
  intersects spacedim a b = true ->
  intersects spacedim a' b = true.
Proof.
  intros Ha Hb Hin Hab.
  assert (well_formed_box spacedim a') as Ha'.
  { intros d Hd. destruct (Hin d Hd) as [Hlo Hhi].
    eapply dleb_trans; [exact Hlo|]. eapply dleb_trans; [apply Ha; exact Hd|exact Hhi]. }
  apply intersects_iff_overlap; [exact Ha'|exact Hb|].
  intros d Hd. destruct (Hin d Hd) as [Hlo Hhi].
  destruct (proj1 (intersects_iff_overlap spacedim a b Ha Hb) Hab d Hd) as [H1 H2].
  split.
  - eapply dleb_trans; [exact Hlo|exact H1].
  - eapply dleb_trans; [exact H2|exact Hhi].
Qed.

(** The box [[1/4, 1/2]^2] reaches [[1/2, 3/4]^2], and so does the unit
    square around it. *)
Lemma intersects_enlarged_box_witness :
  intersects 2 (box2 0 0 4 4) (box2 2 2 3 3) = true.
Proof.
  apply (intersects_enlarged_box 2 (box2 1 1 2 2) (box2 0 0 4 4) (box2 2 2 3 3)).
  - apply well_formed_box2; vm_compute; reflexivity.
  - apply well_formed_box2; vm_compute; reflexivity.
  - intros d Hd. destruct d as [|[|d]]; [split; vm_compute; reflexivity ..|lia].
  - vm_compute. reflexivity.
Defined.

(** ** The overlap mesh *)

Section BuildExtras.

Variable dim spacedim : nat.
Variable bounding_box : list Point -> BoundingBox.
Variable barycenters_agree : list Point -> list Point -> bool.
Variable n_children_isotropic : nat.
Variable child_vertices : OverlapCell -> nat -> list Point.
Variable std_sort : forall A : Type, (A -> nat) -> list A -> list A.
Variable native : NativeTriangulation.
Variable patch_bboxes : list BoundingBox.

Hypothesis n_children_isotropic_pos : 0 < n_children_isotropic.
Hypothesis std_sort_sorts : sorts_by_key std_sort.

Local Abbreviation resident := (resident spacedim bounding_box patch_bboxes).
Local Abbreviation final_cell :=
  (final_cell spacedim bounding_box barycenters_agree native patch_bboxes).
Local Abbreviation reinit_overlapping_tria :=
  (reinit_overlapping_tria dim spacedim bounding_box barycenters_agree
     n_children_isotropic child_vertices native patch_bboxes).
Local Abbreviation reinit :=
  (reinit dim spacedim bounding_box barycenters_agree n_children_isotropic
     child_vertices std_sort native patch_bboxes).
Local Abbreviation find_coarsest_level :=
  (find_coarsest_level spacedim bounding_box native patch_bboxes).
Local Abbreviation level_has_intersecting_active_cell :=
  (level_has_intersecting_active_cell spacedim bounding_box native patch_bboxes).
Local Abbreviation cells := o_cell_iterators_on_level.

(** X2: the overlap mesh starts at the coarsest native level [c0] on which
    an active cell intersects the patches: no coarser level has such a cell,
    and every locally owned cell on level [j] of the overlap mesh refers to a
    cell of the native level [c0 + j]. So no locally owned cell lies on a
    level from [n_levels - c0] on. *)
Theorem overlap_levels_follow_native_levels (t : OverlapTriangulation) :
  reinit = Ok t ->
  exists c0,
    c0 < n_levels native /\
    level_has_intersecting_active_cell c0 = true /\
    (forall l, l < c0 -> level_has_intersecting_active_cell l = false) /\
    forall j c, c ∈ cells (coarse_cells t) j ->
      is_locally_owned c = true ->
      c0 + j < n_levels native /\
      exists p nc,
        get_native_cell (native_tria t) (native_cells t) c = Some (p, nc) /\
        (p, nc) ∈ n_cell_iterators_on_level native (c0 + j).
Proof.
  intros H. destruct (reinit_cells_final _ _ _ _ _ _ _ _ _ n_children_isotropic_pos
                        _ H) as (Hnative & c0 & Hfind & Hfinal).
  apply find_coarsest_level_first in Hfind as (Hc0 & Hhit & Hbefore).
  exists c0. split; [lia|]. split; [exact Hhit|].
  split; [intros l Hl; apply Hbefore; lia|].
  intros j c Hc _. destruct (Hfinal j) as [HF _]. rewrite Forall_forall in HF.
  destruct (HF c Hc) as (p & nc & Hlink & _).
  pose proof Hlink as (Hget & Hlen & _).
  apply linked_lookup in Hlink as [_ Hat].
  split.
  - apply n_cell_at_level in Hat. lia.
  - exists p, nc. rewrite Hnative. split; [exact Hget|].
    apply elem_of_n_cell_iterators_on_level. split; [exact Hat|exact Hlen].
Qed.

(** X3: inside the patches the overlap mesh is refined as the native mesh
    is: a locally owned cell has children exactly when its native cell has.
    No refine flag is left set on any cell. *)
Theorem refinement_follows_native_inside_patches (t : OverlapTriangulation) :
  reinit = Ok t ->
  forall j c, c ∈ cells (coarse_cells t) j ->
    o_refine_flag c = false /\
    (is_locally_owned c = true ->
       exists p nc,
         get_native_cell (native_tria t) (native_cells t) c = Some (p, nc) /\
         o_has_children c = n_has_children nc).
Proof.
  intros H j c Hc.
  destruct (reinit_cells_final _ _ _ _ _ _ _ _ _ n_children_isotropic_pos
              _ H) as (Hnative & c0 & _ & Hfinal).
  destruct (Hfinal j) as [HF _]. rewrite Forall_forall in HF.
  pose proof (HF c Hc) as Hfin.
  destruct (final_cell_subdomain _ _ _ _ _ _ _ _ _ Hfin) as (_ & Hown & _).
  destruct Hfin as (p & nc & (Hget & _) & Hsub & Hch & Hflag).
  rewrite <- Hown in Hch.
  split; [exact Hflag|]. intros Ho. rewrite Ho in Hch.
  exists p, nc. rewrite Hnative. split; [exact Hget|exact Hch].
Qed.

(** X4: without patches, or for a native mesh without cells, [reinit] ends
    with [ExcInternalError]. *)
Theorem reinit_fails_on_empty_input :
  patch_bboxes = [] \/ n_coarse_cells native = [] ->
  reinit = Throw ExcInternalError.
Proof using Type.
  clear n_children_isotropic_pos std_sort_sorts.
  intros Hempty.
  assert (find_coarsest_level (seq 0 (n_levels native)) = None) as Hfind.
  { destruct Hempty as [Hp|Hc].
    - apply find_coarsest_level_None. intros l _.
      apply level_has_intersecting_active_cell_false.
      intros pc patch_bbox _ Hin. rewrite Hp in Hin. apply elem_of_nil in Hin as [].
    - unfold n_levels. rewrite Hc. reflexivity. }
  unfold reinit, reinit_overlapping_tria. rewrite Hfind. reflexivity.
Qed.

Lemma StronglySorted_le_NoDup_lt {A} (f : A -> nat) (l : list A) :
  StronglySorted (fun a b => f a <= f b) l ->
  NoDup (f <$> l) ->
  StronglySorted (fun a b => f a < f b) l.
Proof using Type.
  clear n_children_isotropic_pos std_sort_sorts.
  induction 1 as [|x l _ IH Hx]; intros Hnd; [constructor|].
  rewrite fmap_cons in Hnd. apply NoDup_cons in Hnd as [Hnotin Hnd].
  constructor; [exact (IH Hnd)|].
  apply Forall_forall. intros y Hy. rewrite Forall_forall in Hx.
  specialize (Hx y Hy). destruct (decide (f x = f y)) as [Heq|]; [|lia].
  exfalso. apply Hnotin. rewrite Heq. apply list_elem_of_fmap_2. exact Hy.
Qed.

(** The cached list of a mesh [reinit] built: the locally owned active cells
    in the order of the active cell index of their native cell. *)
Lemma reinit_cached_cells t :
  reinit = Ok t ->
  cell_iterators_in_active_native_order t ≡ₚ
    filter (fun c => is_locally_owned c = true)
           (o_active_cell_iterators (coarse_cells t)) /\
  StronglySorted
    (fun a b => native_active_cell_index t a <= native_active_cell_index t b)
    (cell_iterators_in_active_native_order t).
Proof.
  intros H.
  destruct (reinit_cells_final _ _ _ _ _ _ _ _ _ n_children_isotropic_pos
              _ H) as (_ & c0 & _ & Hfinal).
  apply reinit_Ok_inv in H as (coarse & s & keyed & Hbuild & Hkeyed & ->).
  cbn [coarse_cells native_cells cell_iterators_in_active_native_order] in *.
  set (table := bs_native_cells s) in *.
  apply mapM_result_Forall2 in Hkeyed.
  assert (keyed.*2 = filter (fun c => is_locally_owned c = true)
                            (o_active_cell_iterators coarse)) as Hsnd.
  { assert (filter (fun c => o_subdomain_id c <> artificial_subdomain_id)
                   (o_active_cell_iterators coarse) =
            filter (fun c => is_locally_owned c = true) (o_active_cell_iterators coarse))
      as <-.
    { apply list_filter_iff_elem. intros c Hc.
      apply (elem_of_o_active_cell_iterators _ n_children_isotropic_pos) in Hc
        as (_ & j & Hc).
      destruct (Hfinal j) as [HF _]. rewrite Forall_forall in HF.
      destruct (final_cell_subdomain _ _ _ _ _ _ _ _ _ (HF c Hc)) as (_ & Hown & Hiff).
      rewrite Hown. exact Hiff. }
    induction Hkeyed as [|c kc cs kcs Hc _ IH]; [reflexivity|].
    rewrite fmap_cons, IH. f_equal. unfold with_native_index in Hc.
    destruct (get_native_cell native table c) as [[p nc]|]; [|discriminate].
    injection Hc as <-. reflexivity. }
  destruct (std_sort_sorts _ fst keyed) as [Hperm Hsorted].
  split; [rewrite Hperm, Hsnd; reflexivity|].
  eapply StronglySorted_fmap_elem; [|exact Hsorted].
  intros [k c] [k' c'] Hx Hy Hle. cbn [fst snd] in *.
  assert (forall k c, (k, c) ∈ keyed ->
            k = native_active_cell_index
                  (mkOverlapTriangulation native table coarse
                     (snd <$> std_sort _ fst keyed)) c) as Hkey.
  { intros k1 c1 Hin. apply list_elem_of_lookup in Hin as [i Hi].
    eapply Forall2_lookup_r in Hkeyed as (x & _ & Hx'); [|exact Hi].
    unfold with_native_index, native_active_cell_index in *.
    cbn [native_tria native_cells].
    destruct (get_native_cell native table x) as [[p nc]|] eqn:Hget; [|discriminate].
    injection Hx' as <- <-. rewrite Hget. reflexivity. }
  rewrite Hperm in Hx, Hy. rewrite <- (Hkey _ _ Hx), <- (Hkey _ _ Hy). exact Hle.
Qed.


(** X15: a mesh [reinit] built has a locally owned active cell among its
    coarse cells: the active native cell the search for the coarsest level
    stopped at has a coarse cell, which is active and intersects the patches
    as it does. So the cached list is not empty. *)
Theorem built_mesh_has_owned_active_cell (t : OverlapTriangulation) :
  reinit = Ok t ->
  (exists c, c ∈ coarse_cells t /\ o_is_active c = true /\
             is_locally_owned c = true) /\
  cell_iterators_in_active_native_order t <> [].
Proof.
  intros H.
  assert (exists c, c ∈ coarse_cells t /\ o_is_active c = true /\
                    is_locally_owned c = true) as Hex.
  { destruct (reinit_cells_final _ _ _ _ _ _ _ _ _ n_children_isotropic_pos
                _ H) as (_ & c0' & Hfind' & Hfinal).
    apply reinit_Ok_inv in H as (coarse & s & keyed & Hbuild & _ & ->).
    cbn [coarse_cells native_cells native_tria] in *.
    eapply reinit_overlapping_tria_seed in Hbuild as (c0 & Hfind & Hpaths);
      [|exact n_children_isotropic_pos].
    assert (c0' = c0) as -> by congruence.
    apply find_coarsest_level_Some in Hfind as [_ Hhit].
    unfold level_has_intersecting_active_cell in Hhit.
    apply existsb_exists in Hhit as ([p nc] & Hpc & Hint). cbn [snd] in Hint.
    apply list_elem_of_In in Hpc.
    apply list_elem_of_filter in Hpc as [Hact Hpc]. cbn [snd] in Hact.
    assert ((p, nc) ∈ select_intersecting spacedim bounding_box native patch_bboxes
                         (n_cell_iterators_on_level native c0)) as Hsel
      by (apply list_elem_of_filter; split; [exact Hint|exact Hpc]).
    apply list_elem_of_lookup in Hsel as [k Hk].
    pose proof (f_equal (fun l => l !! k) Hpaths) as Hlk. cbn beta in Hlk.
    unfold level_paths in Hlk. rewrite !list_lookup_fmap, Hk in Hlk.
    destruct (coarse !! k) as [c|] eqn:Hc; [|discriminate]. cbn in Hlk.
    injection Hlk as Hp.
    assert (c ∈ cells coarse 0) as Hc0
      by (rewrite o_cell_iterators_on_level_0; eapply list_elem_of_lookup_2; exact Hc).
    destruct (Hfinal 0) as [HF _]. rewrite Forall_forall in HF.
    pose proof (HF c Hc0) as Hfin.
    destruct (final_cell_subdomain _ _ _ _ _ _ _ _ _ Hfin) as (_ & Hown & _).
    destruct Hfin as (p' & nc' & Hlink & _ & Hch & _).
    pose proof Hlink as (_ & _ & _ & Hgeo).
    apply linked_lookup in Hlink as [Hp' Hnc'].
    assert (p' = p) as -> by congruence.
    apply elem_of_n_cell_iterators_on_level in Hpc as [Hnc _].
    assert (nc' = nc) as -> by congruence.
    cbn in Hgeo.
    assert (resident c = true) as Hres by (unfold resident; rewrite Hgeo; exact Hint).
    exists c. split; [eapply list_elem_of_lookup_2; exact Hc|].
    split; [|rewrite Hown; exact Hres].
    unfold o_is_active. rewrite Hch, Hres. unfold n_is_active in Hact.
    cbn. exact Hact. }
  split; [exact Hex|].
  destruct Hex as (c & Hc & Hact & Hown).
  destruct (reinit_cached_cells t H) as [Hperm _].
  intros Hnil. rewrite Hnil in Hperm. symmetry in Hperm.
  apply Permutation_nil_r in Hperm.
  assert (c ∈ filter (fun c => is_locally_owned c = true)
                     (o_active_cell_iterators (coarse_cells t))) as Hin.
  { apply list_elem_of_filter. split; [exact Hown|].
    apply (elem_of_o_active_cell_iterators _ n_children_isotropic_pos).
    split; [exact Hact|]. exists 0. rewrite o_cell_iterators_on_level_0. exact Hc. }
  rewrite Hperm in Hin. apply elem_of_nil in Hin as [].
Qed.

End BuildExtras.

(** ** The translation of degrees of freedom *)

Lemma elem_of_owned_native_ids t cells owner index :
  (owner, index) ∈ owned_native_ids t cells <->
  exists c p nc,
    c ∈ cells /\ is_locally_owned c = true /\
    get_native_cell (native_tria t) (native_cells t) c = Some (p, nc) /\
    n_subdomain_id nc = owner /\ n_active_cell_index nc = index.
Proof.
  unfold owned_native_ids. rewrite list_elem_of_omap. split.
  - intros (c & Hc & Hsome). destruct (is_locally_owned c) eqn:Hown; [|discriminate].
    destruct (get_native_cell _ _ c) as [[p nc]|] eqn:Hget; [|discriminate].
    cbn in Hsome. injection Hsome as <- <-. exists c, p, nc. auto.
  - intros (c & p & nc & Hc & Hown & Hget & <- & <-). exists c.
    split; [exact Hc|]. rewrite Hown, Hget. reflexivity.
Qed.

(** X6: what step 1 asks for. The list for an owner holds exactly the active
    cell indices of the native cells of that owner to which a locally owned
    active cell of the overlap mesh refers, and no list is empty: the loop of
    step 3 on the receiving side always has a first requested index to read. *)
Theorem requests_are_native_cells_of_owned_cells
    (std_sort : forall A : Type, (A -> nat) -> list A -> list A)
    (t : OverlapTriangulation) (ids : gmap N (list nat)) :
  sorts_by_key std_sort ->
  required_active_cell_indices std_sort t = Ok ids ->
  (forall owner l, ids !! owner = Some l -> l <> []) /\
  (forall owner index,
     index ∈ default [] (ids !! owner) <->
     exists c p nc,
       c ∈ o_active_cell_iterators (coarse_cells t) /\
       is_locally_owned c = true /\
       get_native_cell (native_tria t) (native_cells t) c = Some (p, nc) /\
       n_subdomain_id nc = owner /\ n_active_cell_index nc = index).
Proof.
  intros Hsort. unfold required_active_cell_indices.
  destruct (native_active_cell_ids_on_overlap t _ ∅) as [ids0|e] eqn:Hids0;
    [|discriminate].
  intros [= <-]. split.
  - intros owner l. rewrite lookup_fmap.
    destruct (ids0 !! owner) as [l0|] eqn:Hl0; [|discriminate]. intros [= <-] Hnil.
    destruct (Hsort _ id l0) as [Hperm _]. rewrite Hnil in Hperm.
    apply Permutation_nil_l in Hperm.
    eapply (native_active_cell_ids_on_overlap_nonempty _ _ _ _ Hids0); [|exact Hl0|].
    + intros o l. rewrite lookup_empty. discriminate.
    + symmetry. exact Hperm.
  - intros owner index.
    pose proof (native_active_cell_ids_on_overlap_spec _ _ _ _ Hids0 owner) as Hspec.
    rewrite lookup_empty in Hspec. cbn [default app] in Hspec.
    rewrite lookup_fmap.
    assert (index ∈ default [] (std_sort nat id <$> ids0 !! owner) <->
            index ∈ default [] (ids0 !! owner)) as ->.
    { destruct (ids0 !! owner) as [l0|]; [|reflexivity]. cbn.
      destruct (Hsort _ id l0) as [Hperm _]. rewrite Hperm. reflexivity. }
    rewrite Hspec, list_elem_of_fmap. split.
    + intros ([o i] & -> & Hin). apply list_elem_of_filter in Hin as [Ho Hin].
      cbn in Ho. subst o. apply elem_of_owned_native_ids in Hin. exact Hin.
    + intros Hex. exists (owner, index). split; [reflexivity|].
      apply list_elem_of_filter. split; [reflexivity|].
      apply elem_of_owned_native_ids. exact Hex.
Qed.

(** *** Unpacking what was packed *)

(** In a list that is strictly increasing in the index, the binary search for
    the index of a cell finds that cell. *)
Lemma std_lower_bound_found (cells : list (nat * list N)) (r : nat) (od : list N) :
  StronglySorted (fun a b => a.1 < b.1) cells ->
  (r, od) ∈ cells ->
  std_lower_bound cells r = Some (r, od).
Proof.
  unfold std_lower_bound. induction 1 as [|[i od'] cells _ IH Hx]; intros Hin.
  - apply elem_of_nil in Hin as [].
  - cbn [list_find fst]. destruct (decide (r <= i)) as [Hle|Hgt].
    + cbn. f_equal. apply elem_of_cons in Hin as [Heq|Hin]; [congruence|].
      rewrite Forall_forall in Hx. specialize (Hx _ Hin). cbn [fst] in Hx.
      exfalso. lia.
    + apply elem_of_cons in Hin as [Heq|Hin]; [injection Heq as -> _; exfalso; lia|].
      specialize (IH Hin). destruct (list_find _ cells) as [[k c]|]; [|discriminate].
      cbn in IH |- *. exact IH.
Qed.

(** What the binary search finds is a cell of the list. *)
Lemma std_lower_bound_elem (cells : list (nat * list N)) (value : nat) c :
  std_lower_bound cells value = Some c -> c ∈ cells.
Proof.
  unfold std_lower_bound. destruct (list_find _ cells) as [[i c']|] eqn:Hfind;
    [|discriminate].
  intros [= <-]. apply list_find_Some in Hfind as (Hi & _).
  eapply list_elem_of_lookup_2. exact Hi.
Qed.

Lemma unpack_record_of_packed cells r od nd rest :
  std_lower_bound cells r = Some (r, od) ->
  length nd <= length od ->
  unpack_record cells (packed_record r nd ++ rest) = Ok (zip od nd, rest).
Proof.
  intros Hfind Hlen. unfold unpack_record, packed_record. cbn [app].
  rewrite !Nat2N.id, Hfind.
  destruct (decide (r = r)) as [_|]; [|congruence].
  rewrite <- app_assoc. cbn [app].
  rewrite drop_app_length, take_app_length.
  destruct (decide (length nd = length nd)) as [_|]; [|congruence].
  destruct (decide (invalid_dof_index = invalid_dof_index)) as [_|]; [|congruence].
  destruct (decide (length nd <= length od)) as [_|]; [reflexivity|contradiction].
Qed.

Lemma length_packed_record r nd : length (packed_record r nd) = 3 + length nd.
Proof. unfold packed_record. cbn [app length]. rewrite length_app. cbn. lia. Qed.

Lemma unpack_records_of_packed cells (recs : list (nat * (list N * list N))) fuel :
  Forall (fun rec => std_lower_bound cells rec.1 = Some (rec.1, rec.2.1) /\
                     length rec.2.2 <= length rec.2.1) recs ->
  length (recs ≫= (fun rec => packed_record rec.1 rec.2.2)) <= fuel ->
  unpack_records fuel cells (recs ≫= (fun rec => packed_record rec.1 rec.2.2)) =
  Some (Ok (recs ≫= (fun rec => zip rec.2.1 rec.2.2))).
Proof.
  revert fuel. induction recs as [|[r [od nd]] recs IH]; intros fuel Hrecs Hfuel.
  - destruct fuel; reflexivity.
  - apply Forall_cons in Hrecs as [[Hfind Hlen] Hrecs]. cbn [fst snd] in Hfind, Hlen.
    rewrite !bind_cons in *. cbn [fst snd] in *.
    destruct fuel as [|fuel].
    { rewrite length_app in Hfuel. unfold packed_record in Hfuel.
      cbn [app length] in Hfuel. lia. }
    remember (packed_record r nd ++ _) as packed eqn:Hpacked.
    destruct packed as [|x packed]; [unfold packed_record in Hpacked; discriminate|].
    cbn [unpack_records]. rewrite Hpacked.
    rewrite (unpack_record_of_packed _ _ _ _ _ Hfind Hlen).
    rewrite IH; [reflexivity|exact Hrecs|].
    assert (length (x :: packed) <= S fuel) as Hl by exact Hfuel.
    rewrite Hpacked, length_app, length_packed_record in Hl. lia.
Qed.

Lemma bind_fmap_list {A B C} (f : A -> B) (g : B -> list C) (l : list A) :
  (f <$> l) ≫= g = l ≫= (fun x => g (f x)).
Proof.
  induction l as [|x l IH]; [reflexivity|].
  rewrite fmap_cons, !bind_cons, IH. reflexivity.
Qed.

(** X7: unpacking inverts packing. For a request as step 1 sends it, and a
    list of overlap cells that is strictly increasing in the native index and
    holds a cell for every requested index, the loop of step 4 run on the
    reply of step 3 pairs, for every requested cell in order, the DoFs of the
    overlap cell with the DoFs of the native cell, position by position. *)
Theorem unpack_inverts_pack
    (native : NativeTriangulation) (native_dof_handler : DoFHandler)
    (cells : list (nat * list N)) (requested : list nat)
    (overlap_cell_dofs : nat -> list N) :
  active_cell_indices_consistent native ->
  length (cell_dof_indices native_dof_handler) =
    length (n_active_cell_iterators native) ->
  requested <> [] ->
  StronglySorted lt requested ->
  Forall (fun r => r < length (n_active_cell_iterators native)) requested ->
  StronglySorted (fun a b => a.1 < b.1) cells ->
  Forall (fun r => (r, overlap_cell_dofs r) ∈ cells /\
                   length (cell_dof_indices native_dof_handler !!! r) <=
                   length (overlap_cell_dofs r)) requested ->
  exists packed visited,
    pack_request (native_dh_cells native native_dof_handler) requested =
      Ok (packed, visited) /\
    unpack_records (length packed) cells packed =
      Some (Ok (requested ≫= (fun r =>
                  zip (overlap_cell_dofs r)
                      (cell_dof_indices native_dof_handler !!! r)))).
Proof.
  intros Hcons Hlen Hne Hsorted Hrange Hcells Hfound.
  set (ds := cell_dof_indices native_dof_handler) in *.
  exists (requested ≫= (fun r => packed_record r (ds !!! r))),
         (S (default 0 (last requested))).
  split.
  - unfold pack_request, native_dh_cells. destruct requested as [|r rs]; [contradiction|].
    rewrite Hcons, <- Hlen.
    rewrite (pack_cells_seq _ 0 (r :: rs)); [| discriminate | assumption |].
    + rewrite Nat.sub_0_r. do 2 f_equal. apply bind_ext_Forall, Forall_forall.
      intros x _. rewrite Nat.sub_0_r. reflexivity.
    + rewrite Hlen. eapply Forall_impl; [exact Hrange|]. intros x Hx. cbn beta in *. lia.
  - pose proof (unpack_records_of_packed cells
                  ((fun r => (r, (overlap_cell_dofs r, ds !!! r))) <$> requested)) as H.
    rewrite !bind_fmap_list in H. cbn [fst snd] in H. apply H; [|reflexivity].
    apply Forall_fmap. eapply Forall_impl; [exact Hfound|].
    intros r [Hin Hl]. cbn [fst snd compose]. split; [|exact Hl].
    apply std_lower_bound_found; assumption.
Qed.

(** X8: a record for a cell index that no locally owned overlap cell has is
    rejected with [ExcInternalError], whatever follows the index, also when
    nothing follows it: both assertions on the cell found come before the
    number of DoFs is read. The exception ends the loop over the record and
    the loop over the ranks. *)
Theorem unpack_rejects_unknown_cell
    (cells : list (nat * list N)) (active_cell_index : N)
    (rest : list N) (fuel : nat) (rank : N) (more : list (N * list N)) :
  (forall c, c ∈ cells -> c.1 <> N.to_nat active_cell_index) ->
  unpack_record cells (active_cell_index :: rest) = Throw ExcInternalError /\
  unpack_records (S fuel) cells (active_cell_index :: rest) =
    Some (Throw ExcInternalError) /\
  unpack_all cells ((rank, active_cell_index :: rest) :: more) =
    Some (Throw ExcInternalError).
Proof.
  intros Hnone.
  assert (unpack_record cells (active_cell_index :: rest) =
          Throw ExcInternalError) as Hrec.
  { unfold unpack_record.
    destruct (std_lower_bound cells (N.to_nat active_cell_index)) as [[index od]|]
      eqn:Hfind; [|reflexivity].
    apply std_lower_bound_elem in Hfind. specialize (Hnone _ Hfind). cbn [fst] in Hnone.
    destruct (decide (index = N.to_nat active_cell_index)); [contradiction|reflexivity]. }
  split; [exact Hrec|].
  split; [cbn [unpack_records]; rewrite Hrec; reflexivity|].
  cbn [unpack_all length unpack_records]. rewrite Hrec. reflexivity.
Qed.

(** X9: a call takes part in at most two exchanges, and in exactly two when
    it returns an array; when step 1 fails, it fails before any exchange. *)
Theorem translation_exchanges
    (std_sort : forall A : Type, (A -> nat) -> list A -> list A)
    (overlap_tria : OverlapTriangulation)
    (overlap_dof_handler native_dof_handler : DoFHandler) (peers : Peers) :
  exists n res,
    run_collective peers
      (compute_overlap_to_native_dof_translation std_sort overlap_tria
         overlap_dof_handler native_dof_handler) = (n, res) /\
    n <= 2 /\
    (forall overlap_to_native, res = Ok overlap_to_native -> n = 2) /\
    (forall e, required_active_cell_indices std_sort overlap_tria = Throw e ->
       n = 0 /\ res = Throw e).
Proof.
  unfold compute_overlap_to_native_dof_translation.
  assert (forall n (res : result (list N)) (ids : gmap N (list nat)),
            n <= 2 -> (forall a, res = Ok a -> n = 2) ->
            exists n' res', (n, res) = (n', res') /\
              n' <= 2 /\ (forall a, res' = Ok a -> n' = 2) /\
              (forall e, Ok ids = Throw e -> n' = 0 /\ res' = Throw e)) as Hcase.
  { intros n res ids Hn Hok. exists n, res. split; [reflexivity|].
    split; [exact Hn|]. split; [exact Hok|]. intros e He. discriminate He. }
  destruct (required_active_cell_indices std_sort overlap_tria) as [ids|e0];
    cbn [of_result run_collective fst snd].
  2:{ exists 0, (Throw e0). split; [reflexivity|]. split; [lia|].
      split; [discriminate|]. intros e [= <-]. split; reflexivity. }
  destruct (negb _); cbn [run_collective fst snd].
  { apply Hcase; [lia|discriminate]. }
  destruct (pack_requests _ _) as [dofs_on_native|e1];
    cbn [of_result run_collective fst snd].
  2:{ apply Hcase; [lia|discriminate]. }
  destruct (overlap_dh_cells _ _ _) as [cells|e2];
    cbn [of_result run_collective fst snd].
  2:{ apply Hcase; [lia|discriminate]. }
  destruct (unpack_all _ _) as [[pairs|e3]|]; cbn [run_collective fst snd];
    apply Hcase; try lia; try discriminate; reflexivity.
Qed.


(** *** Requests that are not increasing *)

Lemma pack_cells_none ds a requested :
  Forall (fun x => x < a) requested ->
  requested <> [] ->
  pack_cells (zip (seq a (length ds)) ds) requested = ([], length ds).
Proof.
  revert a. induction ds as [|d ds IH]; intros a Hlt Hne.
  - destruct requested; reflexivity.
  - destruct requested as [|r rs]; [contradiction|].
    cbn [length seq zip zip_with pack_cells].
    pose proof Hlt as Hlt'. apply Forall_cons in Hlt' as [Hr _].
    destruct (decide (a = r)) as [->|_]; [exfalso; lia|].
    rewrite (IH (S a)); [reflexivity| |exact Hne].
    eapply Forall_impl; [exact Hlt|]. intros x Hx. cbn beta in *. lia.
Qed.

Lemma pack_cells_out_of_order ds a r rs :
  a <= r < a + length ds ->
  rs <> [] ->
  Forall (fun x => x <= r) rs ->
  pack_cells (zip (seq a (length ds)) ds) (r :: rs) =
  (packed_record r (ds !!! (r - a)), length ds).
Proof.
  revert a. induction ds as [|d ds IH]; intros a Hr Hne Hle.
  - cbn [length] in Hr. exfalso. lia.
  - cbn [length seq zip zip_with pack_cells]. cbn [length] in Hr.
    destruct (decide (a = r)) as [->|Hneq].
    + destruct rs as [|r' rs]; [contradiction|].
      rewrite (pack_cells_none ds (S r) (r' :: rs)); [| |discriminate].
      * cbn [fst snd]. rewrite app_nil_r, Nat.sub_diag. reflexivity.
      * eapply Forall_impl; [exact Hle|]. intros x Hx. cbn beta in *. lia.
    + rewrite (IH (S a)); [|lia|exact Hne|exact Hle]. cbn [fst snd].
      replace (r - a) with (S (r - S a)) by lia. reflexivity.
Qed.

(** X16: a request that is not strictly increasing loses cells. When every
    index after the first is a repeated or a smaller one, the reply holds
    the record of the first index only, and the loop has looked at every
    active cell. *)
Theorem pack_request_drops_indices_out_of_order
    (native : NativeTriangulation) (native_dof_handler : DoFHandler)
    (r : nat) (rs : list nat) :
  active_cell_indices_consistent native ->
  length (cell_dof_indices native_dof_handler) =
    length (n_active_cell_iterators native) ->
  r < length (n_active_cell_iterators native) ->
  rs <> [] ->
  Forall (fun x => x <= r) rs ->
  pack_request (native_dh_cells native native_dof_handler) (r :: rs) =
  Ok (packed_record r (cell_dof_indices native_dof_handler !!! r),
      length (n_active_cell_iterators native)).
Proof.
  intros Hcons Hlen Hr Hne Hle. unfold pack_request, native_dh_cells.
  rewrite Hcons, <- Hlen.
  rewrite (pack_cells_out_of_order _ 0 r rs); [|lia|exact Hne|exact Hle].
  rewrite Nat.sub_0_r. reflexivity.
Qed.

(** ** The further properties on the concrete mesh *)

Section ExtrasExample.

Import Example.

(** The mesh [built_tria] starts at native level 0; its locally owned cells
    lie on three levels. *)
Lemma overlap_levels_follow_native_levels_witness :
  exists c0,
    c0 < n_levels native /\
    level_has_intersecting_active_cell 2 bounding_box native patches c0 = true /\
    (forall l, l < c0 ->
       level_has_intersecting_active_cell 2 bounding_box native patches l = false) /\
    forall j c, c ∈ o_cell_iterators_on_level (coarse_cells built_tria) j ->
      is_locally_owned c = true ->
      c0 + j < n_levels native /\
      exists p nc,
        get_native_cell (native_tria built_tria) (native_cells built_tria) c
          = Some (p, nc) /\
        (p, nc) ∈ n_cell_iterators_on_level native (c0 + j).
Proof.
  apply (overlap_levels_follow_native_levels 2 2 bounding_box barycenters_agree 4
           child_vertices std_sort native patches ltac:(lia) built_tria built_Ok).
Defined.

(** The right coarse cell is locally owned and refined, as its native cell
    is. *)
Lemma refinement_follows_native_inside_patches_witness :
  exists c,
    coarse_cells built_tria !! 1 = Some c /\
    o_refine_flag c = false /\
    exists p nc,
      get_native_cell (native_tria built_tria) (native_cells built_tria) c
        = Some (p, nc) /\
      o_has_children c = n_has_children nc.
Proof.
  destruct (coarse_cells built_tria !! 1) as [c|] eqn:Hc;
    [|vm_compute in Hc; discriminate].
  exists c. split; [reflexivity|].
  assert (c ∈ o_cell_iterators_on_level (coarse_cells built_tria) 0) as Hin.
  { rewrite o_cell_iterators_on_level_0. eapply list_elem_of_lookup_2. exact Hc. }
  assert (is_locally_owned c = true) as Hown.
  { vm_compute in Hc. injection Hc as <-. reflexivity. }
  destruct (refinement_follows_native_inside_patches 2 2 bounding_box
              barycenters_agree 4 child_vertices std_sort native patches
              ltac:(lia) built_tria built_Ok 0 c Hin) as (Hflag & Hch).
  split; [exact Hflag|]. exact (Hch Hown).
Defined.

(** Without patches there is no mesh. *)
Lemma reinit_fails_on_empty_input_witness :
  reinit 2 2 bounding_box barycenters_agree 4 child_vertices std_sort native []
  = Throw ExcInternalError.
Proof.
  apply (reinit_fails_on_empty_input 2 2 bounding_box barycenters_agree 4
           child_vertices std_sort native []).
  left. reflexivity.
Defined.


(** The two lists [built_tria] asks for. *)
Lemma requests_are_native_cells_of_owned_cells_witness :
  exists ids,
    required_active_cell_indices std_sort built_tria = Ok ids /\
    (forall owner l, ids !! owner = Some l -> l <> []).
Proof.
  destruct (required_active_cell_indices std_sort built_tria) as [ids|e] eqn:Hids;
    [|vm_compute in Hids; discriminate].
  exists ids. split; [reflexivity|].
  exact (proj1 (requests_are_native_cells_of_owned_cells std_sort built_tria ids
                  example_std_sort_sorts Hids)).
Defined.

(** The reply for the four cells in the corner, unpacked against the five
    locally owned cells of [built_tria]. *)
Lemma unpack_inverts_pack_witness :
  exists packed visited,
    pack_request (native_dh_cells native native_dof_handler) [7; 8; 9; 10] =
      Ok (packed, visited) /\
    unpack_records (length packed)
      [(0, [0; 1; 2; 3]%N); (7, [4; 5; 6; 7]%N); (8, [5; 8; 7; 9]%N);
       (9, [6; 7; 10; 11]%N); (10, [7; 9; 11; 12]%N)] packed =
    Some (Ok [(4, 38); (5, 39); (6, 54); (7, 55);
              (5, 39); (8, 40); (7, 55); (9, 56);
              (6, 54); (7, 55); (10, 70); (11, 71);
              (7, 55); (9, 56); (11, 71); (12, 72)]%N).
Proof.
  apply (unpack_inverts_pack native native_dof_handler
           [(0, [0; 1; 2; 3]%N); (7, [4; 5; 6; 7]%N); (8, [5; 8; 7; 9]%N);
            (9, [6; 7; 10; 11]%N); (10, [7; 9; 11; 12]%N)]
           [7; 8; 9; 10]
           (fun r => match r with
                     | 7 => [4; 5; 6; 7]%N | 8 => [5; 8; 7; 9]%N
                     | 9 => [6; 7; 10; 11]%N | _ => [7; 9; 11; 12]%N
                     end)).
  - exact example_active_cell_indices_consistent.
  - reflexivity.
  - discriminate.
  - repeat constructor.
  - repeat constructor.
  - repeat constructor.
  - repeat (constructor; [split; [|vm_compute; lia]|]); [..|constructor].
    + do 1 (apply elem_of_cons; right). apply elem_of_cons. left. reflexivity.
    + do 2 (apply elem_of_cons; right). apply elem_of_cons. left. reflexivity.
    + do 3 (apply elem_of_cons; right). apply elem_of_cons. left. reflexivity.
    + do 4 (apply elem_of_cons; right). apply elem_of_cons. left. reflexivity.
Defined.

(** A reply that ends right after the index 5, to which none of the two
    cells refers. *)
Lemma unpack_rejects_unknown_cell_witness :
  unpack_record [(0, [0; 1]%N); (7, [4; 5]%N)] [5%N] = Throw ExcInternalError /\
  unpack_records 1 [(0, [0; 1]%N); (7, [4; 5]%N)] [5%N]
    = Some (Throw ExcInternalError) /\
  unpack_all [(0, [0; 1]%N); (7, [4; 5]%N)] [(1%N, [5%N])]
    = Some (Throw ExcInternalError).
Proof.
  apply (unpack_rejects_unknown_cell [(0, [0; 1]%N); (7, [4; 5]%N)] 5%N [] 0 1%N []).
  intros c Hc.
  repeat (apply elem_of_cons in Hc as [->|Hc]); [..|apply elem_of_nil in Hc as []];
    cbn; lia.
Defined.

(** The fourth child of the right coarse cell refers to the fourth child of
    the right native coarse cell. *)
Lemma children_refer_to_native_children_witness :
  exists c child,
    coarse_cells built_tria !! 1 = Some c /\
    o_children c !! 3 = Some child /\
    child ∈ o_cell_iterators_on_level (coarse_cells built_tria) 1 /\
    exists p nc native_child,
      get_native_cell (native_tria built_tria) (native_cells built_tria) c
        = Some (p, nc) /\
      n_children nc !! 3 = Some native_child /\
      get_native_cell (native_tria built_tria) (native_cells built_tria) child
        = Some (p ++ [3], native_child).
Proof.
  destruct (coarse_cells built_tria !! 1) as [c|] eqn:Hc;
    [|vm_compute in Hc; discriminate].
  destruct (o_children c !! 3) as [child|] eqn:Hchild;
    [|vm_compute in Hc; injection Hc as <-; vm_compute in Hchild; discriminate].
  exists c, child. split; [reflexivity|]. split; [exact Hchild|].
  apply (children_refer_to_native_children 2 2 bounding_box barycenters_agree 4
           child_vertices std_sort native patches ltac:(lia) built_tria built_Ok
           0 c 3 child); [| |exact Hchild].
  - rewrite o_cell_iterators_on_level_0. eapply list_elem_of_lookup_2. exact Hc.
  - vm_compute in Hc. injection Hc as <-. reflexivity.
Defined.

(** Both native coarse cells intersect a patch; the overlap mesh has a coarse
    cell for each. *)
Lemma coarse_cells_are_intersecting_cells_witness :
  exists c0,
    level_has_intersecting_active_cell 2 bounding_box native patches c0 = true /\
    (forall l, l < c0 ->
       level_has_intersecting_active_cell 2 bounding_box native patches l = false) /\
    (forall c, c ∈ coarse_cells built_tria ->
       exists p nc,
         get_native_cell (native_tria built_tria) (native_cells built_tria) c
           = Some (p, nc) /\
         (p, nc) ∈ n_cell_iterators_on_level native c0 /\
         intersects_patches 2 bounding_box patches (n_vertices native nc) = true /\
         o_vertices c = n_vertices native nc) /\
    (forall p nc,
       (p, nc) ∈ n_cell_iterators_on_level native c0 ->
       intersects_patches 2 bounding_box patches (n_vertices native nc) = true ->
       exists c, c ∈ coarse_cells built_tria /\
         get_native_cell (native_tria built_tria) (native_cells built_tria) c
           = Some (p, nc)) /\
    NoDup (get_native_cell (native_tria built_tria) (native_cells built_tria)
             <$> coarse_cells built_tria) /\
    length (coarse_cells built_tria) =
      length (filter (fun pc => intersects_patches 2 bounding_box patches
                                  (n_vertices native pc.2) = true)
                (n_cell_iterators_on_level native c0)).
Proof.
  apply (coarse_cells_are_intersecting_cells 2 2 bounding_box barycenters_agree 4
           child_vertices std_sort native patches ltac:(lia) built_tria built_Ok).
Defined.

(** The four faces of the unit square become four boundary lines. *)
Lemma seed_subcell_data_lists_faces_witness :
  exists r s',
    collect_seed_cells 2 2 bounding_box faced_native patches
      (n_cell_iterators_on_level faced_native 0) (mkBuildState [] false)
      = Ok (r, s') /\
    boundary_lines r.2 =
      [mkCellData [0; 64] 0 flat_manifold_id 1; mkCellData [4; 68] 0 flat_manifold_id 2;
       mkCellData [0; 4] 0 flat_manifold_id 3; mkCellData [64; 68] 0 flat_manifold_id 4] /\
    boundary_quads r.2 = [].
Proof.
  destruct (collect_seed_cells 2 2 bounding_box faced_native patches
              (n_cell_iterators_on_level faced_native 0) (mkBuildState [] false))
    as [[r s']|e] eqn:Hseed; [|vm_compute in Hseed; discriminate].
  exists r, s'. split; [reflexivity|].
  destruct (seed_subcell_data_lists_faces 2 2 bounding_box faced_native patches
              _ _ r s' Hseed) as [H2 _].
  destruct (H2 eq_refl) as [-> ->]. split; vm_compute; reflexivity.
Defined.

(** The left coarse cell of [built_tria]. *)
Lemma built_mesh_has_owned_active_cell_witness :
  (exists c, c ∈ coarse_cells built_tria /\ o_is_active c = true /\
             is_locally_owned c = true) /\
  cell_iterators_in_active_native_order built_tria <> [].
Proof.
  apply (built_mesh_has_owned_active_cell 2 2 bounding_box barycenters_agree 4
           child_vertices std_sort native patches ltac:(lia)
           example_std_sort_sorts built_tria built_Ok).
Defined.

(** A request for the cells 7, 3 and 7 again is answered with the record of
    cell 7 alone. *)
Lemma pack_request_drops_indices_out_of_order_witness :
  pack_request (native_dh_cells native native_dof_handler) [7; 3; 7] =
  Ok ([7; 4; 38; 39; 54; 55; 4294967295]%N, 11).
Proof.
  apply (pack_request_drops_indices_out_of_order native native_dof_handler 7 [3; 7]).
  - exact example_active_cell_indices_consistent.
  - reflexivity.
  - vm_compute. lia.
  - discriminate.
  - repeat constructor.
Defined.

End ExtrasExample.

(** ** The translation with peers that follow the protocol *)

Lemma mapM_result_Ok {A B} (f : A -> result B) (g : A -> B) (l : list A) :
  Forall (fun x => f x = Ok (g x)) l -> mapM_result f l = Ok (g <$> l).
Proof.
  induction 1 as [|x l Hx _ IH]; [reflexivity|].
  cbn [mapM_result]. rewrite Hx, IH. reflexivity.
Qed.

(** Step 3 succeeds when no request is empty. *)
Lemma pack_requests_Ok (cells : list (nat * list N)) (requested : gmap N (list nat)) :
  (forall owner l, requested !! owner = Some l -> l <> []) ->
  exists dofs_on_native, pack_requests cells requested = Ok dofs_on_native.
Proof.
  intros Hne. unfold pack_requests.
  rewrite (mapM_result_Ok _ (fun e => (e.1, (pack_cells cells e.2).1))).
  - eexists. reflexivity.
  - apply Forall_forall. intros [rank indices] Hin.
    apply elem_of_map_to_list in Hin. specialize (Hne _ _ Hin).
    unfold pack_request. destruct indices; [contradiction|reflexivity].
Qed.

(** The cells of [overlap_dh_cells] before they are sorted. *)
Lemma owned_overlap_cells_Ok t (cells : list (OverlapCell * list N)) :
  Forall (fun c => exists p nc,
            get_native_cell (native_tria t) (native_cells t) c = Some (p, nc) /\
            n_is_active nc = true)
         (filter (fun c => is_locally_owned c = true) cells.*1) ->
  owned_overlap_cells t cells =
  Ok ((fun x : OverlapCell * list N => (native_active_cell_index t x.1, x.2))
        <$> filter (fun x => is_locally_owned x.1 = true) cells).
Proof.
  induction cells as [|[c od] cells IH]; intros Hcells; [reflexivity|].
  rewrite fmap_cons in Hcells. cbn [fst owned_overlap_cells] in *.
  destruct (is_locally_owned c) eqn:Hown.
  - rewrite filter_cons_True in Hcells by exact Hown.
    apply Forall_cons in Hcells as [(p & nc & Hget & _) Hcells].
    rewrite Hget, (IH Hcells). rewrite filter_cons_True by exact Hown.
    rewrite fmap_cons. unfold native_active_cell_index. cbn [fst snd].
    rewrite Hget. reflexivity.
  - rewrite filter_cons_False in Hcells by (rewrite Hown; discriminate).
    rewrite (IH Hcells). rewrite filter_cons_False by (cbn; rewrite Hown; discriminate).
    reflexivity.
Qed.

Lemma filter_zip_fst {A B} (P : A -> Prop) `{forall x, Decision (P x)}
    (l : list A) (k : list B) :
  length l = length k ->
  (filter (fun x : A * B => P x.1) (zip l k)).*1 = filter P l.
Proof.
  revert k. induction l as [|a l IH]; intros [|b k] Hlen; try discriminate;
    [reflexivity|].
  cbn [zip zip_with]. rewrite !filter_cons. cbn [fst].
  destruct (decide (P a)); cbn; rewrite <- (IH k) by (cbn in Hlen; lia); reflexivity.
Qed.

Lemma unpack_all_Ok cells (received : list (N * list N)) (g : N * list N -> list (N * N)) :
  Forall (fun e => unpack_records (length e.2) cells e.2 = Some (Ok (g e))) received ->
  unpack_all cells received = Some (Ok (received ≫= g)).
Proof.
  induction 1 as [|[rank packed] received He _ IH]; [reflexivity|].
  cbn [unpack_all]. cbn [snd] in He. rewrite He, IH. reflexivity.
Qed.

(** The array collapsed from pairs in which every overlap DoF below [n_dofs],
    and no other, occurs, with one native DoF only. *)
Lemma collapse_overlap_to_native_lookup
    (std_sort : forall A : Type, (A -> nat) -> list A -> list A)
    (overlap_to_native : list (N * N)) (n_dofs : nat) :
  sorts_by_key std_sort ->
  (forall o n n', (o, n) ∈ overlap_to_native -> (o, n') ∈ overlap_to_native -> n = n') ->
  (forall o, (exists n, (o, n) ∈ overlap_to_native) <-> N.to_nat o < n_dofs) ->
  length (collapse_overlap_to_native std_sort overlap_to_native) = n_dofs /\
  forall o n, (o, n) ∈ overlap_to_native ->
    collapse_overlap_to_native std_sort overlap_to_native !! N.to_nat o = Some n.
Proof.
  intros Hsort Hcons Hdense. unfold collapse_overlap_to_native.
  set (key := fun a : N * N => N.to_nat a.1).
  destruct (Hsort _ key overlap_to_native) as [Hperm Hsorted].
  destruct (unique_sorted_by_key key _ Hsorted) as [Hs He].
  { intros [o n] [o' n'] Ha Hb Hk. rewrite Hperm in Ha, Hb.
    unfold key in Hk. cbn [fst] in Hk. apply N2Nat.inj in Hk. subst o'.
    f_equal. exact (Hcons _ _ _ Ha Hb). }
  set (u := unique _) in *.
  assert (key <$> u = seq 0 n_dofs) as Hkeys.
  { apply increasing_below_seq.
    - eapply StronglySorted_fmap; [|exact Hs]. intros a b Hab. exact Hab.
    - intros k. rewrite list_elem_of_fmap. split.
      + intros [[o n] [-> Hin]]. apply He in Hin. rewrite Hperm in Hin.
        apply Hdense. exists n. exact Hin.
      + intros Hk. destruct (proj2 (Hdense (N.of_nat k))) as [n Hn].
        { rewrite Nat2N.id. exact Hk. }
        exists (N.of_nat k, n). split.
        * unfold key. cbn [fst]. rewrite Nat2N.id. reflexivity.
        * apply He. rewrite Hperm. exact Hn. }
  split.
  - rewrite length_fmap, <- (length_fmap key), Hkeys. apply length_seq.
  - intros o n Hin.
    assert ((o, n) ∈ u) as Hu by (apply He; rewrite Hperm; exact Hin).
    apply list_elem_of_lookup in Hu as [i Hi].
    assert ((key <$> u) !! i = Some (N.to_nat o)) as Hki
      by (rewrite list_lookup_fmap, Hi; reflexivity).
    rewrite Hkeys in Hki. apply lookup_seq in Hki as [Hio _]. cbn in Hio. subst i.
    rewrite list_lookup_fmap, Hi. reflexivity.
Qed.

(** The pairs of [same_local_dof] and the locally relevant DoFs, listed cell
    by cell. *)
Lemma same_local_dof_elem t overlap_dof_handler native_dof_handler o n :
  same_local_dof t overlap_dof_handler native_dof_handler o n ->
  (o, n) ∈ zip (o_active_cell_iterators (coarse_cells t))
               (cell_dof_indices overlap_dof_handler) ≫=
    (fun x : OverlapCell * list N =>
       if is_locally_owned x.1 then
         match get_native_cell (native_tria t) (native_cells t) x.1 with
         | Some (_, nc) =>
             zip x.2 (default [] (cell_dof_indices native_dof_handler
                                    !! n_active_cell_index nc))
         | None => []
         end
       else []).
Proof.
  intros (i & c & od & p & nc & k & Hi & Hown & Hodi & Hget & Ho & Hn).
  rewrite list_lookup_total_alt in Hn.
  apply list_elem_of_bind. exists (c, od). split.
  - cbn [fst snd]. rewrite Hown, Hget. cbn beta iota.
    apply list_elem_of_lookup. exists k. apply lookup_zip_with_Some.
    exists o, n. split; [reflexivity|]. split; [exact Ho|exact Hn].
  - apply list_elem_of_lookup. exists i. apply lookup_zip_with_Some.
    exists c, od. split; [reflexivity|]. split; assumption.
Qed.

Lemma locally_relevant_dof_elem t overlap_dof_handler o :
  locally_relevant_dof t overlap_dof_handler o <->
  o ∈ zip (o_active_cell_iterators (coarse_cells t))
          (cell_dof_indices overlap_dof_handler) ≫=
    (fun x : OverlapCell * list N => if is_locally_owned x.1 then x.2 else []).
Proof.
  unfold locally_relevant_dof. rewrite list_elem_of_bind. split.
  - intros (i & c & od & Hi & Hown & Hodi & Ho). exists (c, od). split.
    + cbn [fst snd]. rewrite Hown. exact Ho.
    + apply list_elem_of_lookup. exists i. apply lookup_zip_with_Some.
      exists c, od. split; [reflexivity|]. split; assumption.
  - intros ([c od] & Ho & Hin). cbn [fst snd] in Ho.
    destruct (is_locally_owned c) eqn:Hown; [|apply elem_of_nil in Ho as []].
    apply list_elem_of_lookup in Hin as [i Hi].
    apply lookup_zip_with_Some in Hi as (c' & od' & [= <- <-] & Hc & Hod).
    exists i, c, od. auto.
Qed.

Section ProtocolProperties.

Variable dim spacedim : nat.
Variable bounding_box : list Point -> BoundingBox.
Variable barycenters_agree : list Point -> list Point -> bool.
Variable n_children_isotropic : nat.
Variable child_vertices : OverlapCell -> nat -> list Point.
Variable std_sort : forall A : Type, (A -> nat) -> list A -> list A.
Variable native : NativeTriangulation.
Variable patch_bboxes : list BoundingBox.

Hypothesis n_children_isotropic_pos : 0 < n_children_isotropic.
Hypothesis std_sort_sorts : sorts_by_key std_sort.

Local Abbreviation reinit :=
  (reinit dim spacedim bounding_box barycenters_agree n_children_isotropic
     child_vertices std_sort native patch_bboxes).
Local Abbreviation required_active_cell_indices :=
  (required_active_cell_indices std_sort).
Local Abbreviation overlap_dh_cells := (overlap_dh_cells std_sort).
Local Abbreviation collapse_overlap_to_native := (collapse_overlap_to_native std_sort).
Local Abbreviation compute_overlap_to_native_dof_translation :=
  (compute_overlap_to_native_dof_translation std_sort).

(** The locally owned active cells of a mesh [reinit] built refer to active
    native cells, pairwise distinct. *)
Lemma owned_cells_of_built_mesh t :
  reinit = Ok t ->
  active_cell_indices_consistent native ->
  native_tria t = native /\
  Forall (fun c => exists p nc,
            get_native_cell (native_tria t) (native_cells t) c = Some (p, nc) /\
            n_is_active nc = true)
    (filter (fun c => is_locally_owned c = true)
            (o_active_cell_iterators (coarse_cells t))) /\
  NoDup (native_active_cell_index t <$>
           filter (fun c => is_locally_owned c = true)
                  (o_active_cell_iterators (coarse_cells t))).
Proof.
  intros H Hcons.
  destruct (reinit_cells_final _ _ _ _ _ _ _ _ _ n_children_isotropic_pos
              _ H) as (Hnative & _).
  destruct (reinit_owned_cells_distinct _ _ _ _ _ _ _ _ _ n_children_isotropic_pos
              t H Hcons) as [Hcells Hnodup].
  auto.
Qed.

(** An active native cell has an index below the number of active cells. *)
Lemma active_cell_index_bound p nc :
  active_cell_indices_consistent native ->
  n_cell_at native p = Some nc ->
  n_is_active nc = true ->
  n_active_cell_index nc < length (n_active_cell_iterators native).
Proof using Type.
  clear n_children_isotropic_pos std_sort_sorts.
  intros Hcons Hat Hact.
  assert ((p, nc) ∈ n_active_cell_iterators native) as Hin
    by (apply elem_of_n_active_cell_iterators; assumption).
  assert (n_active_cell_index nc ∈
            (fun pc : cell_path * NativeCell => n_active_cell_index pc.2)
              <$> n_active_cell_iterators native) as Hidx
    by (apply list_elem_of_fmap; exists (p, nc); split; [reflexivity|exact Hin]).
  rewrite Hcons in Hidx. apply elem_of_seq in Hidx. lia.
Qed.

(** The lists of step 1 for a mesh [reinit] built. *)
Lemma required_indices_of_built_mesh t ids :
  reinit = Ok t ->
  active_cell_indices_consistent native ->
  required_active_cell_indices t = Ok ids ->
  forall owner l, ids !! owner = Some l ->
    l <> [] /\ StronglySorted lt l /\
    forall r, r ∈ l <-> (owner, r) ∈ owned_native_ids t
                                     (o_active_cell_iterators (coarse_cells t)).
Proof.
  intros H Hcons Hids owner l Hl.
  destruct (owned_cells_of_built_mesh t H Hcons) as (_ & Hcells & Hnodup).
  unfold required_active_cell_indices in Hids.
  destruct (native_active_cell_ids_on_overlap t _ ∅) as [ids0|e] eqn:Hids0;
    [|discriminate].
  injection Hids as <-. revert Hl. rewrite lookup_fmap.
  destruct (ids0 !! owner) as [l0|] eqn:Hl0; [|discriminate]. intros [= <-].
  destruct (std_sort_sorts _ id l0) as [Hperm Hsorted].
  pose proof (native_active_cell_ids_on_overlap_spec _ _ _ _ Hids0 owner) as Hspec.
  rewrite Hl0, lookup_empty in Hspec. simpl in Hspec.
  assert (NoDup l0) as Hl0nd.
  { rewrite Hspec.
    apply (sublist_NoDup _
             (owned_native_ids t (o_active_cell_iterators (coarse_cells t))).*2).
    - rewrite owned_native_ids_indices by exact Hcells. exact Hnodup.
    - apply fmap_sublist. apply sublist_filter. }
  split; [|split].
  - intros Hnil. rewrite Hnil in Hperm. apply Permutation_nil_l in Hperm.
    eapply (native_active_cell_ids_on_overlap_nonempty _ _ _ _ Hids0); [|exact Hl0|].
    + intros o l. rewrite lookup_empty. discriminate.
    + symmetry. exact Hperm.
  - apply (StronglySorted_le_NoDup_lt id); [exact Hsorted|].
    rewrite list_fmap_id, Hperm. exact Hl0nd.
  - intros r. rewrite Hperm, Hspec, list_elem_of_fmap. split.
    + intros ([o i] & -> & Hin). apply list_elem_of_filter in Hin as [Ho Hin].
      cbn in Ho. subst o. exact Hin.
    + intros Hin. exists (owner, r). split; [reflexivity|].
      apply list_elem_of_filter. split; [reflexivity|exact Hin].
Qed.

Lemma required_indices_lookup t ids owner r :
  required_active_cell_indices t = Ok ids ->
  (owner, r) ∈ owned_native_ids t (o_active_cell_iterators (coarse_cells t)) ->
  exists l, ids !! owner = Some l /\ r ∈ l.
Proof using std_sort_sorts.
  clear n_children_isotropic_pos.
  unfold required_active_cell_indices.
  destruct (native_active_cell_ids_on_overlap t _ ∅) as [ids0|e] eqn:Hids0;
    [|discriminate].
  intros [= <-] Hin.
  pose proof (native_active_cell_ids_on_overlap_spec _ _ _ _ Hids0 owner) as Hspec.
  rewrite lookup_empty in Hspec. cbn [default app] in Hspec.
  assert (r ∈ default [] (ids0 !! owner)) as Hr.
  { rewrite Hspec. apply list_elem_of_fmap. exists (owner, r).
    split; [reflexivity|]. apply list_elem_of_filter. split; [reflexivity|exact Hin]. }
  rewrite lookup_fmap. destruct (ids0 !! owner) as [l0|]; [|apply elem_of_nil in Hr as []].
  exists (std_sort nat id l0). split; [reflexivity|].
  destruct (std_sort_sorts _ id l0) as [Hperm _]. rewrite Hperm. exact Hr.
Qed.

(** What the mesh, the two [DoFHandler]s and the sorted list of
    [overlap_dh_cells] give for a locally owned active cell. *)
Lemma owned_cell_in_overlap_dh_cells t overlap_dof_handler native_dof_handler
    dofs_per_cell cells i c od p nc :
  reinit = Ok t ->
  active_cell_indices_consistent native ->
  length (cell_dof_indices native_dof_handler) =
    length (n_active_cell_iterators native) ->
  Forall (fun d => length d = dofs_per_cell) (cell_dof_indices native_dof_handler) ->
  Forall2 (fun c od => is_locally_owned c = true -> length od = dofs_per_cell)
    (o_active_cell_iterators (coarse_cells t)) (cell_dof_indices overlap_dof_handler) ->
  overlap_dh_cells t overlap_dof_handler = Ok cells ->
  o_active_cell_iterators (coarse_cells t) !! i = Some c ->
  is_locally_owned c = true ->
  cell_dof_indices overlap_dof_handler !! i = Some od ->
  get_native_cell (native_tria t) (native_cells t) c = Some (p, nc) ->
  n_active_cell_index nc < length (n_active_cell_iterators native) /\
  std_lower_bound cells (n_active_cell_index nc) = Some (n_active_cell_index nc, od) /\
  length (cell_dof_indices native_dof_handler !!! n_active_cell_index nc) = length od.
Proof.
  intros H Hcons Hlen Hnd Hod Hcells Hi Hown Hodi Hget.
  destruct (owned_cells_of_built_mesh t H Hcons) as (Hnative & Howned & Hnodup).
  set (actives := o_active_cell_iterators (coarse_cells t)) in *.
  set (odofs := cell_dof_indices overlap_dof_handler) in *.
  pose proof (Forall2_length _ _ _ Hod) as Hlen2.
  assert (n_is_active nc = true) as Hact.
  { rewrite Forall_forall in Howned.
    destruct (Howned c) as (p' & nc' & Hget' & Hact).
    - apply list_elem_of_filter. split; [exact Hown|].
      eapply list_elem_of_lookup_2. exact Hi.
    - congruence. }
  assert (n_active_cell_index nc < length (n_active_cell_iterators native)) as Hr.
  { rewrite Hnative in Hget. apply get_native_cell_at in Hget.
    eapply active_cell_index_bound; eassumption. }
  unfold overlap_dh_cells in Hcells. fold actives odofs in Hcells.
  rewrite owned_overlap_cells_Ok in Hcells
    by (rewrite fst_zip by (rewrite Hlen2; reflexivity); exact Howned).
  injection Hcells as <-.
  set (L := (fun x : OverlapCell * list N => (native_active_cell_index t x.1, x.2))
              <$> filter (fun x => is_locally_owned x.1 = true) (zip actives odofs)).
  destruct (std_sort_sorts _ fst L) as [Hperm Hsorted].
  split; [exact Hr|]. split.
  - apply std_lower_bound_found.
    + apply (StronglySorted_le_NoDup_lt fst); [exact Hsorted|].
      rewrite Hperm. unfold L. rewrite <- list_fmap_compose.
      change (fst ∘ _) with
        (native_active_cell_index t ∘ (fst : OverlapCell * list N -> OverlapCell)).
      pose proof (filter_zip_fst (fun c => is_locally_owned c = true)
                    actives odofs Hlen2) as Hfst.
      cbn beta in Hfst. rewrite list_fmap_compose, Hfst. exact Hnodup.
    + rewrite Hperm. unfold L. apply list_elem_of_fmap. exists (c, od). split.
      * unfold native_active_cell_index. cbn [fst snd]. rewrite Hget. reflexivity.
      * apply list_elem_of_filter. split; [exact Hown|].
        apply list_elem_of_lookup. exists i. apply lookup_zip_with_Some.
        exists c, od. auto.
  - destruct (lookup_lt_is_Some_2 (cell_dof_indices native_dof_handler)
                (n_active_cell_index nc)) as [d Hd]; [rewrite Hlen; exact Hr|].
    rewrite (list_lookup_total_correct _ _ _ Hd).
    rewrite Forall_forall in Hnd. rewrite (Hnd d) by (eapply list_elem_of_lookup_2; exact Hd).
    symmetry. eapply Forall2_lookup_lr in Hod; [|exact Hi|exact Hodi]. exact (Hod Hown).
Qed.

(** The call with peers that follow the protocol returns after two
    exchanges the array collapsed from a list that holds exactly the pairs of
    an overlap DoF and the native DoF with the same local number. *)
Lemma translation_pairs_with_protocol_peers
    (t : OverlapTriangulation) (overlap_dof_handler native_dof_handler : DoFHandler)
    (peers : Peers) (ids : gmap N (list nat)) (dofs_per_cell : nat) :
  reinit = Ok t ->
  active_cell_indices_consistent native ->
  fe_name native_dof_handler = fe_name overlap_dof_handler ->
  length (cell_dof_indices native_dof_handler) =
    length (n_active_cell_iterators native) ->
  Forall (fun d => length d = dofs_per_cell) (cell_dof_indices native_dof_handler) ->
  Forall2 (fun c od => is_locally_owned c = true -> length od = dofs_per_cell)
    (o_active_cell_iterators (coarse_cells t)) (cell_dof_indices overlap_dof_handler) ->
  required_active_cell_indices t = Ok ids ->
  (forall owner l, cells_received peers ids !! owner = Some l -> l <> []) ->
  (forall sent,
     pack_requests (native_dh_cells native native_dof_handler)
       (cells_received peers ids) = Ok sent ->
     dofs_received peers sent =
     (fun l => (pack_cells (native_dh_cells native native_dof_handler) l).1) <$> ids) ->
  exists overlap_to_native,
    run_collective peers
      (compute_overlap_to_native_dof_translation t overlap_dof_handler
         native_dof_handler) =
      (2, Ok (collapse_overlap_to_native overlap_to_native)) /\
    (forall o n,
       (o, n) ∈ overlap_to_native <->
       same_local_dof t overlap_dof_handler native_dof_handler o n).
Proof.
  intros H Hcons Hfe Hlen Hnd Hod Hids Hreq Hreply.
  unfold same_local_dof.
  destruct (owned_cells_of_built_mesh t H Hcons) as (Hnative & Howned & Hnodup).
  pose proof (Forall2_length _ _ _ Hod) as Hlen2.
  assert (exists cells, overlap_dh_cells t overlap_dof_handler = Ok cells)
    as [cells Hcells].
  { unfold overlap_dh_cells. rewrite owned_overlap_cells_Ok.
    - eexists. reflexivity.
    - rewrite fst_zip by (rewrite Hlen2; reflexivity). exact Howned. }
  set (actives := o_active_cell_iterators (coarse_cells t)) in *.
  set (odofs := cell_dof_indices overlap_dof_handler) in *.
  set (ds := cell_dof_indices native_dof_handler) in *.
  set (odf := fun r => default [] (snd <$> std_lower_bound cells r)).
  set (g := fun e : N * list N =>
              default [] (ids !! e.1) ≫= (fun r => zip (odf r) (ds !!! r))).
  set (entries := map_to_list
                    ((fun l => (pack_cells (native_dh_cells native native_dof_handler) l).1)
                       <$> ids)).
  assert (forall i c od p nc,
            actives !! i = Some c -> is_locally_owned c = true ->
            odofs !! i = Some od ->
            get_native_cell (native_tria t) (native_cells t) c = Some (p, nc) ->
            n_active_cell_index nc < length (n_active_cell_iterators native) /\
            odf (n_active_cell_index nc) = od /\
            std_lower_bound cells (n_active_cell_index nc) =
              Some (n_active_cell_index nc, od) /\
            length (ds !!! n_active_cell_index nc) = length od) as Hcell.
  { intros i c od p nc Hi Hown Hodi Hget.
    destruct (owned_cell_in_overlap_dh_cells t overlap_dof_handler native_dof_handler
                dofs_per_cell cells i c od p nc H Hcons Hlen Hnd Hod Hcells
                Hi Hown Hodi Hget) as (Hr & Hfind & Hl).
    split; [exact Hr|]. split; [|split; [exact Hfind|exact Hl]].
    unfold odf. rewrite Hfind. reflexivity. }
  assert (forall owner l r, ids !! owner = Some l -> r ∈ l ->
            exists i c od p nc,
              actives !! i = Some c /\ is_locally_owned c = true /\
              odofs !! i = Some od /\
              get_native_cell (native_tria t) (native_cells t) c = Some (p, nc) /\
              n_active_cell_index nc = r) as Hfact.
  { intros owner l r Hl Hr.
    destruct (required_indices_of_built_mesh t ids H Hcons Hids owner l Hl)
      as (_ & _ & Helem).
    apply Helem in Hr. apply elem_of_owned_native_ids in Hr
      as (c & p & nc & Hc & Hown & Hget & _ & Hidx).
    apply list_elem_of_lookup in Hc as [i Hi].
    destruct (lookup_lt_is_Some_2 odofs i) as [od Hodi].
    { rewrite <- Hlen2. eapply lookup_lt_Some. exact Hi. }
    exists i, c, od, p, nc. auto. }
  assert (unpack_all cells entries = Some (Ok (entries ≫= g))) as Hunpack.
  { apply unpack_all_Ok. apply Forall_forall. intros [owner packed] Hin.
    unfold entries in Hin. apply elem_of_map_to_list in Hin.
    rewrite lookup_fmap in Hin.
    destruct (ids !! owner) as [l|] eqn:Hl; [|discriminate].
    cbn in Hin. injection Hin as <-.
    destruct (required_indices_of_built_mesh t ids H Hcons Hids owner l Hl)
      as (Hne & Hsorted & _).
    assert (Forall (fun r => r < length (n_active_cell_iterators native)) l) as Hrange.
    { apply Forall_forall. intros r Hr.
      destruct (Hfact owner l r Hl Hr) as (i & c & od & p & nc & Hi & Hown & Hodi & Hget & <-).
      exact (proj1 (Hcell i c od p nc Hi Hown Hodi Hget)). }
    unfold g. cbn [fst snd]. rewrite Hl. cbn [default].
    unfold native_dh_cells. rewrite Hcons, <- Hlen.
    rewrite (pack_cells_seq _ 0 l); [| exact Hne | exact Hsorted |].
    2:{ fold ds. rewrite Hlen. eapply Forall_impl; [exact Hrange|].
        intros r Hr. cbn beta in *. lia. }
    cbn [fst]. fold ds.
    assert (l ≫= (fun r => packed_record r (ds !!! (r - 0))) =
            ((fun r => (r, (odf r, ds !!! r))) <$> l)
              ≫= (fun rec => packed_record rec.1 rec.2.2)) as ->.
    { rewrite bind_fmap_list. apply bind_ext_Forall, Forall_forall.
      intros r _. cbn [fst snd]. rewrite Nat.sub_0_r. reflexivity. }
    rewrite unpack_records_of_packed; [| |reflexivity].
    - rewrite bind_fmap_list. reflexivity.
    - apply Forall_fmap, Forall_forall. intros r Hr. cbn [fst snd compose].
      destruct (Hfact owner l r Hl Hr) as (i & c & od & p & nc & Hi & Hown & Hodi & Hget & <-).
      destruct (Hcell i c od p nc Hi Hown Hodi Hget) as (_ & -> & Hfind & Hl').
      split; [exact Hfind|]. rewrite Hl'. reflexivity. }
  assert (forall o n,
            (o, n) ∈ entries ≫= g <->
            exists i c od p nc k,
              actives !! i = Some c /\ is_locally_owned c = true /\
              odofs !! i = Some od /\
              get_native_cell (native_tria t) (native_cells t) c = Some (p, nc) /\
              od !! k = Some o /\
              (ds !!! n_active_cell_index nc) !! k = Some n) as Hpairs.
  2:{ exists (entries ≫= g). split; [|exact Hpairs].
      unfold compute_overlap_to_native_dof_translation.
      rewrite Hids. cbn [of_result run_collective].
      rewrite Hfe, String.eqb_refl. cbn [negb].
      rewrite Hnative.
      destruct (pack_requests_Ok (native_dh_cells native native_dof_handler)
                  (cells_received peers ids) Hreq) as [dofs_on_native Hsent].
      rewrite Hsent. cbn [of_result run_collective].
      rewrite (Hreply _ Hsent), Hcells.
      cbn [of_result]. fold entries. rewrite Hunpack. reflexivity. }
  intros o n. rewrite list_elem_of_bind. split.
  - intros ([owner packed] & Hon & Hin).
    unfold entries in Hin. apply elem_of_map_to_list in Hin.
    rewrite lookup_fmap in Hin.
    destruct (ids !! owner) as [l|] eqn:Hl; [|discriminate].
    unfold g in Hon. cbn [fst] in Hon. rewrite Hl in Hon. cbn [default] in Hon.
    apply list_elem_of_bind in Hon as (r & Hzip & Hr).
    destruct (Hfact owner l r Hl Hr) as (i & c & od & p & nc & Hi & Hown & Hodi & Hget & <-).
    destruct (Hcell i c od p nc Hi Hown Hodi Hget) as (_ & Hodf & _).
    rewrite Hodf in Hzip. apply list_elem_of_lookup in Hzip as [k Hk].
    apply lookup_zip_with_Some in Hk as (o' & n' & Heq & Ho & Hn).
    injection Heq as -> ->.
    exists i, c, od, p, nc, k. auto 10.
  - intros (i & c & od & p & nc & k & Hi & Hown & Hodi & Hget & Ho & Hn).
    destruct (Hcell i c od p nc Hi Hown Hodi Hget) as (_ & Hodf & _).
    destruct (required_indices_lookup t ids (n_subdomain_id nc)
                (n_active_cell_index nc) Hids) as (l & Hl & Hr).
    { apply elem_of_owned_native_ids. exists c, p, nc.
      split; [eapply list_elem_of_lookup_2; exact Hi|]. auto. }
    exists (n_subdomain_id nc,
            (pack_cells (native_dh_cells native native_dof_handler) l).1).
    split.
    + unfold g. cbn [fst]. rewrite Hl. cbn [default].
      apply list_elem_of_bind. exists (n_active_cell_index nc).
      split; [|exact Hr]. rewrite Hodf.
      apply list_elem_of_lookup. exists k. apply lookup_zip_with_Some.
      exists o, n. auto.
    + unfold entries. apply elem_of_map_to_list. rewrite lookup_fmap, Hl.
      reflexivity.
Qed.


(** A DoF of a locally owned cell meets a native DoF, and only such a DoF
    does. *)
Lemma locally_relevant_dof_iff t overlap_dof_handler native_dof_handler
    dofs_per_cell o :
  reinit = Ok t ->
  active_cell_indices_consistent native ->
  length (cell_dof_indices native_dof_handler) =
    length (n_active_cell_iterators native) ->
  Forall (fun d => length d = dofs_per_cell) (cell_dof_indices native_dof_handler) ->
  Forall2 (fun c od => is_locally_owned c = true -> length od = dofs_per_cell)
    (o_active_cell_iterators (coarse_cells t)) (cell_dof_indices overlap_dof_handler) ->
  locally_relevant_dof t overlap_dof_handler o <->
  exists n, same_local_dof t overlap_dof_handler native_dof_handler o n.
Proof.
  intros H Hcons Hlen Hnd Hod.
  destruct (owned_cells_of_built_mesh t H Hcons) as (Hnative & Howned & _).
  unfold locally_relevant_dof, same_local_dof. split.
  - intros (i & c & od & Hi & Hown & Hodi & Ho).
    apply list_elem_of_lookup in Ho as [k Hk].
    rewrite Forall_forall in Howned.
    destruct (Howned c) as (p & nc & Hget & Hact).
    { apply list_elem_of_filter. split; [exact Hown|].
      eapply list_elem_of_lookup_2. exact Hi. }
    assert (n_active_cell_index nc < length (n_active_cell_iterators native)) as Hr.
    { pose proof Hget as Hat. rewrite Hnative in Hat. apply get_native_cell_at in Hat.
      eapply active_cell_index_bound; eassumption. }
    destruct (lookup_lt_is_Some_2 (cell_dof_indices native_dof_handler)
                (n_active_cell_index nc)) as [d Hd]; [rewrite Hlen; exact Hr|].
    assert (length d = length od) as Hl.
    { rewrite Forall_forall in Hnd.
      rewrite (Hnd d) by (eapply list_elem_of_lookup_2; exact Hd).
      symmetry. eapply Forall2_lookup_lr in Hod; [|exact Hi|exact Hodi]. exact (Hod Hown). }
    destruct (lookup_lt_is_Some_2 d k) as [n Hn].
    { rewrite Hl. eapply lookup_lt_Some. exact Hk. }
    exists n, i, c, od, p, nc, k.
    rewrite (list_lookup_total_correct _ _ _ Hd). auto 10.
  - intros (n & i & c & od & p & nc & k & Hi & Hown & Hodi & _ & Hk & _).
    exists i, c, od. split; [exact Hi|]. split; [exact Hown|]. split; [exact Hodi|].
    eapply list_elem_of_lookup_2. exact Hk.
Qed.


End ProtocolProperties.

(** ** The protocol on the concrete mesh *)

Section ProtocolExample.

Import Example.


(** On [built_tria] an overlap DoF meets the native DoF at its place in the
    array of thirteen entries, and the locally relevant DoFs are those below
    13. *)
Lemma example_same_local_dof o n :
  same_local_dof built_tria overlap_dof_handler native_dof_handler o n ->
  [0; 4; 64; 68; 38; 39; 54; 55; 40; 56; 70; 71; 72]%N !! N.to_nat o = Some n.
Proof.
  intros Hin. apply same_local_dof_elem in Hin.
  match type of Hin with _ ∈ ?l => set (L := l) in Hin end.
  vm_compute in L. subst L.
  repeat (apply elem_of_cons in Hin as [[= -> ->]|Hin]; [reflexivity|]).
  apply elem_of_nil in Hin as [].
Qed.

Lemma example_locally_relevant_dof o :
  locally_relevant_dof built_tria overlap_dof_handler o <-> N.to_nat o < 13.
Proof.
  rewrite locally_relevant_dof_elem.
  match goal with |- _ ∈ ?l <-> _ => set (L := l) end.
  vm_compute in L. subst L. split.
  - intros Hin.
    repeat (apply elem_of_cons in Hin as [->|Hin]; [vm_compute; lia|]).
    apply elem_of_nil in Hin as [].
  - intros Ho.
    assert (o ∈ N.of_nat <$> seq 0 13) as Hseq.
    { apply list_elem_of_fmap. exists (N.to_nat o). split; [lia|].
      apply elem_of_seq. lia. }
    cbn in Hseq.
    repeat (apply elem_of_cons in Hseq as [->|Hseq];
            [apply (bool_decide_unpack _); vm_compute; reflexivity|]).
    apply elem_of_nil in Hseq as [].
Qed.


End ProtocolExample.
